(** * chaos-dl: download, extraction and search pipelines of [main.go]

    A shallow embedding of [src/main.go].  Sequential functions
    ([fetchIndex], [loadIndex], [main] up to its last call, [downloadZip],
    [unzip], [countMatches], the reduction of [parallelQuery]) are Rocq
    functions over an explicit file system.  The
    goroutines and channels of [parallelDownload] are a transition system:
    one [action] is one move of one goroutine, [step] executes it, and a
    schedule is a list of actions. *)

From stdpp Require Import gmap strings list fin_maps pretty.
From Stdlib Require Import ZArith Lia Strings.Byte Strings.Ascii.

Local Open Scope Z_scope.

(** ** Strings and paths *)

(** [strings.HasSuffix]: some tail of [s] is [suf]. *)
Fixpoint HasSuffix (s suf : string) : bool :=
  if String.eqb s suf then true
  else match s with
       | EmptyString => false
       | String _ s' => HasSuffix s' suf
       end.

Fixpoint last_char (s : string) : option Ascii.ascii :=
  match s with
  | EmptyString => None
  | String c EmptyString => Some c
  | String _ s' => last_char s'
  end.

(** The elements of a path, between its separators. *)
Fixpoint split_slash (s : string) : list string :=
  match s with
  | EmptyString => [EmptyString]
  | String c s' =>
      if Ascii.eqb c "/"%char then EmptyString :: split_slash s'
      else match split_slash s' with
           | x :: xs => String c x :: xs
           | [] => [String c EmptyString]
           end
  end.

Definition is_rooted (s : string) : bool :=
  match s with
  | String c _ => Ascii.eqb c "/"%char
  | EmptyString => false
  end.

(** One element of the path in [filepath.Clean]; [kept] holds the elements
    kept so far, the last one first.  Empty elements and [.] are dropped; a
    [..] removes the element before it, is dropped at the root, and is kept
    where nothing but [..] precedes it. *)
Definition clean_elem (rooted : bool) (kept : list string) (e : string) : list string :=
  if String.eqb e "" || String.eqb e "." then kept
  else if String.eqb e ".." then
    match kept with
    | top :: below => if String.eqb top ".." then e :: kept else below
    | [] => if rooted then [] else [e]
    end
  else e :: kept.

(** [filepath.Clean] with the separator [/]: the shortest path that names
    the same file by the rules above; the empty result is [.]. *)
Definition Clean (path : string) : string :=
  let rooted := is_rooted path in
  let kept := rev (fold_left (clean_elem rooted) (split_slash path) []) in
  match rooted, kept with
  | true, _ => "/" +:+ String.concat "/" kept
  | false, [] => "."
  | false, _ => String.concat "/" kept
  end.

(** [filepath.Join] of two elements: from the first element that is not
    empty on, the elements are joined with the separator and the result is
    cleaned; two empty elements give the empty string. *)
Definition Join (a b : string) : string :=
  match a, b with
  | EmptyString, EmptyString => EmptyString
  | EmptyString, _ => Clean b
  | _, _ => Clean (a +:+ "/" +:+ b)
  end.

(** Constants of [main.go]. *)
Definition chaosDir : string := "chaos".
Definition outName : string := "subdomains.txt".

(** The name [os.CreateTemp("", "chaos-*.zip")] gives to the file it
    creates in the temporary directory; the starred part is chosen by the
    operating system and is the number [n] here. *)
Definition tmp_path (n : nat) : string := "/tmp/chaos-" +:+ pretty n +:+ ".zip".

(** ** Data model (the structs of [main.go]) *)

Record Program := mkProgram { Name : string; URL : string; Count : Z }.

(** The values of Go's [error] that the program can produce; [nil] is
    [None] in an [option error]. *)
Inductive error :=
| ErrGet                (* http.Get failed *)
| ErrStatus (code : Z)  (* fmt.Errorf("status %d", ...) *)
| ErrCreateTemp         (* os.CreateTemp failed *)
| ErrBodyCopy           (* io.Copy of the response body failed *)
| ErrZipOpen            (* zip.OpenReader failed *)
| ErrCreate             (* os.Create failed *)
| ErrFileOpen           (* f.Open() of an archive member failed *)
| ErrFileCopy.          (* io.Copy of an archive member failed *)

Record downloadResult := mkDownloadResult {
  program : Program;
  zipPath : string;
  err : option error
}.

Record unzipJob := mkUnzipJob {
  job_program : Program;
  job_zipPath : string
}.

Record queryResult := mkQueryResult {
  file : string;
  matchCount : Z
}.

(** The file system: the regular files that can be opened, by path.  A path
    is the cleaned name under which the program reaches the file, and two
    paths are two files (no links).  Directories are not files: those that
    [os.MkdirAll] makes on the way to a file have no entry here, and a
    directory that cannot be made shows as the [os.Create] below it
    failing. *)
Abbreviation filesystem := (gmap string (list byte)).

(** ** External collaborators *)

(** What [http.Get] answers: a transport error, or a response with a status
    code and a body; [BodyErr] says that reading the body fails after
    [Body] has been delivered. *)
Inductive http_response :=
| GetFailed
| Response (StatusCode : Z) (Body : list byte) (BodyErr : bool).

(** One member of an opened archive ([zip.File]): [f.Name],
    [f.FileInfo().IsDir()], and what [f.Open()] gives: [None] when the
    member cannot be opened, otherwise the decompressed bytes the reader
    delivers and whether it then fails instead of reporting end of file. *)
Record zfile := mkZfile {
  zname : string;
  zisdir : bool;
  zopen : option (list byte * bool)
}.

(** The remote side and the archive decoder of [archive/zip]:
    [zip_OpenReader] is [None] when the bytes are not a readable archive,
    otherwise the members in stored order.  [http_Get] is what a call of
    [http.Get] answers when it returns; the program sets no timeout, and a
    call that never returns is, in the transition system below, a fetch
    that the schedule never makes. *)
Class World := {
  http_Get : string → http_response;
  zip_OpenReader : list byte → option (list zfile)
}.

(** ** Archive Fetcher: [downloadZip] *)

(** [tmp] is the outcome of [os.CreateTemp]: [None] when it fails, [Some n]
    when it creates [tmp_path n]. *)
Definition downloadZip {W : World} (p : Program) (tmp : option nat) (fs : filesystem)
  : filesystem * (string * option error) :=
  match http_Get (URL p) with
  | GetFailed => (fs, ("", Some ErrGet))
  | Response code body body_err =>
      if negb (code =? 200) then (fs, ("", Some (ErrStatus code)))
      else match tmp with
           | None => (fs, ("", Some ErrCreateTemp))
           | Some n =>
               let tmpPath := tmp_path n in
               let fs1 := <[tmpPath := []]> fs in      (* os.CreateTemp *)
               let fs2 := <[tmpPath := body]> fs1 in   (* io.Copy(tmpFile, resp.Body) *)
               if body_err
               then (delete tmpPath fs2, ("", Some ErrBodyCopy))  (* os.Remove(tmpPath) *)
               else (fs2, (tmpPath, None))
           end
  end.

(** ** Archive Extractor: [unzip] *)

Definition is_text_member (f : zfile) : bool :=
  negb (zisdir f) && HasSuffix (zname f) ".txt".

(** The loop over [r.File].  [w] is what has been written to the buffered
    writer so far.  [clobbered] says that the archive is the output file
    itself, which [os.Create] has just truncated: its members can no longer
    be opened. *)
Fixpoint copy_members (clobbered : bool) (files : list zfile) (w : list byte)
  : list byte * option error :=
  match files with
  | [] => (w, None)
  | f :: rest =>
      if zisdir f || negb (HasSuffix (zname f) ".txt")
      then copy_members clobbered rest w                      (* continue *)
      else match (if clobbered then None else zopen f) with
           | None => (w, Some ErrFileOpen)
           | Some (data, read_err) =>
               let w' := w ++ data in                          (* io.Copy(writer, rc) *)
               if read_err then (w', Some ErrFileCopy)
               else copy_members clobbered rest w'
           end
  end.

(** [create_ok] is whether [os.Create(outPath)] succeeds.  Writes to a
    created file are taken to succeed; the deferred [writer.Flush()] and
    [outFile.Close()] leave everything written so far in the file, also
    when the loop returns an error. *)
Definition unzip {W : World} (create_ok : bool) (src dest : string) (fs : filesystem)
  : filesystem * option error :=
  match fs !! src ≫= zip_OpenReader with
  | None => (fs, Some ErrZipOpen)
  | Some files =>
      let outPath := Join dest outName in
      if negb create_ok then (fs, Some ErrCreate)
      else
        let fs1 := <[outPath := []]> fs in                    (* os.Create truncates *)
        let '(w, e) := copy_members (bool_decide (src = outPath)) files [] in
        (<[outPath := w]> fs1, e)
  end.

(** ** Channels

    A buffered channel [make(chan A, cap)].  A send is possible while the
    buffer holds fewer than [cap] values and blocks otherwise; a receive
    takes the oldest value.  A channel of capacity 0 is made only in runs
    in which nothing is ever sent on it (nothing selected, or no worker), so
    the rendezvous of unbuffered channels is not modelled.  A send on a
    closed channel panics in Go and is no move here; [no_send_on_closed]
    shows that no goroutine is ever at such a send. *)
Record chan (A : Type) := mkChan { cap : nat; buf : list A; closed : bool }.
Arguments mkChan {A}.
Arguments cap {A}.
Arguments buf {A}.
Arguments closed {A}.

Definition make {A} (n : nat) : chan A := mkChan n [] false.

Definition send {A} (x : A) (c : chan A) : option (chan A) :=
  if bool_decide (length (buf c) < cap c)%nat && negb (closed c)
  then Some (mkChan (cap c) (buf c ++ [x]) (closed c))
  else None.

Definition recv {A} (c : chan A) : option (A * chan A) :=
  match buf c with
  | x :: rest => Some (x, mkChan (cap c) rest (closed c))
  | [] => None
  end.

Definition close {A} (c : chan A) : chan A := mkChan (cap c) (buf c) true.

(** ** Download-Extract Pipeline: [parallelDownload] *)

(** The goroutines, each at one of its blocking points. *)
Inductive dl_worker :=
| DlRange                       (* at [for p := range downloadJobs] *)
| DlFetch (p : Program)         (* about to call [downloadZip(p)] *)
| DlSend (r : downloadResult)   (* at [downloadResults <- ...] *)
| DlExit.                       (* returned; [dlWg.Done()] has run *)

Inductive uz_worker :=
| UzRange                       (* at [for job := range unzipJobs] *)
| UzWork (j : unzipJob)         (* about to extract [j] *)
| UzExit.                       (* returned; [unzipWg.Done()] has run *)

Inductive driver :=
| DrvRange                      (* at [for result := range downloadResults] *)
| DrvSend (j : unzipJob)        (* at [unzipJobs <- ...] *)
| DrvWait                       (* at [unzipWg.Wait()] *)
| DrvDone.                      (* [parallelDownload] has returned *)

Record state := mkState {
  fs : filesystem;
  feeder : option (list Program);  (* the rest of toDownload; None once the feeder has returned *)
  downloadJobs : chan Program;
  dlWorkers : list dl_worker;
  downloadResults : chan downloadResult;
  unzipJobs : chan unzipJob;
  uzWorkers : list uz_worker;
  main : driver;
  successCount : Z;
  failCount : Z
}.

(** What the operator sees, and what is observed of a run. *)
Inductive message :=
| MsgDownloading (n : nat) (workers : Z)
| MsgDownloadErr (name : string) (e : error)
| MsgUnzipErr (name : string) (e : error)
| MsgOk (name : string)
| MsgComplete (success failed : Z).

Inductive event :=
| EvEnqueue (p : Program)        (* a job sent on downloadJobs *)
| EvOutcome (r : downloadResult) (* a FetchOutcome built by a download worker *)
| EvPrint (m : message).

(** One move of one goroutine.  [ADlFetch] carries the outcome of
    [os.CreateTemp] and [AUzWork] whether [os.Create] succeeds.  A call of
    [downloadZip] and a call of [unzip] followed by [os.Remove] are one move
    each: a temporary archive is known to the goroutine that holds its path
    only, and two calls of [unzip] write the same consolidated file only
    when two selected programs share a directory name, in which case the
    moves give the effect of the two calls one after the other. *)
Inductive action :=
| AFeed
| ADlRecv (i : nat)
| ADlFetch (i : nat) (tmp : option nat)
| ADlSend (i : nat)
| ACloseResults
| AMainRecv
| AMainSend
| AMainFinish
| AUzRecv (i : nat)
| AUzWork (i : nat) (create_ok : bool).

Definition with_fs (f : filesystem) (s : state) : state :=
  mkState f (feeder s) (downloadJobs s) (dlWorkers s) (downloadResults s)
          (unzipJobs s) (uzWorkers s) (main s) (successCount s) (failCount s).
Definition with_feeder (x : option (list Program)) (s : state) : state :=
  mkState (fs s) x (downloadJobs s) (dlWorkers s) (downloadResults s)
          (unzipJobs s) (uzWorkers s) (main s) (successCount s) (failCount s).
Definition with_downloadJobs (c : chan Program) (s : state) : state :=
  mkState (fs s) (feeder s) c (dlWorkers s) (downloadResults s)
          (unzipJobs s) (uzWorkers s) (main s) (successCount s) (failCount s).
Definition with_dlWorker (i : nat) (w : dl_worker) (s : state) : state :=
  mkState (fs s) (feeder s) (downloadJobs s) (<[i := w]> (dlWorkers s)) (downloadResults s)
          (unzipJobs s) (uzWorkers s) (main s) (successCount s) (failCount s).
Definition with_downloadResults (c : chan downloadResult) (s : state) : state :=
  mkState (fs s) (feeder s) (downloadJobs s) (dlWorkers s) c
          (unzipJobs s) (uzWorkers s) (main s) (successCount s) (failCount s).
Definition with_unzipJobs (c : chan unzipJob) (s : state) : state :=
  mkState (fs s) (feeder s) (downloadJobs s) (dlWorkers s) (downloadResults s)
          c (uzWorkers s) (main s) (successCount s) (failCount s).
Definition with_uzWorker (i : nat) (w : uz_worker) (s : state) : state :=
  mkState (fs s) (feeder s) (downloadJobs s) (dlWorkers s) (downloadResults s)
          (unzipJobs s) (<[i := w]> (uzWorkers s)) (main s) (successCount s) (failCount s).
Definition with_main (d : driver) (s : state) : state :=
  mkState (fs s) (feeder s) (downloadJobs s) (dlWorkers s) (downloadResults s)
          (unzipJobs s) (uzWorkers s) d (successCount s) (failCount s).
Definition with_successCount (n : Z) (s : state) : state :=
  mkState (fs s) (feeder s) (downloadJobs s) (dlWorkers s) (downloadResults s)
          (unzipJobs s) (uzWorkers s) (main s) n (failCount s).
Definition with_failCount (n : Z) (s : state) : state :=
  mkState (fs s) (feeder s) (downloadJobs s) (dlWorkers s) (downloadResults s)
          (unzipJobs s) (uzWorkers s) (main s) (successCount s) n.

(** The feeder's test [p.URL != "" && p.Count > 0]. *)
Definition eligible (p : Program) : bool :=
  negb (String.eqb (URL p) "") && (0 <? Count p).

Definition dl_exited (w : dl_worker) : bool :=
  match w with DlExit => true | _ => false end.
Definition uz_exited (w : uz_worker) : bool :=
  match w with UzExit => true | _ => false end.

(** The feeder goroutine: one iteration of [for _, p := range toDownload],
    or [close(downloadJobs)] after the last one. *)
Definition step_feed (s : state) : option (state * list event) :=
  match feeder s with
  | None => None
  | Some [] => Some (with_feeder None (with_downloadJobs (close (downloadJobs s)) s), [])
  | Some (p :: rest) =>
      if eligible p
      then c ← send p (downloadJobs s);
           Some (with_feeder (Some rest) (with_downloadJobs c s), [EvEnqueue p])
      else Some (with_feeder (Some rest) s, [])
  end.

(** A download worker. *)
Definition step_dl_recv (i : nat) (s : state) : option (state * list event) :=
  match dlWorkers s !! i with
  | Some DlRange =>
      match recv (downloadJobs s) with
      | Some (p, c) => Some (with_dlWorker i (DlFetch p) (with_downloadJobs c s), [])
      | None =>
          if closed (downloadJobs s) then Some (with_dlWorker i DlExit s, [])
          else None
      end
  | _ => None
  end.

Definition tmp_fresh (tmp : option nat) (f : filesystem) : bool :=
  match tmp with
  | Some n => bool_decide (f !! tmp_path n = None)
  | None => true
  end.

Definition step_dl_fetch {W : World} (i : nat) (tmp : option nat) (s : state)
  : option (state * list event) :=
  match dlWorkers s !! i with
  | Some (DlFetch p) =>
      if tmp_fresh tmp (fs s) then
        let '(f, (zp, e)) := downloadZip p tmp (fs s) in
        let r := mkDownloadResult p zp e in
        Some (with_dlWorker i (DlSend r) (with_fs f s), [EvOutcome r])
      else None
  | _ => None
  end.

Definition step_dl_send (i : nat) (s : state) : option (state * list event) :=
  match dlWorkers s !! i with
  | Some (DlSend r) =>
      c ← send r (downloadResults s);
      Some (with_dlWorker i DlRange (with_downloadResults c s), [])
  | _ => None
  end.

(** The goroutine [dlWg.Wait(); close(downloadResults)]. *)
Definition step_close_results (s : state) : option (state * list event) :=
  if forallb dl_exited (dlWorkers s) && negb (closed (downloadResults s))
  then Some (with_downloadResults (close (downloadResults s)) s, [])
  else None.

(** The driver: the loop over [downloadResults], then [close(unzipJobs)],
    [unzipWg.Wait()] and the final tally. *)
Definition step_main_recv (s : state) : option (state * list event) :=
  match main s with
  | DrvRange =>
      match recv (downloadResults s) with
      | Some (result, c) =>
          match err result with
          | Some e =>
              Some (with_failCount (failCount s + 1) (with_downloadResults c s),
                    [EvPrint (MsgDownloadErr (Name (program result)) e)])
          | None =>
              Some (with_main (DrvSend (mkUnzipJob (program result) (zipPath result)))
                      (with_successCount (successCount s + 1) (with_downloadResults c s)),
                    [])
          end
      | None =>
          if closed (downloadResults s)
          then Some (with_main DrvWait (with_unzipJobs (close (unzipJobs s)) s), [])
          else None
      end
  | _ => None
  end.

Definition step_main_send (s : state) : option (state * list event) :=
  match main s with
  | DrvSend j =>
      c ← send j (unzipJobs s);
      Some (with_main DrvRange (with_unzipJobs c s), [])
  | _ => None
  end.

Definition step_main_finish (s : state) : option (state * list event) :=
  match main s with
  | DrvWait =>
      if forallb uz_exited (uzWorkers s)
      then Some (with_main DrvDone s,
                 [EvPrint (MsgComplete (successCount s) (failCount s))])
      else None
  | _ => None
  end.

(** An unzip worker. *)
Definition step_uz_recv (i : nat) (s : state) : option (state * list event) :=
  match uzWorkers s !! i with
  | Some UzRange =>
      match recv (unzipJobs s) with
      | Some (j, c) => Some (with_uzWorker i (UzWork j) (with_unzipJobs c s), [])
      | None =>
          if closed (unzipJobs s) then Some (with_uzWorker i UzExit s, [])
          else None
      end
  | _ => None
  end.

(** One job of an unzip worker.  [os.MkdirAll(destDir)] makes the directory
    of the consolidated file, as [os.MkdirAll(chaosDir)] makes the one above
    it before the goroutines start; its error is dropped, and where the
    directory cannot be made the [os.Create] of [unzip] fails ([create_ok]
    is false). *)
Definition step_uz_work {W : World} (i : nat) (create_ok : bool) (s : state)
  : option (state * list event) :=
  match uzWorkers s !! i with
  | Some (UzWork job) =>
      let destDir := Join chaosDir (Name (job_program job)) in
      let '(f, e) := unzip create_ok (job_zipPath job) destDir (fs s) in
      let m := match e with
               | Some e => MsgUnzipErr (Name (job_program job)) e
               | None => MsgOk (Name (job_program job))
               end in
      Some (with_uzWorker i UzRange (with_fs (delete (job_zipPath job) f) s),  (* os.Remove(job.zipPath) *)
            [EvPrint m])
  | _ => None
  end.

(** The move of the goroutine that [a] names. *)
Definition dispatch {W : World} (s : state) (a : action) : option (state * list event) :=
  match a with
  | AFeed => step_feed s
  | ADlRecv i => step_dl_recv i s
  | ADlFetch i tmp => step_dl_fetch i tmp s
  | ADlSend i => step_dl_send i s
  | ACloseResults => step_close_results s
  | AMainRecv => step_main_recv s
  | AMainSend => step_main_send s
  | AMainFinish => step_main_finish s
  | AUzRecv i => step_uz_recv i s
  | AUzWork i create_ok => step_uz_work i create_ok s
  end.

(** [step s a] is [None] when the goroutine of [a] cannot move in [s]: it
    is blocked, is elsewhere in its code, or the process has ended because
    [parallelDownload] has returned. *)
Definition step {W : World} (s : state) (a : action) : option (state * list event) :=
  match main s with
  | DrvDone => None
  | _ => dispatch s a
  end.

(** A run under a schedule, with the events it produces. *)
Fixpoint run {W : World} (s : state) (sched : list action) : option (state * list event) :=
  match sched with
  | [] => Some (s, [])
  | a :: rest =>
      '(s1, ev) ← step s a;
      '(s2, evs) ← run s1 rest;
      Some (s2, ev ++ evs)
  end.

(** The state in which the goroutines start: the channels are made, the
    workers are at their loops and the driver is at its loop. *)
Definition init_state (toDownload : list Program) (workers : nat) (f : filesystem) : state :=
  mkState f (Some toDownload)
          (make (length toDownload))
          (replicate workers DlRange)
          (make (length toDownload))
          (make (workers * 2))
          (replicate workers UzRange)
          DrvRange 0 0.

(** ** Target selection and the entry point *)

#[global] Instance byte_EqDecision : EqDecision byte := Byte.byte_eq_dec.

Definition bytes_of (s : string) : list byte := String.list_byte_of_string s.

(** [strings.ToLower], on the ASCII letters (the data is host names); other
    bytes are left as they are.  On text in ASCII this is the library
    function byte for byte; the library also folds the letters outside
    ASCII and rewrites invalid UTF-8, which is not modelled. *)
Definition lower_byte (b : byte) : byte :=
  let n := Byte.to_N b in
  if ((65 <=? n) && (n <=? 90))%N then default b (Byte.of_N (n + 32)) else b.

Definition ToLower (l : list byte) : list byte := map lower_byte l.

(** [strings.EqualFold], on the ASCII letters: exact for two strings in
    ASCII. *)
Definition EqualFold (a b : string) : bool :=
  bool_decide (ToLower (bytes_of a) = ToLower (bytes_of b)).

(** The head of [parallelDownload]: [None] is the path that ends in
    [os.Exit(1)]. *)
Definition select_targets (programs : list Program) (target : string)
  : option (list Program) :=
  if String.eqb target "all" then Some programs
  else match List.find (λ p, EqualFold (Name p) target) programs with
       | Some p => Some [p]
       | None => None
       end.

(** Go's [int] (64 bits): the value the product [workers*2] has after
    wrap-around. *)
Definition int_wrap (z : Z) : Z := (z + 2 ^ 63) mod 2 ^ 64 - 2 ^ 63.

Inductive download_outcome :=
| DownloadExit1                                 (* target not found *)
| DownloadPanic                                 (* make(chan unzipJob, workers*2) with a negative size *)
| DownloadStuck                                 (* the schedule asks a goroutine for a move it cannot make *)
| DownloadRan (s : state) (evs : list event).

(** [workers] is an [int]: a negative count starts no worker, and the size
    of the extraction-job channel is the wrapped product (memory for the
    channels and goroutines is taken to be there). *)
Definition parallelDownload {W : World} (programs : list Program) (target : string)
    (workers : Z) (f : filesystem) (sched : list action) : download_outcome :=
  match select_targets programs target with
  | None => DownloadExit1
  | Some toDownload =>
      let size := int_wrap (workers * 2) in
      if size <? 0 then DownloadPanic
      else match run (with_unzipJobs (make (Z.to_nat size))
                        (init_state toDownload (Z.to_nat workers) f)) sched with
           | None => DownloadStuck
           | Some (s, evs) =>
               DownloadRan s (EvPrint (MsgDownloading (length toDownload) workers) :: evs)
           end
  end.

(** Observations of a run. *)
Definition enqueued (evs : list event) : list Program :=
  omap (λ e, match e with EvEnqueue p => Some p | _ => None end) evs.
Definition outcomes (evs : list event) : list downloadResult :=
  omap (λ e, match e with EvOutcome r => Some r | _ => None end) evs.
Definition printed (evs : list event) : list message :=
  omap (λ e, match e with EvPrint m => Some m | _ => None end) evs.

Definition fetch_ok (r : downloadResult) : bool :=
  match err r with None => true | Some _ => false end.
Definition count_ok (l : list downloadResult) : Z :=
  Z.of_nat (length (List.filter fetch_ok l)).
Definition count_failed (l : list downloadResult) : Z :=
  Z.of_nat (length (List.filter (λ r, negb (fetch_ok r)) l)).

(** ** Search Pipeline: [countMatches] and [parallelQuery] *)

Definition newline : byte := x0a.
Definition carriage_return : byte := x0d.

(** [bufio.ScanLines]: the input cut at every newline, the newline dropped;
    a last line without newline counts, an empty rest after the last
    newline does not. *)
Fixpoint raw_lines (data : list byte) : list (list byte) :=
  match data with
  | [] => []
  | b :: rest =>
      if Byte.eqb b newline then [] :: raw_lines rest
      else match raw_lines rest with
           | [] => [[b]]
           | l :: ls => (b :: l) :: ls
           end
  end.

(** [dropCR] of bufio: one trailing carriage return is dropped. *)
Definition dropCR (l : list byte) : list byte :=
  match reverse l with
  | b :: rest => if Byte.eqb b carriage_return then reverse rest else l
  | [] => l
  end.

Fixpoint take_while {A} (f : A → bool) (l : list A) : list A :=
  match l with
  | [] => []
  | x :: rest => if f x then x :: take_while f rest else []
  end.

(** The tokens [scanner.Scan()] delivers with a buffer that may grow to
    [max] bytes.  A line is found while it fits in the buffer: with its
    newline, or up to the end of the input with room left for the read that
    reports the end; in both cases when it is shorter than [max].  At the
    first line that does not fit, [Scan] returns false (ErrTooLong) and the
    loop of the caller ends. *)
Definition scan_tokens (max : Z) (data : list byte) : list (list byte) :=
  map dropCR (take_while (λ l, Z.of_nat (length l) <? max) (raw_lines data)).

(** [scanner.Buffer(buf, 1024*1024)]. *)
Definition maxTokenSize : Z := 1024 * 1024.

Fixpoint has_prefix (s p : list byte) : bool :=
  match p, s with
  | [], _ => true
  | b :: p', c :: s' => Byte.eqb b c && has_prefix s' p'
  | _ :: _, [] => false
  end.

(** [strings.Contains]. *)
Fixpoint Contains (s sub : list byte) : bool :=
  has_prefix s sub ||
  match s with
  | [] => false
  | _ :: s' => Contains s' sub
  end.

(** The loop [for scanner.Scan() { if ... { count++ } }]. *)
Definition count_loop (domain : list byte) (tokens : list (list byte)) : Z :=
  fold_left (λ count line, if Contains (ToLower line) domain then count + 1 else count)
            tokens 0.

Definition countMatches (f : filesystem) (path : string) (domain : list byte) : Z :=
  match f !! path with
  | None => 0                                     (* os.Open failed *)
  | Some data => count_loop domain (scan_tokens maxTokenSize data)
  end.

(** What [filepath.Walk] hands to the callback, in walk order. *)
Record dirent := mkDirent { d_path : string; d_isdir : bool; d_err : bool }.

(** The callback of the walk. *)
Definition walk_files (entries : list dirent) : list string :=
  map d_path
      (List.filter (λ e, negb (d_err e) && negb (d_isdir e) && HasSuffix (d_path e) outName)
                   entries).

(** The body of a query worker for one path: what it sends on [results]. *)
Definition query_worker (f : filesystem) (domain : list byte) (path : string)
  : list queryResult :=
  let count := countMatches f path domain in
  if 0 <? count then [mkQueryResult path count] else [].

(** The reduction loop of the driver. *)
Definition best_step (best result : queryResult) : queryResult :=
  if matchCount best <? matchCount result then result else best.

Definition find_best (results : list queryResult) : queryResult :=
  fold_left best_step results (mkQueryResult "" 0).

Inductive query_outcome :=
| QueryPanic                      (* make(chan queryResult, workers) with workers < 0 *)
| QueryReturn (stdout : list byte).

(** The hits in the order in which the driver receives them from the
    [results] channel, when the workers finish the files in the order
    [order]; with no worker nothing is ever sent. *)
Definition arrivals (f : filesystem) (domain : list byte) (workers : Z)
    (order : list string) : list queryResult :=
  if workers =? 0 then [] else flat_map (query_worker f domain) order.

(** The end of [parallelQuery]: the content of the best file goes to the
    standard output, if there is a best file and it can be opened. *)
Definition emit (f : filesystem) (best : queryResult) : list byte :=
  if String.eqb (file best) "" then []
  else match f !! file best with
       | None => []                               (* os.Open failed *)
       | Some data => data                        (* io.Copy(os.Stdout, f) *)
       end.

(** [parallelQuery] with its goroutines summarised by [order], the order in
    which the scheduling lets the workers finish the discovered files.
    [parallelQuery_sched] below runs the goroutines themselves, and
    [parallelQuery_sched_refines] relates the two. *)
Definition parallelQuery (entries : list dirent) (f : filesystem) (domain : list byte)
    (workers : Z) (order : list string) : query_outcome :=
  let domain := ToLower domain in
  let files := walk_files entries in
  if bool_decide (length files = 0%nat) then QueryReturn []
  else if workers <? 0 then QueryPanic
  else QueryReturn (emit f (find_best (arrivals f domain workers order))).

(** The orders the goroutines allow: every discovered file is taken from
    [fileJobs] by one worker, and the workers finish in any order. *)
Definition completion_order (entries : list dirent) (order : list string) : Prop :=
  order ≡ₚ walk_files entries.

Definition stdout_of (o : query_outcome) : list byte :=
  match o with
  | QueryPanic => []
  | QueryReturn out => out
  end.

(** *** The goroutines of [parallelQuery]

    As for the download pipeline: one action is one move of one goroutine.
    A move yields the files whose scan it completes, either by sending the
    hit or by finding no match. *)

Inductive q_worker :=
| QRange                        (* at [for path := range fileJobs] *)
| QCount (path : string)        (* about to call [countMatches(path, domain)] *)
| QSend (r : queryResult)       (* at [results <- ...] *)
| QExit.                        (* returned; [wg.Done()] has run *)

Inductive q_driver :=
| QReduce                       (* at [for result := range results] *)
| QDone.                        (* past the loop *)

Record qstate := mkQState {
  q_feeder : option (list string);  (* the rest of files; None once the feeder has returned *)
  fileJobs : chan string;
  q_workers : list q_worker;
  results : chan queryResult;
  q_main : q_driver;
  best : queryResult
}.

Inductive qaction :=
| QAFeed
| QARecv (i : nat)
| QACount (i : nat)
| QASend (i : nat)
| QAClose
| QAReduce.

Definition q_exited (w : q_worker) : bool :=
  match w with QExit => true | _ => false end.

Definition qdispatch (f : filesystem) (domain : list byte) (s : qstate) (a : qaction)
  : option (qstate * list string) :=
  match a with
  | QAFeed =>
      match q_feeder s with
      | None => None
      | Some [] =>
          Some (mkQState None (close (fileJobs s)) (q_workers s) (results s)
                         (q_main s) (best s), [])
      | Some (path :: rest) =>
          c ← send path (fileJobs s);
          Some (mkQState (Some rest) c (q_workers s) (results s) (q_main s) (best s), [])
      end
  | QARecv i =>
      match q_workers s !! i with
      | Some QRange =>
          match recv (fileJobs s) with
          | Some (path, c) =>
              Some (mkQState (q_feeder s) c (<[i := QCount path]> (q_workers s))
                             (results s) (q_main s) (best s), [])
          | None =>
              if closed (fileJobs s)
              then Some (mkQState (q_feeder s) (fileJobs s) (<[i := QExit]> (q_workers s))
                                  (results s) (q_main s) (best s), [])
              else None
          end
      | _ => None
      end
  | QACount i =>
      match q_workers s !! i with
      | Some (QCount path) =>
          let count := countMatches f path domain in
          if 0 <? count
          then Some (mkQState (q_feeder s) (fileJobs s)
                              (<[i := QSend (mkQueryResult path count)]> (q_workers s))
                              (results s) (q_main s) (best s), [])
          else Some (mkQState (q_feeder s) (fileJobs s) (<[i := QRange]> (q_workers s))
                              (results s) (q_main s) (best s), [path])
      | _ => None
      end
  | QASend i =>
      match q_workers s !! i with
      | Some (QSend r) =>
          c ← send r (results s);
          Some (mkQState (q_feeder s) (fileJobs s) (<[i := QRange]> (q_workers s))
                         c (q_main s) (best s), [file r])
      | _ => None
      end
  | QAClose =>                                    (* wg.Wait(); close(results) *)
      if forallb q_exited (q_workers s) && negb (closed (results s))
      then Some (mkQState (q_feeder s) (fileJobs s) (q_workers s) (close (results s))
                          (q_main s) (best s), [])
      else None
  | QAReduce =>
      match recv (results s) with
      | Some (result, c) =>
          Some (mkQState (q_feeder s) (fileJobs s) (q_workers s) c (q_main s)
                         (best_step (best s) result), [])
      | None =>
          if closed (results s)
          then Some (mkQState (q_feeder s) (fileJobs s) (q_workers s) (results s)
                              QDone (best s), [])
          else None
      end
  end.

Definition qstep (f : filesystem) (domain : list byte) (s : qstate) (a : qaction)
  : option (qstate * list string) :=
  match q_main s with
  | QDone => None
  | QReduce => qdispatch f domain s a
  end.

Fixpoint qrun (f : filesystem) (domain : list byte) (s : qstate) (sched : list qaction)
  : option (qstate * list string) :=
  match sched with
  | [] => Some (s, [])
  | a :: rest =>
      '(s1, done1) ← qstep f domain s a;
      '(s2, done2) ← qrun f domain s1 rest;
      Some (s2, done1 ++ done2)
  end.

Definition q_init (files : list string) (workers : nat) : qstate :=
  mkQState (Some files) (make (length files)) (replicate workers QRange)
           (make workers) QReduce (mkQueryResult "" 0).

(** [parallelQuery] under a schedule of its goroutines: [None] when the
    schedule asks for a move that cannot be made or stops before the driver
    is past its loop. *)
Definition parallelQuery_sched (entries : list dirent) (f : filesystem)
    (domain : list byte) (workers : Z) (sched : list qaction) : option query_outcome :=
  let domain := ToLower domain in
  let files := walk_files entries in
  if bool_decide (length files = 0%nat) then Some (QueryReturn [])
  else if workers <? 0 then Some QueryPanic
  else match qrun f domain (q_init files (Z.to_nat workers)) sched with
       | Some (s, _) =>
           match q_main s with
           | QDone => Some (QueryReturn (emit f (best s)))
           | QReduce => None
           end
       | None => None
       end.

(** The paths the workers hold, and the invariant of the search goroutines:
    the reduction of what has been sent so far is the reduction of the hits
    of the completed files, and the files are all accounted for. *)
Definition q_held (w : q_worker) : list string :=
  match w with QCount path => [path] | QSend r => [file r] | _ => [] end.

Definition q_sending_ok (f : filesystem) (domain : list byte) (w : q_worker) : Prop :=
  match w with
  | QSend r => query_worker f domain (file r) = [r]
  | _ => True
  end.

Definition query_inv (f : filesystem) (domain : list byte) (files : list string)
    (workers : nat) (s : qstate) (fin : list string) : Prop :=
  fold_left best_step (buf (results s)) (best s) =
    find_best (flat_map (query_worker f domain) fin) ∧
  fin ++ flat_map q_held (q_workers s) ++ buf (fileJobs s) ++
    default [] (q_feeder s) ≡ₚ files ∧
  Forall (q_sending_ok f domain) (q_workers s) ∧
  (closed (results s) = true → forallb q_exited (q_workers s) = true) ∧
  (q_main s = QDone → closed (results s) = true ∧ buf (results s) = []) ∧
  (∀ i, q_workers s !! i = Some QExit →
     closed (fileJobs s) = true ∧ buf (fileJobs s) = []) ∧
  (closed (fileJobs s) = true → q_feeder s = None) ∧
  length (q_workers s) = workers ∧
  (workers = 0%nat → fin = [] ∧ buf (results s) = []).

Ltac invert_qdispatch H :=
  match type of H with
  | qdispatch _ _ _ ?a = Some _ =>
      destruct a; simpl in H;
      repeat (case_match; try discriminate H);
      simplify_option_eq
  end.

(** ** Measures of a pipeline state *)

(** The FetchOutcomes that have been built and not yet received by the
    driver: those held by a download worker at its send, and those in the
    results channel. *)
Definition ok_n (r : downloadResult) : nat := if fetch_ok r then 1 else 0.
Definition failed_n (r : downloadResult) : nat := if fetch_ok r then 0 else 1.

Definition dl_held (f : downloadResult → nat) (w : dl_worker) : nat :=
  match w with DlSend r => f r | _ => 0 end.

Definition pending (f : downloadResult → nat) (s : state) : nat :=
  sum_list_with (dl_held f) (dlWorkers s) + sum_list_with f (buf (downloadResults s)).

(** The temporary archives the goroutines still hold a path to. *)
Definition result_live (r : downloadResult) : list string :=
  if fetch_ok r then [zipPath r] else [].
Definition dl_live (w : dl_worker) : list string :=
  match w with DlSend r => result_live r | _ => [] end.
Definition uz_live (w : uz_worker) : list string :=
  match w with UzWork j => [job_zipPath j] | _ => [] end.
Definition main_live (d : driver) : list string :=
  match d with DrvSend j => [job_zipPath j] | _ => [] end.

Definition live (s : state) : list string :=
  flat_map dl_live (dlWorkers s) ++ flat_map result_live (buf (downloadResults s)) ++
  main_live (main s) ++ map job_zipPath (buf (unzipJobs s)) ++
  flat_map uz_live (uzWorkers s).

(** The jobs that are still ahead of the results channel. *)
Definition dl_load (w : dl_worker) : nat :=
  match w with DlFetch _ | DlSend _ => 1 | _ => 0 end.
Definition feeder_left (s : state) : nat :=
  match feeder s with Some rest => length rest | None => 0 end.
Definition upstream (s : state) : nat :=
  feeder_left s + length (buf (downloadJobs s)) + sum_list_with dl_load (dlWorkers s) +
  length (buf (downloadResults s)).

(** An upper bound on the moves that are still to come: every program
    counts for the moves that take it through the stages ahead of it, and
    every goroutine for its last move. *)
Definition dl_work (w : dl_worker) : nat :=
  match w with DlRange => 1 | DlFetch _ => 7 | DlSend _ => 6 | DlExit => 0 end.
Definition uz_work (w : uz_worker) : nat :=
  match w with UzRange => 1 | UzWork _ => 2 | UzExit => 0 end.
Definition main_work (d : driver) : nat :=
  match d with DrvRange => 2 | DrvSend _ => 5 | DrvWait => 1 | DrvDone => 0 end.

Definition work_left (s : state) : nat :=
  match feeder s with Some rest => 8 * length rest + 1 | None => 0 end +
  7 * length (buf (downloadJobs s)) + sum_list_with dl_work (dlWorkers s) +
  (if closed (downloadResults s) then 0 else 1) +
  4 * length (buf (downloadResults s)) +
  main_work (main s) + 2 * length (buf (unzipJobs s)) +
  sum_list_with uz_work (uzWorkers s).

Definition finished (s : state) : Prop := main s = DrvDone.

(** ** Invariants of the pipeline

    Each is a property of the states (and events) of every run; the proofs
    are in the second part. *)

(** The outcomes built so far are those tallied and those still ahead of
    the driver. *)
Definition tally_inv (s : state) (evs : list event) : Prop :=
  Z.of_nat (sum_list_with ok_n (outcomes evs)) =
    successCount s + Z.of_nat (pending ok_n s) ∧
  Z.of_nat (sum_list_with failed_n (outcomes evs)) =
    failCount s + Z.of_nat (pending failed_n s).

(** How the closing of the channels and the exits of the goroutines follow
    one another, for [workers] workers per stage. *)
Definition order_inv (workers : nat) (s : state) : Prop :=
  (closed (downloadResults s) = true → forallb dl_exited (dlWorkers s) = true) ∧
  (main s = DrvWait ∨ main s = DrvDone →
     closed (downloadResults s) = true ∧ buf (downloadResults s) = []) ∧
  (closed (unzipJobs s) = true → main s = DrvWait ∨ main s = DrvDone) ∧
  (closed (downloadJobs s) = true → feeder s = None) ∧
  (∀ i, dlWorkers s !! i = Some DlExit → closed (downloadJobs s) = true) ∧
  (∀ i, uzWorkers s !! i = Some UzExit →
     closed (unzipJobs s) = true ∧ buf (unzipJobs s) = []) ∧
  (main s = DrvDone → forallb uz_exited (uzWorkers s) = true) ∧
  length (dlWorkers s) = workers ∧ length (uzWorkers s) = workers ∧
  (workers = 0%nat →
     buf (downloadResults s) = [] ∧ buf (unzipJobs s) = [] ∧ main_live (main s) = []) ∧
  (feeder s = None → closed (downloadJobs s) = true) ∧
  (main s = DrvWait → closed (unzipJobs s) = true).

(** Every temporary archive on disk was there before the run or is still
    held by a goroutine that will pass it on or delete it. *)
Definition temp_inv (fs0 : filesystem) (s : state) : Prop :=
  ∀ n, is_Some (fs s !! tmp_path n) →
       is_Some (fs0 !! tmp_path n) ∨ tmp_path n ∈ live s.

(** What the feeder has enqueued and what it will still enqueue make up
    the eligible programs of the selection, in order. *)
Definition feed_inv (toDownload : list Program) (s : state) (evs : list event) : Prop :=
  match feeder s with
  | Some rest => enqueued evs ++ List.filter eligible rest = List.filter eligible toDownload
  | None => enqueued evs = List.filter eligible toDownload
  end.

(** The capacities, and the bound on what can still reach the results
    channel. *)
Definition bound_inv (toDownload : list Program) (workers : nat) (s : state) : Prop :=
  cap (downloadJobs s) = length toDownload ∧
  cap (downloadResults s) = length toDownload ∧
  cap (unzipJobs s) = (workers * 2)%nat ∧
  (length (buf (unzipJobs s)) ≤ cap (unzipJobs s))%nat ∧
  (upstream s ≤ length toDownload)%nat.

(** When the driver has returned, the last line printed is the tally. *)
Definition done_inv (s : state) (evs : list event) : Prop :=
  main s = DrvDone →
  last (printed evs) = Some (MsgComplete (successCount s) (failCount s)).

(** All of them together. *)
Definition pipeline_inv (toDownload : list Program) (workers : nat) (fs0 : filesystem)
    (s : state) (evs : list event) : Prop :=
  tally_inv s evs ∧ order_inv workers s ∧ temp_inv fs0 s ∧
  feed_inv toDownload s evs ∧ bound_inv toDownload workers s ∧ done_inv s evs.

(** Inversion of one move into its cases. *)
Ltac invert_dispatch H :=
  match type of H with
  | dispatch _ ?a = Some _ =>
      destruct a; simpl in H;
      unfold step_feed, step_dl_recv, step_dl_fetch, step_dl_send, step_close_results,
        step_main_recv, step_main_send, step_main_finish, step_uz_recv, step_uz_work in H;
      repeat (case_match; try discriminate H);
      simplify_option_eq
  end.

(** ** Notions of the specification *)

(** The consolidated content the specification asks for: the streams of
    the members that are regular files with the text extension, in stored
    order, one after the other. *)
Definition member_stream (f : zfile) : list byte :=
  match zopen f with
  | Some (data, _) => data
  | None => []
  end.

Definition spec_consolidated (files : list zfile) : list byte :=
  concat (map member_stream (List.filter is_text_member files)).

(** A file has a line longer than the scan buffer ceiling. *)
Definition has_long_line (max : Z) (data : list byte) : bool :=
  existsb (λ l, max <? Z.of_nat (length l)) (raw_lines data).

(** [pre] is made of complete lines. *)
Definition complete_lines (pre : list byte) : Prop :=
  pre = [] ∨ ∃ p, pre = p ++ [newline].

(** ** Sample data

    A small world used to run the definitions: three archives behind three
    addresses, and a corpus for the search. *)

Definition line (s : string) : list byte := bytes_of s ++ [newline].

Definition acme : Program := mkProgram "acme" "http://x/acme.zip" 10.
Definition ghost : Program := mkProgram "ghost" "http://x/ghost.zip" 3.
Definition broken : Program := mkProgram "broken" "http://x/broken.zip" 7.
Definition unlisted : Program := mkProgram "unlisted" "" 5.
Definition vacant : Program := mkProgram "vacant" "http://x/vacant.zip" 0.

Definition acme_members : list zfile :=
  [ mkZfile "a.txt" false (Some (line "sub1.acme.com", false));
    mkZfile "notes/" true None;
    mkZfile "README.md" false (Some (line "not a list", false));
    mkZfile "b.txt" false (Some (line "sub2.acme.com", false)) ].

Definition acme_v2_members : list zfile :=
  [ mkZfile "c.txt" false (Some (line "new.acme.com", false)) ].

Definition sample_zip (b : list byte) : option (list zfile) :=
  if bool_decide (b = bytes_of "PK-acme") then Some acme_members
  else if bool_decide (b = bytes_of "PK-acme-v2") then Some acme_v2_members
  else None.

Definition sample_http (url : string) : http_response :=
  if String.eqb url "http://x/acme.zip" then Response 200 (bytes_of "PK-acme") false
  else if String.eqb url "http://x/ghost.zip" then Response 404 [] false
  else if String.eqb url "http://x/broken.zip" then Response 200 (bytes_of "garbage") false
  else if String.eqb url "http://x/cut.zip" then Response 200 (bytes_of "PK-ac") true
  else GetFailed.

Definition sample_world : World :=
  {| http_Get := sample_http; zip_OpenReader := sample_zip |}.

(** A complete run over four selected programs with two workers: [acme] is
    fetched and extracted, [ghost] fails to download, [unlisted] is skipped
    and [broken] is fetched but cannot be extracted. *)
Definition sample_targets : list Program := [acme; ghost; unlisted; broken].

Definition sample_schedule : list action :=
  [ AFeed; AFeed; AFeed; AFeed; AFeed;
    ADlRecv 0; ADlRecv 1; ADlFetch 0 (Some 0%nat); ADlFetch 1 None;
    ADlSend 1; ADlSend 0; ADlRecv 1; ADlFetch 1 (Some 1%nat); ADlSend 1;
    ADlRecv 0; ADlRecv 1; ACloseResults;
    AMainRecv; AMainRecv; AMainSend; AMainRecv; AMainSend; AMainRecv;
    AUzRecv 0; AUzRecv 1; AUzWork 1 true; AUzWork 0 true;
    AUzRecv 0; AUzRecv 1; AMainFinish ].

(** With no worker the driver finishes at once, here before the feeder has
    moved. *)
Definition idle_schedule : list action := [ ACloseResults; AMainRecv; AMainFinish ].

(** A corpus of three files with 2, 5 and 5 lines that match "acme.com". *)
Definition two_hits : list byte :=
  line "a.acme.com" ++ line "b.ACME.com" ++ line "c.example.org".
Definition five_hits_x : list byte :=
  line "1.acme.com" ++ line "2.acme.com" ++ line "3.acme.com" ++
  line "4.acme.com" ++ line "5.acme.com".
Definition five_hits_y : list byte :=
  line "v.acme.com" ++ line "w.acme.com" ++ line "x.acme.com" ++
  line "y.acme.com" ++ line "z.acme.com" ++ line "z.example.org".

Definition sample_corpus : filesystem :=
  <["chaos/p/subdomains.txt" := two_hits]>
  (<["chaos/q/subdomains.txt" := five_hits_x]>
   (<["chaos/r/subdomains.txt" := five_hits_y]> ∅)).

Definition sample_entries : list dirent :=
  [ mkDirent "chaos" true false;
    mkDirent "chaos/p" true false;
    mkDirent "chaos/p/subdomains.txt" false false;
    mkDirent "chaos/q" true false;
    mkDirent "chaos/q/subdomains.txt" false false;
    mkDirent "chaos/r" true false;
    mkDirent "chaos/r/subdomains.txt" false false ].

(** A schedule of the search over the sample corpus with two workers. *)
Definition sample_query_schedule : list qaction :=
  [ QAFeed; QAFeed; QAFeed; QAFeed;
    QARecv 0; QARecv 1; QACount 1; QACount 0; QASend 1; QARecv 1; QASend 0;
    QACount 1; QAReduce; QASend 1; QARecv 0; QARecv 1; QAReduce; QAReduce;
    QAClose; QAReduce ].

(** A file whose second line is longer than the scan buffer may grow. *)
Definition long_line : list byte := replicate (Z.to_nat (maxTokenSize + 1)) "x"%byte.
Definition overflow_file : list byte :=
  line "www.acme.com" ++ long_line ++ [newline] ++ line "api.acme.com".

(** ** The index and the entry point: [fetchIndex], [loadIndex], [main] *)

Definition indexURL : string := "https://chaos-data.projectdiscovery.io/index.json".
Definition cacheFile : string := "index.json".

(** What is on disk besides the files of the file system: the paths that
    [os.Stat] finds although they are no files the process can open
    (directories, files it has no rights on).  Reading such a path as a
    file fails, as a path that is not there does. *)
Class Disk := {
  not_a_file : string → bool
}.

(** [os.Stat(path)] succeeds: [path] is a file or something else on
    disk. *)
Definition fileExists {K : Disk} (path : string) (f : filesystem) : bool :=
  bool_decide (is_Some (f !! path)) || not_a_file path.

(** [create_ok] is whether [os.Create(cacheFile)] succeeds (it does not
    where the name is taken by a directory).  The status code of the
    response is not looked at, and what [io.Copy] has written before it
    fails stays in the file. *)
Definition fetchIndex {W : World} (create_ok : bool) (f : filesystem)
  : filesystem * option error :=
  match http_Get indexURL with
  | GetFailed => (f, Some ErrGet)
  | Response _ body body_err =>
      if negb create_ok then (f, Some ErrCreate)
      else
        let f1 := <[cacheFile := []]> f in                (* os.Create truncates *)
        let f2 := <[cacheFile := body]> f1 in             (* io.Copy(f, resp.Body) *)
        (f2, if body_err then Some ErrBodyCopy else None)
  end.

(** The decoder of [encoding/json] for a value of type [[]Program]: [None]
    when [json.Unmarshal] returns an error. *)
Class Decoder := {
  json_Unmarshal : list byte → option (list Program)
}.

Inductive load_error :=
| ErrReadFile           (* os.ReadFile failed *)
| ErrUnmarshal.         (* json.Unmarshal failed *)

Definition loadIndex {D : Decoder} (f : filesystem) : list Program + load_error :=
  match f !! cacheFile with
  | None => inr ErrReadFile
  | Some data =>
      match json_Unmarshal data with
      | None => inr ErrUnmarshal
      | Some programs => inl programs
      end
  end.

(** The parsed command line. *)
Record flags := mkFlags {
  flag_refresh : bool;
  flag_dl : string;
  flag_q : string;
  flag_list : bool;
  flag_w : Z
}.

(** What [main] prints itself. *)
Inductive main_message :=
| MsgFetching                       (* [*] Fetching index.json... *)
| MsgFetchErr (e : error)           (* [-] Error fetching index: ... *)
| MsgCached                         (* [+] Index cached *)
| MsgLoadErr (e : load_error)       (* [-] Error loading index: ... *)
| MsgName (name : string).          (* one line of -list *)

(** How [main] ends: with [os.Exit(1)], or in one case of its switch; for
    the download and the search this is the call it makes last. *)
Inductive command :=
| Exit1
| Listed
| Download (programs : list Program) (target : string) (workers : Z)
| Query (domain : string) (workers : Z)
| Usage.

(** [main], up to the call of [parallelDownload] or [parallelQuery]. *)
Definition Main {W : World} {K : Disk} {D : Decoder} (fl : flags) (create_ok : bool)
    (f : filesystem)
  : filesystem * list main_message * command :=
  let '(f1, msgs, fetched) :=
    if flag_refresh fl || negb (fileExists cacheFile f)
    then match fetchIndex create_ok f with
         | (f1, Some e) => (f1, [MsgFetching; MsgFetchErr e], false)
         | (f1, None) => (f1, [MsgFetching; MsgCached], true)
         end
    else (f, [], true) in
  if negb fetched then (f1, msgs, Exit1)
  else match loadIndex f1 with
       | inr e => (f1, msgs ++ [MsgLoadErr e], Exit1)
       | inl programs =>
           if flag_list fl
           then (f1, msgs ++ map (λ p, MsgName (Name p)) programs, Listed)
           else if negb (String.eqb (flag_dl fl) "")
           then (f1, msgs, Download programs (flag_dl fl) (flag_w fl))
           else if negb (String.eqb (flag_q fl) "")
           then (f1, msgs, Query (flag_q fl) (flag_w fl))
           else (f1, msgs, Usage)
       end.

(** A decoder for the sample data: two documents. *)
Definition sample_json (data : list byte) : option (list Program) :=
  if bool_decide (data = bytes_of "[acme,ghost]") then Some [acme; ghost]
  else if bool_decide (data = bytes_of "[]") then Some []
  else None.

Definition sample_decoder : Decoder := {| json_Unmarshal := sample_json |}.

(** A disk that holds files only, and one on which the name of the cache
    file is taken by a directory. *)
Definition files_only : Disk := {| not_a_file := λ _, false |}.
Definition index_dir_disk : Disk := {| not_a_file := String.eqb cacheFile |}.

(** A remote side that answers the index address with an error page. *)
Definition error_page_world : World :=
  {| http_Get := λ url, if String.eqb url indexURL
                        then Response 503 (bytes_of "<html>busy</html>") false
                        else GetFailed;
     zip_OpenReader := sample_zip |}.

(** Text in ASCII: every byte is below 128.  On such text [ToLower] is
    [strings.ToLower] and [EqualFold] is [strings.EqualFold], byte for byte;
    what the library does to letters outside ASCII and to invalid UTF-8 is
    not modelled, and the statements about case are made for ASCII text. *)
Definition ascii_only (l : list byte) : bool :=
  forallb (λ b, (Byte.to_N b <? 128)%N) l.

(** The lines of [data] all fit in the scan buffer. *)
Definition short_lines (data : list byte) : bool :=
  forallb (λ l, Z.of_nat (length l) <? maxTokenSize) (raw_lines data).

(** ** Measures and invariants of the search goroutines *)



(** The capacities of the two channels of the search, and the room that is
    left in [fileJobs] for what the feeder has still to send. *)
Definition q_bound_inv (files : list string) (workers : nat) (s : qstate) : Prop :=
  cap (fileJobs s) = length files ∧
  cap (results s) = workers ∧
  (length (buf (fileJobs s)) + length (default [] (q_feeder s)) ≤ length files)%nat ∧
  (q_feeder s = None → closed (fileJobs s) = true).

(** ** The flow of jobs through the download pipeline *)

(** The consolidated file of a program. *)
Definition out_path (p : Program) : string := Join (Join chaosDir (Name p)) outName.

(** The jobs that have been enqueued and whose fetch has not been made. *)
Definition dl_fetching (w : dl_worker) : list Program :=
  match w with DlFetch p => [p] | _ => [] end.

Definition queued (s : state) : list Program :=
  buf (downloadJobs s) ++ flat_map dl_fetching (dlWorkers s).

(** The outcomes that have been built and not yet received by the driver. *)
Definition dl_sending (w : dl_worker) : list downloadResult :=
  match w with DlSend r => [r] | _ => [] end.

Definition unreceived (s : state) : list downloadResult :=
  flat_map dl_sending (dlWorkers s) ++ buf (downloadResults s).

(** The extraction jobs the driver has made and that are not yet done. *)
Definition uz_job (w : uz_worker) : list unzipJob :=
  match w with UzWork j => [j] | _ => [] end.
Definition main_job (d : driver) : list unzipJob :=
  match d with DrvSend j => [j] | _ => [] end.

Definition unzipping (s : state) : list unzipJob :=
  main_job (main s) ++ buf (unzipJobs s) ++ flat_map uz_job (uzWorkers s).

(** What the driver makes of an outcome: an extraction job, or a line on
    the standard error. *)
Definition result_job (r : downloadResult) : list unzipJob :=
  match err r with None => [mkUnzipJob (program r) (zipPath r)] | Some _ => [] end.
Definition result_failure (r : downloadResult) : list (string * error) :=
  match err r with Some e => [(Name (program r), e)] | None => [] end.

(** The archives that have been fetched and not yet extracted. *)
Definition in_flight (s : state) : list unzipJob :=
  flat_map result_job (unreceived s) ++ unzipping s.

(** The line an unzip worker prints for a job. *)
Definition unzip_report (name : string) (e : option error) : message :=
  match e with Some e => MsgUnzipErr name e | None => MsgOk name end.

(** More observations of a run: the programs an unzip worker has reported
    on, and the download errors the driver has printed. *)
Definition extracted (evs : list event) : list string :=
  omap (λ e, match e with
             | EvPrint (MsgOk n) | EvPrint (MsgUnzipErr n _) => Some n
             | _ => None
             end) evs.
Definition download_errors (evs : list event) : list (string * error) :=
  omap (λ e, match e with EvPrint (MsgDownloadErr n e) => Some (n, e) | _ => None end) evs.

(** What one move does to the jobs: it enqueues one, fetches one, reports a
    failed one, passes a fetched one on to the extraction, extracts one, or
    leaves all of them where they are. *)
Inductive flow {W : World} (s s' : state) : list event → Prop :=
| FlowEnqueue (p : Program) :
    queued s' ≡ₚ p :: queued s → unreceived s' ≡ₚ unreceived s →
    unzipping s' ≡ₚ unzipping s → fs s' = fs s →
    flow s s' [EvEnqueue p]
| FlowFetch (r : downloadResult) (tmp : option nat) :
    tmp_fresh tmp (fs s) = true →
    downloadZip (program r) tmp (fs s) = (fs s', (zipPath r, err r)) →
    queued s ≡ₚ program r :: queued s' → unreceived s' ≡ₚ r :: unreceived s →
    unzipping s' ≡ₚ unzipping s →
    flow s s' [EvOutcome r]
| FlowReport (r : downloadResult) (e : error) :
    err r = Some e →
    queued s' ≡ₚ queued s → unreceived s ≡ₚ r :: unreceived s' →
    unzipping s' ≡ₚ unzipping s → fs s' = fs s →
    flow s s' [EvPrint (MsgDownloadErr (Name (program r)) e)]
| FlowPass (r : downloadResult) :
    err r = None →
    queued s' ≡ₚ queued s → unreceived s ≡ₚ r :: unreceived s' →
    unzipping s' ≡ₚ mkUnzipJob (program r) (zipPath r) :: unzipping s → fs s' = fs s →
    flow s s' []
| FlowExtract (j : unzipJob) (create_ok : bool) :
    queued s' ≡ₚ queued s → unreceived s' ≡ₚ unreceived s →
    unzipping s ≡ₚ j :: unzipping s' →
    fs s' = delete (job_zipPath j)
              (unzip create_ok (job_zipPath j) (Join chaosDir (Name (job_program j))) (fs s)).1 →
    flow s s' [EvPrint (unzip_report (Name (job_program j))
                 (unzip create_ok (job_zipPath j) (Join chaosDir (Name (job_program j)))
                    (fs s)).2)]
| FlowSilent (ev : list event) :
    queued s' ≡ₚ queued s → unreceived s' ≡ₚ unreceived s →
    unzipping s' ≡ₚ unzipping s → fs s' = fs s →
    ev = [] ∨ (∃ a b, ev = [EvPrint (MsgComplete a b)]) →
    flow s s' ev.

(** Nothing is lost or made up between the stages: the jobs enqueued are
    those waiting for their fetch and those with an outcome; the outcomes
    without error are the archives under way and those an unzip worker has
    reported on; the outcomes with an error are those under way to the
    driver and those it has printed; and a download worker leaves only an
    empty queue. *)
Definition flow_inv (s : state) (evs : list event) : Prop :=
  enqueued evs ≡ₚ queued s ++ map program (outcomes evs) ∧
  map (λ j, Name (job_program j)) (flat_map result_job (outcomes evs)) ≡ₚ
    map (λ j, Name (job_program j)) (in_flight s) ++ extracted evs ∧
  flat_map result_failure (outcomes evs) ≡ₚ
    flat_map result_failure (unreceived s) ++ download_errors evs ∧
  (∀ i, dlWorkers s !! i = Some DlExit → buf (downloadJobs s) = []).

(** ** Archives on disk and consolidated files *)

(** The body a fetch of [p] stores on disk: the response has the status 200
    and its body arrives whole. *)
Definition fetched_body {W : World} (p : Program) : option (list byte) :=
  match http_Get (URL p) with
  | Response code body false => if code =? 200 then Some body else None
  | _ => None
  end.

(** [path] is the consolidated file of an eligible program of the selection. *)
Definition selected_out (toDownload : list Program) (path : string) : Prop :=
  ∃ p, p ∈ toDownload ∧ eligible p = true ∧ path = out_path p.

(** The archives under way are distinct temporary files that were not there
    before the run, each holds the body fetched for its program, and every
    path that is neither one of them nor the consolidated file of a selected
    program holds what it held before the run. *)
Definition store_ok {W : World} (toDownload : list Program) (fs0 : filesystem)
    (jobs : list unzipJob) (f : filesystem) : Prop :=
  NoDup (map job_zipPath jobs) ∧
  (∀ j, j ∈ jobs →
     (∃ n, job_zipPath j = tmp_path n) ∧ fs0 !! job_zipPath j = None ∧
     job_program j ∈ toDownload ∧ eligible (job_program j) = true ∧
     ∃ body, fetched_body (job_program j) = Some body ∧ f !! job_zipPath j = Some body) ∧
  (∀ path, ¬ selected_out toDownload path → path ∉ map job_zipPath jobs →
     f !! path = fs0 !! path).

Definition store_inv {W : World} (toDownload : list Program) (fs0 : filesystem)
    (s : state) : Prop :=
  store_ok toDownload fs0 (in_flight s) (fs s).

(** Once the success line of a program is printed, its consolidated file
    holds the text members of the archive fetched for it. *)
Definition output_inv {W : World} (toDownload : list Program) (s : state)
    (evs : list event) : Prop :=
  ∀ p, p ∈ toDownload → eligible p = true → MsgOk (Name p) ∈ printed evs →
    ∃ body files,
      fetched_body p = Some body ∧ zip_OpenReader body = Some files ∧
      fs s !! out_path p = Some (spec_consolidated files).

(** What one move does to the archives under way. *)
Inductive archive_step {W : World} (s s' : state) (ev : list event) : Prop :=
| ArchiveSame :
    in_flight s' ≡ₚ in_flight s → fs s' = fs s →
    (∀ n, MsgOk n ∉ printed ev) → extracted ev = [] →
    archive_step s s' ev
| ArchiveFetched (p : Program) (n : nat) (body : list byte) :
    p ∈ queued s → fs s !! tmp_path n = None → fetched_body p = Some body →
    fs s' = <[tmp_path n := body]> (fs s) →
    in_flight s' ≡ₚ mkUnzipJob p (tmp_path n) :: in_flight s →
    printed ev = [] →
    archive_step s s' ev
| ArchiveExtracted (j : unzipJob) (create_ok : bool) :
    in_flight s ≡ₚ j :: in_flight s' →
    fs s' = delete (job_zipPath j)
              (unzip create_ok (job_zipPath j) (Join chaosDir (Name (job_program j))) (fs s)).1 →
    printed ev = [unzip_report (Name (job_program j))
                    (unzip create_ok (job_zipPath j) (Join chaosDir (Name (job_program j)))
                       (fs s)).2] →
    archive_step s s' ev.

(** The consolidated file of a program that no unzip worker has reported
    on is as it was before the run. *)
Definition untouched_inv (toDownload : list Program) (fs0 : filesystem) (s : state)
    (evs : list event) : Prop :=
  ∀ p, p ∈ toDownload → eligible p = true → Name p ∉ extracted evs →
    fs s !! out_path p = fs0 !! out_path p.

(** * Verification *)

(** ** The Archive Extractor *)

Lemma filter_text_skip (f : zfile) (files : list zfile) :
  is_text_member f = false →
  List.filter is_text_member (f :: files) = List.filter is_text_member files.
Proof. intros Hf. simpl. by rewrite Hf. Qed.

Lemma skip_test_spec (f : zfile) :
  zisdir f || negb (HasSuffix (zname f) ".txt") = negb (is_text_member f).
Proof. unfold is_text_member. by destruct (zisdir f), (HasSuffix _ _). Qed.

(** A loop that ends without error has appended exactly the text members'
    streams, and each of them was opened and read to its end. *)
Lemma copy_members_ok (c : bool) (files : list zfile) (w w' : list byte) :
  copy_members c files w = (w', None) →
  w' = w ++ spec_consolidated files ∧
  Forall (λ f, ∃ data, zopen f = Some (data, false)) (List.filter is_text_member files).
Proof.
  revert w. induction files as [|f files IH]; intros w Hrun; simpl in Hrun.
  - inversion Hrun. unfold spec_consolidated. simpl. by rewrite app_nil_r.
  - rewrite skip_test_spec in Hrun.
    destruct (is_text_member f) eqn:Hf; simpl in Hrun.
    + destruct c; [done|].
      destruct (zopen f) as [[data [|]]|] eqn:Hopen; try done.
      apply IH in Hrun as [-> Hall]. split.
      * unfold spec_consolidated, member_stream. simpl. rewrite Hf. simpl.
        rewrite Hopen. by rewrite app_assoc.
      * simpl. rewrite Hf. constructor; eauto.
    + apply IH in Hrun as [-> Hall].
      unfold spec_consolidated. by rewrite (filter_text_skip f files Hf).
Qed.

(** What the loop leaves behind does not depend on anything but the
    archive. *)
Lemma unzip_reaches_create {W : World} (src dest : string) (f : filesystem) (files : list zfile) :
  f !! src ≫= zip_OpenReader = Some files →
  unzip true src dest f =
    (<[Join dest outName := (copy_members (bool_decide (src = Join dest outName)) files []).1]>
       (<[Join dest outName := []]> f),
     (copy_members (bool_decide (src = Join dest outName)) files []).2).
Proof.
  intros Hopen. unfold unzip. rewrite Hopen. simpl.
  by destruct (copy_members _ files []).
Qed.

(** C1: after every successful extraction the consolidated file holds the
    streams of the archive members that are regular files named [*.txt],
    in stored order and with nothing between them; every such member was
    read to its end, and directory entries and other members are passed
    over by the loop without an error. *)
Theorem unzip_consolidates {W : World} (create_ok : bool) (src dest : string)
    (f f' : filesystem) :
  unzip create_ok src dest f = (f', None) →
  ∃ files,
    f !! src ≫= zip_OpenReader = Some files ∧
    f' !! Join dest outName = Some (spec_consolidated files) ∧
    Forall (λ m, ∃ data, zopen m = Some (data, false)) (List.filter is_text_member files) ∧
    (∀ c m rest w, is_text_member m = false →
       copy_members c (m :: rest) w = copy_members c rest w).
Proof.
  intros Hrun. unfold unzip in Hrun.
  destruct (f !! src ≫= zip_OpenReader) as [files|] eqn:Hopen; [|done].
  exists files. split; [done|].
  destruct create_ok; simpl in Hrun; [|done].
  destruct (copy_members _ files []) as [w e] eqn:Hloop.
  inversion Hrun; subst f' e.
  apply copy_members_ok in Hloop as [-> Hall].
  split; [by rewrite lookup_insert_eq|]. split; [done|].
  intros c m rest w Hm. simpl. rewrite skip_test_spec, Hm. done.
Qed.

Lemma unzip_consolidates_witness :
  let f : filesystem := {[ tmp_path 0 := bytes_of "PK-acme" ]} in
  let f' := (unzip (W := sample_world) true (tmp_path 0) "chaos/acme" f).1 in
  unzip (W := sample_world) true (tmp_path 0) "chaos/acme" f = (f', None) ∧
  f' !! "chaos/acme/subdomains.txt" = Some (line "sub1.acme.com" ++ line "sub2.acme.com").
Proof.
  split; [vm_compute; reflexivity|].
  destruct (unzip_consolidates (W := sample_world) true (tmp_path 0) "chaos/acme"
              {[ tmp_path 0 := bytes_of "PK-acme" ]}
              (unzip (W := sample_world) true (tmp_path 0) "chaos/acme"
                 {[ tmp_path 0 := bytes_of "PK-acme" ]}).1)
    as (files & Hopen & Hout & _); [vm_compute; reflexivity|].
  vm_compute in Hopen. inversion Hopen; subst files. exact Hout.
Defined.

(** A run that fails before [os.Create] leaves the file system as it was. *)
Lemma unzip_early_failure {W : World} (create_ok : bool) (src dest : string)
    (f : filesystem) :
  f !! src ≫= zip_OpenReader = None ∨ create_ok = false →
  (unzip create_ok src dest f).1 = f.
Proof.
  intros Hcase. unfold unzip.
  destruct (f !! src ≫= zip_OpenReader) as [files|]; [|done].
  destruct Hcase as [?| ->]; done.
Qed.

(** C8, as stated, fails: when the archive of the re-run cannot be opened,
    [unzip] returns before [os.Create] and the consolidated file keeps the
    content of the earlier run, so two re-runs on the same archive end with
    different files. *)
Lemma rerun_keeps_leftover_counterexample :
  ¬ (∀ (fA fB : filesystem) (src dest : string),
       fA !! src = fB !! src →
       (unzip (W := sample_world) true src dest fA).1 !! Join dest outName =
       (unzip (W := sample_world) true src dest fB).1 !! Join dest outName).
Proof.
  intros Hclaim.
  specialize (Hclaim
    (<[tmp_path 0 := bytes_of "garbage"]> {[ "chaos/acme/subdomains.txt" := line "old.acme.com" ]})
    (<[tmp_path 0 := bytes_of "garbage"]> {[ "chaos/acme/subdomains.txt" := line "older.acme.com" ]})
    (tmp_path 0) "chaos/acme").
  vm_compute in Hclaim. specialize (Hclaim eq_refl). discriminate Hclaim.
Qed.

(** C8, amended: once the archive of the re-run has been opened and
    [os.Create] has succeeded, the consolidated file is truncated and
    rewritten, and its content and the error returned are determined by the
    archive alone: two file systems that hold the same archive at [src] end
    with the same consolidated file, whatever an earlier run left there. *)
Theorem unzip_rerun_overwrites {W : World} (src dest : string) (fA fB : filesystem)
    (files : list zfile) :
  fA !! src ≫= zip_OpenReader = Some files →
  fB !! src = fA !! src →
  (unzip true src dest fA).1 !! Join dest outName =
    (unzip true src dest fB).1 !! Join dest outName ∧
  (unzip true src dest fA).2 = (unzip true src dest fB).2 ∧
  (unzip true src dest fA).1 !! Join dest outName =
    Some (copy_members (bool_decide (src = Join dest outName)) files []).1.
Proof.
  intros HA HB.
  assert (fB !! src ≫= zip_OpenReader = Some files) as HB' by by rewrite HB.
  rewrite (unzip_reaches_create src dest fA files HA).
  rewrite (unzip_reaches_create src dest fB files HB'). simpl.
  by rewrite !lookup_insert_eq.
Qed.

Lemma unzip_rerun_overwrites_witness :
  let fA : filesystem :=
    <[tmp_path 0 := bytes_of "PK-acme-v2"]>
      {[ "chaos/acme/subdomains.txt" := line "sub1.acme.com" ++ line "sub2.acme.com" ]} in
  let fB : filesystem := {[ tmp_path 0 := bytes_of "PK-acme-v2" ]} in
  (unzip (W := sample_world) true (tmp_path 0) "chaos/acme" fA).1 !! "chaos/acme/subdomains.txt" =
    Some (line "new.acme.com") ∧
  (unzip (W := sample_world) true (tmp_path 0) "chaos/acme" fB).1 !! "chaos/acme/subdomains.txt" =
    Some (line "new.acme.com").
Proof.
  intros fA fB.
  assert (fA !! tmp_path 0 ≫= zip_OpenReader (World := sample_world) = Some acme_v2_members)
    as HA by (vm_compute; reflexivity).
  assert (fB !! tmp_path 0 = fA !! tmp_path 0) as HB by (vm_compute; reflexivity).
  destruct (unzip_rerun_overwrites (W := sample_world) (tmp_path 0) "chaos/acme" fA fB
              acme_v2_members HA HB) as (Hsame & _ & Hcontent).
  split.
  - etrans; [exact Hcontent|]. vm_compute; reflexivity.
  - etrans; [symmetry; exact Hsame|]. etrans; [exact Hcontent|]. vm_compute; reflexivity.
Defined.

(** ** The Download-Extract Pipeline *)

(** *** Channels and worker tables *)

Lemma send_Some {A} (x : A) (c c' : chan A) :
  send x c = Some c' →
  c' = mkChan (cap c) (buf c ++ [x]) (closed c) ∧
  (length (buf c) < cap c)%nat ∧ closed c = false.
Proof.
  unfold send. case_bool_decide; simpl; [|done].
  destruct (closed c); simpl; [done|]. by intros [= <-].
Qed.

Lemma send_enabled {A} (x : A) (c : chan A) :
  (length (buf c) < cap c)%nat → closed c = false → is_Some (send x c).
Proof.
  intros Hlen Hopen. unfold send. rewrite bool_decide_true by done.
  rewrite Hopen. simpl. eauto.
Qed.

Lemma recv_Some {A} (x : A) (c c' : chan A) :
  recv c = Some (x, c') →
  buf c = x :: buf c' ∧ cap c' = cap c ∧ closed c' = closed c.
Proof. unfold recv. destruct (buf c); [done|]. by intros [= <- <-]. Qed.

Lemma recv_None {A} (c : chan A) : recv c = None → buf c = [].
Proof. unfold recv. by destruct (buf c). Qed.

(** What a successful send or receive says about the channel. *)
Ltac use_chan :=
  repeat match goal with
  | H : send _ _ = Some _ |- _ => apply send_Some in H as (-> & ? & ?)
  | H : recv _ = Some (_, _) |- _ => apply recv_Some in H as (? & ? & ?)
  | H : recv _ = None |- _ => apply recv_None in H
  end.

Lemma sum_list_with_insert {A} (f : A → nat) (ws : list A) (i : nat) (w w' : A) :
  ws !! i = Some w →
  (sum_list_with f (<[i := w']> ws) + f w = sum_list_with f ws + f w')%nat.
Proof.
  revert i. induction ws as [|v ws IH]; intros [|i] Hi; simplify_eq/=; [lia|].
  specialize (IH i Hi). lia.
Qed.

Lemma forallb_lookup {A} (f : A → bool) (ws : list A) (i : nat) (w : A) :
  forallb f ws = true → ws !! i = Some w → f w = true.
Proof.
  rewrite forallb_forall. intros Hall Hi. apply Hall.
  apply list_elem_of_In. by eapply list_elem_of_lookup_2.
Qed.

(** *** Runs *)

Lemma step_dispatch {W : World} (s : state) (a : action) (x : state * list event) :
  step s a = Some x → main s ≠ DrvDone ∧ dispatch s a = Some x.
Proof. unfold step. by destruct (main s). Qed.

Lemma run_invariant {W : World} (P : state → list event → Prop) :
  (∀ s evs a s' ev, P s evs → step s a = Some (s', ev) → P s' (evs ++ ev)) →
  ∀ sched s evs s' evs',
    P s evs → run s sched = Some (s', evs') → P s' (evs ++ evs').
Proof.
  intros Hstep sched. induction sched as [|a sched IH]; intros s evs s' evs' HP Hrun.
  - simpl in Hrun. inversion Hrun; subst. by rewrite app_nil_r.
  - simpl in Hrun.
    destruct (step s a) as [[s1 ev]|] eqn:Hs; simpl in Hrun; [|done].
    destruct (run s1 sched) as [[s2 evs2]|] eqn:Hr; simpl in Hrun; [|done].
    inversion Hrun; subst. rewrite app_assoc. eapply IH; [|exact Hr].
    by eapply Hstep.
Qed.

Lemma outcomes_app (e1 e2 : list event) : outcomes (e1 ++ e2) = outcomes e1 ++ outcomes e2.
Proof. apply omap_app. Qed.

Lemma enqueued_app (e1 e2 : list event) : enqueued (e1 ++ e2) = enqueued e1 ++ enqueued e2.
Proof. apply omap_app. Qed.

Lemma count_ok_sum (l : list downloadResult) : count_ok l = Z.of_nat (sum_list_with ok_n l).
Proof.
  unfold count_ok. f_equal. induction l as [|r l IH]; [done|].
  simpl. unfold ok_n at 1. destruct (fetch_ok r); simpl; lia.
Qed.

Lemma count_failed_sum (l : list downloadResult) :
  count_failed l = Z.of_nat (sum_list_with failed_n l).
Proof.
  unfold count_failed. f_equal. induction l as [|r l IH]; [done|].
  simpl. unfold failed_n at 1. destruct (fetch_ok r); simpl; lia.
Qed.

(** *** The tally *)

Lemma tally_inv_step {W : World} (s s' : state) (evs ev : list event) (a : action) :
  tally_inv s evs → step s a = Some (s', ev) → tally_inv s' (evs ++ ev).
Proof.
  intros [Hok Hfail] [_ Hstep]%step_dispatch.
  unfold tally_inv, pending in *. rewrite outcomes_app.
  invert_dispatch Hstep; simpl; rewrite ?app_nil_r; use_chan;
    try match goal with
        | H : dlWorkers ?s !! ?i = Some ?w |- context [<[?i := ?w']> (dlWorkers ?s)] =>
            pose proof (sum_list_with_insert (dl_held ok_n) _ i w w' H);
            pose proof (sum_list_with_insert (dl_held failed_n) _ i w w' H)
        end;
    simpl in *; rewrite ?sum_list_with_app; simpl;
    try match goal with
        | H : buf (downloadResults _) = _ |- _ =>
            rewrite H in Hok, Hfail; rewrite ?H; simpl in Hok, Hfail
        end;
    unfold ok_n, failed_n, fetch_ok in *; simpl in *;
    repeat case_match; simplify_eq; lia.
Qed.

(** *** The order of closings and exits *)

Ltac order_finish :=
  intros;
  repeat match goal with
  | H : _ ∧ _ |- _ => destruct H
  | H : _ && _ = true |- _ => apply andb_prop in H as [? ?]
  | H : <[_ := _]> _ !! _ = Some _ |- _ =>
      apply list_lookup_insert_Some in H as [(-> & ? & ?)|[? ?]]
  | H : ?P → _, H' : ?P |- _ => specialize (H H')
  | H : ?A ∨ ?B → _, H' : ?A |- _ => specialize (H (or_introl H'))
  | H : ?A ∨ ?B → _, H' : ?B |- _ => specialize (H (or_intror H'))
  | H : ∀ i, uzWorkers ?s !! i = Some UzExit → _, H' : uzWorkers ?s !! _ = Some UzExit |- _ =>
      specialize (H _ H')
  | H : ∀ i, dlWorkers ?s !! i = Some DlExit → _, H' : dlWorkers ?s !! _ = Some DlExit |- _ =>
      specialize (H _ H')
  | H : _ ∨ _ |- _ => destruct H
  end;
  simplify_eq; try done; try congruence; eauto.

Lemma order_inv_step {W : World} (workers : nat) (s s' : state) (ev : list event) (a : action) :
  order_inv workers s → step s a = Some (s', ev) → order_inv workers s'.
Proof.
  intros (Hres & Hwait & Huj & Hjobs & Hdlexit & Hexit & Hdone & Hdl & Huz & Hzero &
          Hfed & Hwc) [Hnd Hstep]%step_dispatch.
  assert (∀ i w, dlWorkers s !! i = Some w → w ≠ DlExit →
            closed (downloadResults s) = false ∧ workers ≠ 0%nat) as Fdl.
  { intros i w Hi Hw. split.
    - destruct (closed (downloadResults s)) eqn:Hc; [|done].
      pose proof (forallb_lookup _ _ _ _ (Hres eq_refl) Hi). by destruct w.
    - apply lookup_lt_Some in Hi. lia. }
  assert (∀ i w, uzWorkers s !! i = Some w → workers ≠ 0%nat) as Fuz.
  { intros i w Hi. apply lookup_lt_Some in Hi. lia. }
  unfold order_inv.
  invert_dispatch Hstep; use_chan; simpl; rewrite ?length_insert;
    repeat match goal with
    | H : dlWorkers s !! _ = Some _ |- _ => apply Fdl in H as [? ?]; [|done]
    | H : uzWorkers s !! _ = Some _ |- _ => apply Fuz in H
    | H : closed ?c' = closed ?c |- _ => rewrite H in *; clear H
    | H : cap ?c' = cap ?c |- _ => clear H
    end;
    clear Fdl Fuz;
    repeat match goal with |- _ ∧ _ => split end; try done.
  all: order_finish.
Qed.

(** *** The feeder *)

Lemma feed_inv_step {W : World} (toDownload : list Program) (s s' : state)
    (evs ev : list event) (a : action) :
  feed_inv toDownload s evs → step s a = Some (s', ev) → feed_inv toDownload s' (evs ++ ev).
Proof.
  intros Hinv [_ Hstep]%step_dispatch.
  unfold feed_inv, enqueued in *. rewrite omap_app.
  invert_dispatch Hstep; simpl; rewrite ?app_nil_r; try done.
  - by rewrite app_nil_r in Hinv.
  - rewrite <- app_assoc. simpl in *.
    match goal with H : eligible _ = true |- _ => rewrite H in Hinv end. done.
  - simpl in Hinv.
    match goal with H : eligible _ = false |- _ => rewrite H in Hinv end. done.
Qed.

(** *** Capacities and the load ahead of the results channel *)

Lemma bound_inv_step {W : World} (toDownload : list Program) (workers : nat)
    (s s' : state) (ev : list event) (a : action) :
  bound_inv toDownload workers s → step s a = Some (s', ev) →
  bound_inv toDownload workers s'.
Proof.
  intros (Hjobs & Hres & Huj & Hlen & Hup) [_ Hstep]%step_dispatch.
  unfold bound_inv, upstream, feeder_left in *.
  invert_dispatch Hstep; use_chan; simpl;
    try match goal with
        | H : dlWorkers ?s !! ?i = Some ?w |- context [<[?i := ?w']> (dlWorkers ?s)] =>
            pose proof (sum_list_with_insert dl_load _ i w w' H)
        end;
    repeat match goal with
           | H : feeder s = _ |- _ => rewrite H in Hup
           | H : buf _ = _ :: _ |- _ =>
               try rewrite H in Hup; try rewrite H in Hlen; clear H
           | H : cap _ = cap _ |- _ => rewrite H in *; clear H
           end;
    simpl in *; rewrite ?length_app; simpl;
    repeat split; try congruence; try lia.
Qed.

(** *** Temporary archives *)

Lemma last_char_app (a b : string) : b ≠ "" → last_char (a +:+ b) = last_char b.
Proof.
  intros Hb. induction a as [|c a IH]; [done|].
  simpl. rewrite IH. destruct (a +:+ b) eqn:Hab; [|done].
  destruct a; simpl in Hab; [done|discriminate].
Qed.

Lemma append_nonempty (a b : string) : b ≠ "" → a +:+ b ≠ "".
Proof. intros Hb. destruct a; [done|]. simpl. discriminate. Qed.

Lemma last_char_tmp_path (n : nat) : last_char (tmp_path n) = last_char ".zip".
Proof.
  unfold tmp_path.
  rewrite last_char_app by (by apply append_nonempty).
  by rewrite last_char_app.
Qed.

Lemma split_slash_nonempty (s : string) : split_slash s ≠ [].
Proof.
  destruct s as [|c s]; simpl; [done|].
  destruct (Ascii.eqb c "/"%char); [done|]. by destruct (split_slash s).
Qed.

Lemma split_slash_app (a b : string) :
  split_slash (a +:+ "/" +:+ b) = split_slash a ++ split_slash b.
Proof.
  induction a as [|c a IH]; [done|].
  change (String c a +:+ "/" +:+ b) with (String c (a +:+ "/" +:+ b)).
  simpl. rewrite IH. destruct (Ascii.eqb c "/"%char); [done|].
  pose proof (split_slash_nonempty a). by destruct (split_slash a).
Qed.

Lemma is_rooted_app (a b : string) : a ≠ "" → is_rooted (a +:+ b) = is_rooted a.
Proof. by destruct a. Qed.

Lemma append_assoc (a b c : string) : a +:+ (b +:+ c) = (a +:+ b) +:+ c.
Proof.
  induction a as [|x a IH]; [done|].
  change (String x (a +:+ (b +:+ c)) = String x ((a +:+ b) +:+ c)). by f_equal.
Qed.

Lemma concat_snoc (sep : string) (l : list string) (x : string) :
  ∃ pre, String.concat sep (l ++ [x]) = pre +:+ x.
Proof.
  induction l as [|y l [pre IH]]; [by exists ""|].
  change ((y :: l) ++ [x]) with (y :: (l ++ [x])).
  destruct (l ++ [x]) as [|z l'] eqn:Hl; [by destruct l|].
  exists (y +:+ sep +:+ pre).
  change (String.concat sep (y :: z :: l')) with (y +:+ sep +:+ String.concat sep (z :: l')).
  by rewrite IH, !append_assoc.
Qed.

(** The consolidated file keeps its name under [Join]: cleaning the path
    leaves the last element, which is neither empty nor a dot element. *)
Lemma Join_outName (dest : string) : ∃ pre, Join dest outName = pre +:+ outName.
Proof.
  destruct dest as [|c dest]; [by exists ""|].
  change (Join (String c dest) outName)
    with (Clean (String c dest +:+ "/" +:+ "subdomains.txt")).
  unfold Clean, outName.
  rewrite (is_rooted_app (String c dest)) by done.
  rewrite split_slash_app, fold_left_app.
  generalize (is_rooted (String c dest)) as r. intros r.
  generalize (fold_left (clean_elem r) (split_slash (String c dest)) []) as kept.
  intros kept.
  change (fold_left (clean_elem r) (split_slash "subdomains.txt") kept)
    with ("subdomains.txt" :: kept).
  change (rev ("subdomains.txt" :: kept)) with (rev kept ++ ["subdomains.txt"]).
  destruct (concat_snoc "/" (rev kept) "subdomains.txt") as [pre Hpre].
  destruct r.
  - exists ("/" +:+ pre). by rewrite Hpre, append_assoc.
  - destruct (rev kept ++ ["subdomains.txt"]) eqn:Hl; [by destruct (rev kept)|].
    by exists pre.
Qed.

Lemma last_char_out_path (dest : string) : last_char (Join dest outName) = last_char outName.
Proof.
  destruct (Join_outName dest) as [pre ->]. by apply last_char_app.
Qed.

(** The consolidated file is never a temporary archive. *)
Lemma out_path_not_tmp (dest : string) (n : nat) : Join dest outName ≠ tmp_path n.
Proof.
  intros Heq. pose proof (last_char_out_path dest) as Hout.
  rewrite Heq, last_char_tmp_path in Hout. discriminate Hout.
Qed.

Lemma downloadZip_fs {W : World} (p : Program) (tmp : option nat) (f f' : filesystem)
    (zp : string) (e : option error) :
  downloadZip p tmp f = (f', (zp, e)) →
  ∀ path, is_Some (f' !! path) → is_Some (f !! path) ∨ (e = None ∧ path = zp).
Proof.
  unfold downloadZip. intros Hrun path Hsome.
  destruct (http_Get (URL p)) as [|code body berr]; [by simplify_eq; left|].
  destruct (negb (code =? 200)); [by simplify_eq; left|].
  destruct tmp as [n|]; [|by simplify_eq; left].
  destruct berr; simplify_eq.
  - left. destruct (decide (path = tmp_path n)) as [->|Hne].
    + rewrite lookup_delete_eq in Hsome. by destruct Hsome.
    + by rewrite lookup_delete_ne, !lookup_insert_ne in Hsome.
  - destruct (decide (path = tmp_path n)) as [->|Hne]; [by right|].
    left. by rewrite !lookup_insert_ne in Hsome.
Qed.

Lemma unzip_fs {W : World} (create_ok : bool) (src dest : string) (f f' : filesystem)
    (e : option error) :
  unzip create_ok src dest f = (f', e) →
  ∀ path, is_Some (f' !! path) → is_Some (f !! path) ∨ path = Join dest outName.
Proof.
  unfold unzip. intros Hrun path Hsome.
  destruct (f !! src ≫= zip_OpenReader) as [files|]; [|by simplify_eq; left].
  destruct create_ok; simpl in Hrun; [|by simplify_eq; left].
  destruct (copy_members _ files []) as [w e']. simplify_eq.
  destruct (decide (path = Join dest outName)) as [->|Hne]; [by right|].
  left. by rewrite !lookup_insert_ne in Hsome.
Qed.

Lemma elem_of_flat_map_lookup {A B} (f : A → list B) (ws : list A) (i : nat) (w : A) (x : B) :
  ws !! i = Some w →
  x ∈ flat_map f ws ↔ x ∈ f w ∨ x ∈ flat_map f (delete i ws).
Proof.
  revert i. induction ws as [|v ws IH]; intros [|i] Hi; simplify_eq/=;
    rewrite ?elem_of_app; [done|].
  rewrite (IH i Hi). tauto.
Qed.

Lemma elem_of_flat_map_insert {A B} (f : A → list B) (ws : list A) (i : nat) (w w' : A) (x : B) :
  ws !! i = Some w →
  x ∈ flat_map f (<[i := w']> ws) ↔ x ∈ f w' ∨ x ∈ flat_map f (delete i ws).
Proof.
  revert i. induction ws as [|v ws IH]; intros [|i] Hi; simplify_eq/=;
    rewrite ?elem_of_app; [done|].
  rewrite (IH i Hi). tauto.
Qed.

Ltac elem_norm :=
  repeat first [rewrite elem_of_app | rewrite elem_of_cons | rewrite elem_of_nil].

Ltac live_norm Hl :=
  revert Hl;
  repeat match goal with
         | H : buf _ = _ :: _ |- _ => rewrite H; clear H
         end;
  rewrite ?flat_map_app, ?map_app; simpl;
  elem_norm;
  try match goal with
      | Hi : dlWorkers ?s !! ?i = Some ?w |- _ =>
          rewrite ?(elem_of_flat_map_lookup dl_live _ i w _ Hi);
          rewrite ?(elem_of_flat_map_insert dl_live _ i w _ _ Hi)
      end;
  try match goal with
      | Hi : uzWorkers ?s !! ?i = Some ?w |- _ =>
          rewrite ?(elem_of_flat_map_lookup uz_live _ i w _ Hi);
          rewrite ?(elem_of_flat_map_insert uz_live _ i w _ _ Hi)
      end;
  simpl; unfold result_live, fetch_ok; simpl;
  repeat match goal with
         | H : err _ = _ |- _ => rewrite H
         end;
  elem_norm;
  intros Hl.

Lemma temp_inv_step {W : World} (fs0 : filesystem) (s s' : state) (ev : list event) (a : action) :
  temp_inv fs0 s → step s a = Some (s', ev) → temp_inv fs0 s'.
Proof.
  intros Hinv [_ Hstep]%step_dispatch n Hsome.
  specialize (Hinv n). unfold live in *.
  invert_dispatch Hstep; use_chan; simpl in *.
  all: try (specialize (Hinv Hsome); live_norm Hinv; tauto).
  - (* downloadZip *)
    match goal with
    | H : downloadZip _ _ _ = _ |- _ =>
        apply (downloadZip_fs _ _ _ _ _ _ H) in Hsome as [Hsome|[-> Heq]]
    end.
    + specialize (Hinv Hsome). live_norm Hinv. tauto.
    + clear Hinv. rewrite Heq. rewrite !elem_of_app.
      match goal with
      | Hi : dlWorkers ?s !! ?i = Some ?w |- _ =>
          rewrite (elem_of_flat_map_insert dl_live _ i w _ _ Hi)
      end.
      right. left. left. apply list_elem_of_here.
  - (* unzip and os.Remove *)
    match goal with
    | H : unzip _ ?zp _ _ = _ |- _ =>
        destruct (decide (zp = tmp_path n)) as [Hzp|Hzp];
        [rewrite Hzp, lookup_delete_eq in Hsome; by destruct Hsome|];
        rewrite lookup_delete_ne in Hsome by done;
        apply (unzip_fs _ _ _ _ _ _ H) in Hsome as [Hsome|Hout];
        [|symmetry in Hout; by apply out_path_not_tmp in Hout]
    end.
    specialize (Hinv Hsome). live_norm Hinv.
    assert (tmp_path n ≠ job_zipPath j) by congruence. tauto.
  - (* the same, when the extraction succeeds *)
    match goal with
    | H : unzip _ ?zp _ _ = _ |- _ =>
        destruct (decide (zp = tmp_path n)) as [Hzp|Hzp];
        [rewrite Hzp, lookup_delete_eq in Hsome; by destruct Hsome|];
        rewrite lookup_delete_ne in Hsome by done;
        apply (unzip_fs _ _ _ _ _ _ H) in Hsome as [Hsome|Hout];
        [|symmetry in Hout; by apply out_path_not_tmp in Hout]
    end.
    specialize (Hinv Hsome). live_norm Hinv.
    assert (tmp_path n ≠ job_zipPath j) by congruence. tauto.
Qed.

(** *** The final line *)

Lemma done_inv_step {W : World} (s s' : state) (evs ev : list event) (a : action) :
  done_inv s evs → step s a = Some (s', ev) → done_inv s' (evs ++ ev).
Proof.
  intros Hinv [Hnd Hstep]%step_dispatch. unfold done_inv.
  invert_dispatch Hstep; simpl; intros Hdone; try congruence.
  unfold printed. rewrite omap_app. simpl. by rewrite last_snoc.
Qed.

(** *** Every run keeps the invariants *)

Lemma sum_list_with_replicate {A} (f : A → nat) (n : nat) (x : A) :
  f x = 0%nat → sum_list_with f (replicate n x) = 0%nat.
Proof. intros Hx. induction n as [|n IH]; simpl; [done|]. rewrite Hx, IH. done. Qed.

Lemma flat_map_replicate_nil {A B} (f : A → list B) (n : nat) (x : A) :
  f x = [] → flat_map f (replicate n x) = [].
Proof. intros Hx. induction n as [|n IH]; simpl; [done|]. by rewrite Hx, IH. Qed.

Lemma pipeline_inv_init (toDownload : list Program) (workers : nat) (fs0 : filesystem) :
  pipeline_inv toDownload workers fs0 (init_state toDownload workers fs0) [].
Proof.
  split; [|split; [|split; [|split; [|split]]]].
  - unfold tally_inv, pending. simpl. by rewrite !sum_list_with_replicate.
  - unfold order_inv. simpl. rewrite !length_replicate.
    split; [done|]. split; [by intros [?|?]|]. split; [done|]. split; [done|].
    split; [by intros i [? _]%lookup_replicate|].
    split; [by intros i [? _]%lookup_replicate|]. done.
  - intros n Hn. by left.
  - done.
  - unfold bound_inv, upstream, feeder_left. simpl.
    rewrite sum_list_with_replicate by done. repeat split; lia.
  - done.
Qed.

Lemma pipeline_inv_step {W : World} (toDownload : list Program) (workers : nat)
    (fs0 : filesystem) (s s' : state) (evs ev : list event) (a : action) :
  pipeline_inv toDownload workers fs0 s evs → step s a = Some (s', ev) →
  pipeline_inv toDownload workers fs0 s' (evs ++ ev).
Proof.
  intros (Ht & Ho & Htmp & Hf & Hb & Hd) Hstep.
  split; [by eapply tally_inv_step|].
  split; [by eapply order_inv_step|].
  split; [by eapply temp_inv_step|].
  split; [by eapply feed_inv_step|].
  split; [by eapply bound_inv_step|].
  by eapply done_inv_step.
Qed.

Lemma pipeline_inv_run {W : World} (toDownload : list Program) (workers : nat)
    (fs0 : filesystem) (sched : list action) (s : state) (evs : list event) :
  run (init_state toDownload workers fs0) sched = Some (s, evs) →
  pipeline_inv toDownload workers fs0 s evs.
Proof.
  intros Hrun.
  apply (run_invariant (pipeline_inv toDownload workers fs0)
           (λ s0 evs0 a s' ev, pipeline_inv_step toDownload workers fs0 s0 s' evs0 ev a)
           sched _ [] s evs (pipeline_inv_init toDownload workers fs0) Hrun).
Qed.

(** *** When the driver has returned *)

Lemma all_exited_dl (f : downloadResult → nat) (ws : list dl_worker) :
  forallb dl_exited ws = true →
  sum_list_with (dl_held f) ws = 0%nat ∧ flat_map dl_live ws = [].
Proof.
  induction ws as [|w ws IH]; [done|]. simpl.
  intros [Hw Hws]%andb_prop. destruct w; try done. simpl. by apply IH.
Qed.

Lemma all_exited_uz (ws : list uz_worker) :
  forallb uz_exited ws = true → flat_map uz_live ws = [].
Proof.
  induction ws as [|w ws IH]; [done|]. simpl.
  intros [Hw Hws]%andb_prop. destruct w; try done. simpl. by apply IH.
Qed.

Lemma finished_drained (workers : nat) (s : state) (f : downloadResult → nat) :
  order_inv workers s → finished s →
  pending f s = 0%nat ∧ live s = [].
Proof.
  intros (Hres & Hwait & Huj & Hjobs & Hdlexit & Hexit & Hdone & Hdl & Huz & Hzero & _) Hfin.
  unfold finished in Hfin.
  destruct (Hwait (or_intror Hfin)) as [Hclosed Hbuf].
  destruct (all_exited_dl f _ (Hres Hclosed)) as [Hheld Hdlive].
  pose proof (all_exited_uz _ (Hdone Hfin)) as Huzlive.
  assert (buf (unzipJobs s) = []) as Hjobsbuf.
  { destruct workers as [|n]; [by apply Hzero|].
    destruct (uzWorkers s) as [|w ws] eqn:Hws; [done|].
    specialize (Hdone Hfin). simpl in Hdone. apply andb_prop in Hdone as [Hw _].
    destruct w; try done. by apply (Hexit 0%nat). }
  unfold pending, live. rewrite Hheld, Hdlive, Hbuf, Hfin, Hjobsbuf, Huzlive. done.
Qed.

Lemma sum_list_with_lookup_le {A} (f : A → nat) (ws : list A) (i : nat) (w : A) :
  ws !! i = Some w → (f w ≤ sum_list_with f ws)%nat.
Proof.
  revert i. induction ws as [|v ws IH]; intros [|i] Hi; simplify_eq/=; [lia|].
  specialize (IH i Hi). lia.
Qed.

Lemma step_uz_work_effect {W : World} (s1 s2 : state) (i : nat) (create_ok : bool)
    (ev : list event) (j : unzipJob) :
  uzWorkers s1 !! i = Some (UzWork j) →
  step s1 (AUzWork i create_ok) = Some (s2, ev) →
  s2 = with_uzWorker i UzRange
         (with_fs (delete (job_zipPath j)
                     (unzip create_ok (job_zipPath j)
                        (Join chaosDir (Name (job_program j))) (fs s1)).1) s1) ∧
  ev = [EvPrint
          match (unzip create_ok (job_zipPath j)
                   (Join chaosDir (Name (job_program j))) (fs s1)).2 with
          | Some e => MsgUnzipErr (Name (job_program j)) e
          | None => MsgOk (Name (job_program j))
          end].
Proof.
  intros Hi [_ Hstep]%step_dispatch. simpl in Hstep.
  unfold step_uz_work in Hstep. rewrite Hi in Hstep.
  destruct (unzip create_ok _ _ (fs s1)) as [f e]. simpl.
  by inversion Hstep.
Qed.

(** A run of [parallelDownload] with a worker count that is not negative
    and whose double fits an [int] is a run of the goroutines from their
    initial state, over the selection. *)
Lemma parallelDownload_ran {W : World} (programs : list Program) (target : string)
    (workers : Z) (f : filesystem) (sched : list action) (s : state) (evs : list event) :
  0 ≤ workers < 2 ^ 62 →
  parallelDownload programs target workers f sched = DownloadRan s evs →
  ∃ toDownload evs',
    select_targets programs target = Some toDownload ∧
    evs = EvPrint (MsgDownloading (length toDownload) workers) :: evs' ∧
    run (init_state toDownload (Z.to_nat workers) f) sched = Some (s, evs').
Proof.
  unfold parallelDownload. intros Hw Hran.
  destruct (select_targets programs target) as [toDownload|]; [|done].
  assert (int_wrap (workers * 2) = workers * 2) as Hwrap.
  { unfold int_wrap. rewrite Z.mod_small; lia. }
  rewrite Hwrap in Hran. simpl in Hran.
  destruct (Z.ltb_spec (workers * 2) 0) as [?|_]; [lia|].
  replace (Z.to_nat (workers * 2)) with (Z.to_nat workers * 2)%nat in Hran by lia.
  change (with_unzipJobs (make (Z.to_nat workers * 2))
            (init_state toDownload (Z.to_nat workers) f))
    with (init_state toDownload (Z.to_nat workers) f) in Hran.
  destruct (run _ sched) as [[s' evs']|] eqn:Hrun; [|done].
  inversion Hran; subst. by exists toDownload, evs'.
Qed.

(** A negative worker count whose double fits an [int] makes
    [parallelDownload] panic where it makes the extraction-job channel. *)
Lemma parallelDownload_panics {W : World} (programs : list Program) (target : string)
    (workers : Z) (f : filesystem) (sched : list action) :
  - 2 ^ 62 ≤ workers < 0 →
  is_Some (select_targets programs target) →
  parallelDownload programs target workers f sched = DownloadPanic.
Proof.
  unfold parallelDownload. intros Hw [toDownload ->].
  assert (int_wrap (workers * 2) = workers * 2) as Hwrap.
  { unfold int_wrap. rewrite Z.mod_small; lia. }
  rewrite Hwrap. simpl. destruct (Z.ltb_spec (workers * 2) 0) as [_|?]; [done|lia].
Qed.

(** No goroutine is ever at a send on a channel that has been closed. *)
Lemma no_send_on_closed {W : World} (toDownload : list Program) (workers : nat)
    (fs0 : filesystem) (sched : list action) (s : state) (evs : list event) :
  run (init_state toDownload workers fs0) sched = Some (s, evs) →
  (∀ p rest, feeder s = Some (p :: rest) → closed (downloadJobs s) = false) ∧
  (∀ i r, dlWorkers s !! i = Some (DlSend r) → closed (downloadResults s) = false) ∧
  (∀ j, main s = DrvSend j → closed (unzipJobs s) = false).
Proof.
  intros Hrun.
  destruct (pipeline_inv_run _ _ _ _ _ _ Hrun) as (_ & Hord & _).
  destruct Hord as (Hres & _ & Huj & Hjobs & _).
  split; [|split].
  - intros p rest Hfeeder.
    destruct (closed (downloadJobs s)) eqn:Hc; [|done].
    specialize (Hjobs eq_refl). congruence.
  - intros i r Hi.
    destruct (closed (downloadResults s)) eqn:Hc; [|done].
    by pose proof (forallb_lookup _ _ _ _ (Hres eq_refl) Hi).
  - intros j Hmain.
    destruct (closed (unzipJobs s)) eqn:Hc; [|done].
    destruct (Huj eq_refl); congruence.
Qed.

(** *** The claims about the pipeline *)

(** C3: when the pipeline has returned, the success counter is the number
    of FetchOutcomes without error and the failure counter the number of
    those with an error, and these are the numbers of the final line; a
    move of an unzip worker, whether its extraction succeeds or fails,
    prints its report and leaves both counters as they are. *)
Theorem tally_counts_fetch_outcomes {W : World} (toDownload : list Program)
    (workers : nat) (fs0 : filesystem) (sched : list action) (s : state)
    (evs : list event) :
  run (init_state toDownload workers fs0) sched = Some (s, evs) →
  finished s →
  successCount s = count_ok (outcomes evs) ∧
  failCount s = count_failed (outcomes evs) ∧
  last (printed evs) =
    Some (MsgComplete (count_ok (outcomes evs)) (count_failed (outcomes evs))) ∧
  (∀ s1 s2 i create_ok ev j,
     uzWorkers s1 !! i = Some (UzWork j) →
     step s1 (AUzWork i create_ok) = Some (s2, ev) →
     successCount s2 = successCount s1 ∧ failCount s2 = failCount s1 ∧
     outcomes ev = [] ∧
     ev = [EvPrint
             match (unzip create_ok (job_zipPath j)
                      (Join chaosDir (Name (job_program j))) (fs s1)).2 with
             | Some e => MsgUnzipErr (Name (job_program j)) e
             | None => MsgOk (Name (job_program j))
             end]).
Proof.
  intros Hrun Hfin.
  destruct (pipeline_inv_run _ _ _ _ _ _ Hrun) as ([Hok Hfail] & Hord & _ & _ & _ & Hdone).
  destruct (finished_drained workers s ok_n Hord Hfin) as [Hpok _].
  destruct (finished_drained workers s failed_n Hord Hfin) as [Hpfail _].
  rewrite Hpok in Hok. rewrite Hpfail in Hfail.
  assert (successCount s = count_ok (outcomes evs)) as Hs by (rewrite count_ok_sum; lia).
  assert (failCount s = count_failed (outcomes evs)) as Hf by (rewrite count_failed_sum; lia).
  split; [done|]. split; [done|]. split.
  - rewrite <- Hs, <- Hf. by apply Hdone.
  - intros s1 s2 i create_ok ev j Hi Hstep.
    destruct (step_uz_work_effect _ _ _ _ _ _ Hi Hstep) as [-> ->]. done.
Qed.

(** C4: when the pipeline has returned, every temporary archive on disk
    was there before the run; [downloadZip] removes the file it created
    when the copy of the body fails, and leaves no new file whenever it
    returns an error; and the move of an unzip worker removes the archive of
    its job whether the extraction succeeds or fails. *)
Theorem no_temp_archive_remains {W : World} (toDownload : list Program)
    (workers : nat) (fs0 : filesystem) (sched : list action) (s : state)
    (evs : list event) :
  run (init_state toDownload workers fs0) sched = Some (s, evs) →
  finished s →
  (∀ n, is_Some (fs s !! tmp_path n) → is_Some (fs0 !! tmp_path n)) ∧
  (∀ p n f body,
     http_Get (URL p) = Response 200 body true →
     (downloadZip p (Some n) f).2 = ("", Some ErrBodyCopy) ∧
     (downloadZip p (Some n) f).1 !! tmp_path n = None) ∧
  (∀ p tmp f f' zp e,
     downloadZip p tmp f = (f', (zp, Some e)) →
     ∀ path, is_Some (f' !! path) → is_Some (f !! path)) ∧
  (∀ s1 s2 i create_ok ev j,
     uzWorkers s1 !! i = Some (UzWork j) →
     step s1 (AUzWork i create_ok) = Some (s2, ev) →
     fs s2 !! job_zipPath j = None).
Proof.
  intros Hrun Hfin.
  destruct (pipeline_inv_run _ _ _ _ _ _ Hrun) as (_ & Hord & Htmp & _).
  destruct (finished_drained workers s ok_n Hord Hfin) as [_ Hlive].
  split; [|split; [|split]].
  - intros n Hn. destruct (Htmp n Hn) as [?|Hin]; [done|].
    rewrite Hlive in Hin. by apply elem_of_nil in Hin.
  - intros p n f body Hget. unfold downloadZip. rewrite Hget. simpl.
    split; [done|]. apply lookup_delete_eq.
  - intros p tmp f f' zp e Hdl path Hpath.
    by destruct (downloadZip_fs _ _ _ _ _ _ Hdl path Hpath) as [?|[? _]].
  - intros s1 s2 i create_ok ev j Hi Hstep.
    destruct (step_uz_work_effect _ _ _ _ _ _ Hi Hstep) as [-> _]. simpl.
    apply lookup_delete_eq.
Qed.

(** C5, as stated, fails in its second half where the pipeline runs without
    workers: nothing waits for the feeder then.  With no download worker the
    results channel is closed at once, the driver finds it closed, prints
    its summary and returns, and in that complete run no job has been
    enqueued although three of the selected programs are eligible. *)
Lemma feeder_not_awaited_counterexample :
  (∃ s evs,
     run (W := sample_world) (init_state sample_targets 0 ∅) idle_schedule = Some (s, evs) ∧
     finished s ∧ enqueued evs = []) ∧
  List.filter eligible sample_targets = [acme; ghost; broken] ∧
  ¬ (∀ (toDownload : list Program) (workers : nat) (fs0 : filesystem)
       (sched : list action) (s : state) (evs : list event),
        run (W := sample_world) (init_state toDownload workers fs0) sched = Some (s, evs) →
        finished s → ∀ p, p ∈ toDownload → eligible p = true → p ∈ enqueued evs).
Proof.
  assert (∃ s evs,
     run (W := sample_world) (init_state sample_targets 0 ∅) idle_schedule = Some (s, evs) ∧
     finished s ∧ enqueued evs = []) as Hrun.
  { destruct (run (W := sample_world) (init_state sample_targets 0 ∅) idle_schedule)
      as [[s evs]|] eqn:Hrun; [|by vm_compute in Hrun].
    exists s, evs. split; [done|].
    assert (main s = DrvDone ∧ enqueued evs = []) as [? ?]; [|done].
    assert (Some (main s, enqueued evs) = Some (DrvDone, [])) as Heq.
    { change (Some (main s, enqueued evs))
        with ((λ x : state * list event, (main x.1, enqueued x.2)) <$> Some (s, evs)).
      rewrite <- Hrun. vm_compute. reflexivity. }
    by inversion Heq. }
  split; [done|]. split; [done|].
  intros Hall. destruct Hrun as (s & evs & Hrun & Hfin & Hnone).
  specialize (Hall _ _ _ _ _ _ Hrun Hfin acme).
  rewrite Hnone in Hall. eapply elem_of_nil, Hall; [|done].
  unfold sample_targets. by apply list_elem_of_here.
Qed.

(** C5, amended: every job the feeder enqueues has a non-empty URL and a
    positive count, so a program with an empty URL or a count that is not
    positive is never enqueued; what has been enqueued is at every moment a
    prefix of the eligible programs of the selection, and once the feeder
    has closed the queue it is exactly those, each as often as it is
    selected and in order; with at least one worker the queue is closed by
    the time the pipeline returns. *)
Theorem feeder_skips_ineligible {W : World} (toDownload : list Program)
    (workers : nat) (fs0 : filesystem) (sched : list action) (s : state)
    (evs : list event) :
  run (init_state toDownload workers fs0) sched = Some (s, evs) →
  (∀ p, p ∈ enqueued evs → URL p ≠ "" ∧ 0 < Count p) ∧
  (∀ p, URL p = "" ∨ Count p ≤ 0 → p ∉ enqueued evs) ∧
  (∃ rest, List.filter eligible toDownload = enqueued evs ++ rest) ∧
  (feeder s = None → enqueued evs = List.filter eligible toDownload) ∧
  ((0 < workers)%nat → finished s → feeder s = None).
Proof.
  intros Hrun.
  destruct (pipeline_inv_run _ _ _ _ _ _ Hrun) as (_ & Hord & _ & Hfeed & _).
  assert (∃ rest, List.filter eligible toDownload = enqueued evs ++ rest) as [rest Hrest].
  { unfold feed_inv in Hfeed. destruct (feeder s) as [l|].
    - by exists (List.filter eligible l).
    - exists []. by rewrite app_nil_r. }
  assert (∀ p, p ∈ enqueued evs → URL p ≠ "" ∧ 0 < Count p) as Held.
  { intros p Hin.
    assert (p ∈ List.filter eligible toDownload) as Hp
      by (rewrite Hrest; apply elem_of_app; by left).
    apply list_elem_of_In, filter_In in Hp as [_ Hp].
    unfold eligible in Hp. apply andb_prop in Hp as [Hurl Hcount].
    split; [|lia]. intros Heq. by rewrite Heq in Hurl. }
  split; [done|]. split; [|split; [|split]].
  - intros p Hp Hin. apply Held in Hin as [Hurl Hcount]. destruct Hp; [done|lia].
  - by exists rest.
  - intros Hnone. unfold feed_inv in Hfeed. by rewrite Hnone in Hfeed.
  - intros Hw Hfin.
    destruct Hord as (Hres & Hwait & _ & Hjobs & Hdlexit & _ & _ & Hdl & _).
    destruct (Hwait (or_intror Hfin)) as [Hclosed _].
    specialize (Hres Hclosed).
    destruct (dlWorkers s) as [|w ws] eqn:Hws; [simpl in Hdl; lia|].
    simpl in Hres. apply andb_prop in Hres as [Hw0 _].
    destruct w; try done. apply Hjobs, (Hdlexit 0%nat). done.
Qed.

(** C7, as stated, fails for the results channel: it is made with the
    number of selected programs as capacity.  With one worker and 100
    selected programs it holds 100 outcomes while the extraction-job channel
    holds 2, and no multiple of the worker count bounds its capacity. *)
Lemma results_capacity_counterexample :
  cap (downloadResults (init_state (replicate 100 acme) 1 ∅)) = 100%nat ∧
  cap (unzipJobs (init_state (replicate 100 acme) 1 ∅)) = 2%nat ∧
  ¬ (∃ c : nat, ∀ (toDownload : list Program) (workers : nat),
        (1 ≤ workers)%nat →
        (cap (downloadResults (init_state toDownload workers ∅)) ≤ c * workers)%nat).
Proof.
  split; [done|]. split; [done|].
  intros [c Hc]. specialize (Hc (replicate (S c) acme) 1%nat (le_n 1)).
  simpl in Hc. rewrite length_replicate in Hc. lia.
Qed.

(** C7, amended: in every state of every run the extraction-job channel
    has capacity 2×W and never holds more, and the driver's send on it
    blocks exactly when it is full; the results channel has the number of
    selected programs as capacity (as the job queue has), whatever W is, so
    a download worker that has an outcome to send is never blocked. *)
Theorem channel_capacities {W : World} (toDownload : list Program)
    (workers : nat) (fs0 : filesystem) (sched : list action) (s : state)
    (evs : list event) :
  run (init_state toDownload workers fs0) sched = Some (s, evs) →
  cap (unzipJobs s) = (workers * 2)%nat ∧
  cap (downloadResults s) = length toDownload ∧
  cap (downloadJobs s) = length toDownload ∧
  (length (buf (unzipJobs s)) ≤ workers * 2)%nat ∧
  (length (buf (downloadResults s)) ≤ length toDownload)%nat ∧
  (∀ j, main s = DrvSend j →
     length (buf (unzipJobs s)) = (workers * 2)%nat → step s AMainSend = None) ∧
  (∀ j, main s = DrvSend j →
     (length (buf (unzipJobs s)) < workers * 2)%nat → is_Some (step s AMainSend)) ∧
  (∀ i r, dlWorkers s !! i = Some (DlSend r) → is_Some (step s (ADlSend i))).
Proof.
  intros Hrun.
  destruct (pipeline_inv_run _ _ _ _ _ _ Hrun)
    as (_ & Hord & _ & _ & (Hcj & Hcr & Hcu & Hlen & Hup) & _).
  destruct Hord as (Hres & Hwait & Huj & _).
  unfold upstream in Hup.
  split; [done|]. split; [done|]. split; [done|]. split; [lia|]. split; [lia|].
  split; [|split].
  - intros j Hmain Hfull. unfold step. rewrite Hmain. simpl.
    unfold step_main_send. rewrite Hmain. unfold send.
    rewrite bool_decide_false by lia. done.
  - intros j Hmain Hroom. unfold step. rewrite Hmain. simpl.
    unfold step_main_send. rewrite Hmain.
    assert (closed (unzipJobs s) = false) as Hopen.
    { destruct (closed (unzipJobs s)) eqn:Hc; [|done].
      destruct (Huj eq_refl) as [?|?]; congruence. }
    destruct (send_enabled j (unzipJobs s)) as [c ->]; [lia|done|]. simpl. eauto.
  - intros i r Hi.
    assert (closed (downloadResults s) = false) as Hopen.
    { destruct (closed (downloadResults s)) eqn:Hc; [|done].
      by pose proof (forallb_lookup _ _ _ _ (Hres eq_refl) Hi). }
    assert (main s ≠ DrvDone ∧ main s ≠ DrvWait) as [Hnd Hnw].
    { split; intros Hm.
      - destruct (Hwait (or_intror Hm)); congruence.
      - destruct (Hwait (or_introl Hm)); congruence. }
    pose proof (sum_list_with_lookup_le dl_load _ _ _ Hi) as Hload. simpl in Hload.
    destruct (send_enabled r (downloadResults s)) as [c Hc]; [lia|done|].
    unfold step. destruct (main s) eqn:Hm; try done; simpl;
      unfold step_dl_send; rewrite Hi, Hc; simpl; eauto.
Qed.

(** *** The sample run *)

Lemma sample_run_ends :
  ∃ s evs,
    run (W := sample_world) (init_state sample_targets 2 ∅) sample_schedule = Some (s, evs) ∧
    finished s ∧ successCount s = 2 ∧ failCount s = 1 ∧ feeder s = None.
Proof.
  destruct (run (W := sample_world) (init_state sample_targets 2 ∅) sample_schedule)
    as [[s evs]|] eqn:Hrun; [|vm_compute in Hrun; discriminate Hrun].
  exists s, evs. split; [reflexivity|].
  vm_compute in Hrun. inversion Hrun. repeat split; reflexivity.
Defined.

Lemma tally_counts_fetch_outcomes_witness :
  ∃ s evs,
    run (W := sample_world) (init_state sample_targets 2 ∅) sample_schedule = Some (s, evs) ∧
    count_ok (outcomes evs) = 2 ∧ count_failed (outcomes evs) = 1 ∧
    last (printed evs) = Some (MsgComplete 2 1).
Proof.
  destruct sample_run_ends as (s & evs & Hrun & Hfin & Hs & Hf & _).
  exists s, evs. split; [exact Hrun|].
  destruct (tally_counts_fetch_outcomes (W := sample_world) sample_targets 2 ∅
              sample_schedule s evs Hrun Hfin) as (Hok & Hfail & Hlast & _).
  rewrite Hlast, <- Hok, <- Hfail, Hs, Hf. repeat split; reflexivity.
Defined.

Lemma no_temp_archive_remains_witness :
  ∃ s evs,
    run (W := sample_world) (init_state sample_targets 2 ∅) sample_schedule = Some (s, evs) ∧
    ∀ n, fs s !! tmp_path n = None.
Proof.
  destruct sample_run_ends as (s & evs & Hrun & Hfin & _).
  exists s, evs. split; [exact Hrun|].
  destruct (no_temp_archive_remains (W := sample_world) sample_targets 2 ∅
              sample_schedule s evs Hrun Hfin) as (Hnone & _).
  intros n. destruct (fs s !! tmp_path n) as [data|] eqn:Hn; [|reflexivity].
  destruct (Hnone n) as [x Hx]; [by rewrite Hn|]. by rewrite lookup_empty in Hx.
Defined.

Lemma feeder_skips_ineligible_witness :
  ∃ s evs,
    run (W := sample_world) (init_state sample_targets 2 ∅) sample_schedule = Some (s, evs) ∧
    enqueued evs = [acme; ghost; broken].
Proof.
  destruct sample_run_ends as (s & evs & Hrun & Hfin & _ & _ & Hfeeder).
  exists s, evs. split; [exact Hrun|].
  destruct (feeder_skips_ineligible (W := sample_world) sample_targets 2 ∅
              sample_schedule s evs Hrun) as (_ & _ & _ & Hall & _).
  rewrite (Hall Hfeeder). reflexivity.
Defined.

Lemma channel_capacities_witness :
  ∃ s evs,
    run (W := sample_world) (init_state sample_targets 2 ∅) sample_schedule = Some (s, evs) ∧
    cap (unzipJobs s) = 4%nat ∧ cap (downloadResults s) = 4%nat.
Proof.
  destruct sample_run_ends as (s & evs & Hrun & _).
  exists s, evs. split; [exact Hrun|].
  destruct (channel_capacities (W := sample_world) sample_targets 2 ∅
              sample_schedule s evs Hrun) as (Hu & Hr & _).
  rewrite Hu, Hr. split; reflexivity.
Defined.

(** *** Progress and termination *)

(** Every move uses up some of the work that is left, so no run is longer
    than the work left at its start. *)
Lemma work_left_step {W : World} (s s' : state) (ev : list event) (a : action) :
  step s a = Some (s', ev) → (work_left s' < work_left s)%nat.
Proof.
  intros [_ Hstep]%step_dispatch.
  invert_dispatch Hstep; use_chan; unfold work_left; simpl;
    try match goal with
        | H : dlWorkers ?s !! ?i = Some ?w |- context [<[?i := ?w']> (dlWorkers ?s)] =>
            pose proof (sum_list_with_insert dl_work _ i w w' H)
        end;
    try match goal with
        | H : uzWorkers ?s !! ?i = Some ?w |- context [<[?i := ?w']> (uzWorkers ?s)] =>
            pose proof (sum_list_with_insert uz_work _ i w w' H)
        end;
    repeat match goal with
           | H : buf _ = _ :: _ |- _ => rewrite H; clear H
           | H : closed _ = closed _ |- _ => rewrite H; clear H
           | H : _ && _ = true |- _ => apply andb_prop in H as [? ?]
           | H : negb _ = true |- _ => apply negb_true_iff in H
           | H : closed _ = _ |- _ => rewrite H
           | H : main _ = _ |- _ => rewrite H
           | H : feeder _ = _ |- _ => rewrite H
           end;
    simpl in *; rewrite ?length_app; simpl; try lia.
Qed.

Lemma run_length {W : World} (sched : list action) (s s' : state) (evs : list event) :
  run s sched = Some (s', evs) → (length sched + work_left s' ≤ work_left s)%nat.
Proof.
  revert s evs. induction sched as [|a sched IH]; intros s evs Hrun; simpl in Hrun.
  - inversion Hrun; subst. simpl. lia.
  - destruct (step s a) as [[s1 ev]|] eqn:Hs; simpl in Hrun; [|done].
    destruct (run s1 sched) as [[s2 evs2]|] eqn:Hr; simpl in Hrun; [|done].
    inversion Hrun; subst.
    apply work_left_step in Hs. apply IH in Hr. simpl. lia.
Qed.

Lemma forallb_false_lookup {A} (f : A → bool) (ws : list A) :
  forallb f ws = false → ∃ i w, ws !! i = Some w ∧ f w = false.
Proof.
  induction ws as [|v ws IH]; [done|]. simpl.
  destruct (f v) eqn:Hv; simpl.
  - intros (i & w & Hi & Hw)%IH. by exists (S i), w.
  - intros _. by exists 0%nat, v.
Qed.

Lemma step_running {W : World} (s : state) (a : action) :
  main s ≠ DrvDone → step s a = dispatch s a.
Proof. intros Hm. unfold step. by destruct (main s). Qed.

(** No deadlock: while the driver has not returned, some goroutine can
    move. *)
Lemma pipeline_progress {W : World} (toDownload : list Program) (workers : nat)
    (fs0 : filesystem) (s : state) (evs : list event) :
  pipeline_inv toDownload workers fs0 s evs → ¬ finished s →
  ∃ a s' ev, step s a = Some (s', ev).
Proof.
  intros (_ & Hord & _ & _ & (Hcj & Hcr & Hcu & Hlen & Hup) & _) Hrun.
  destruct Hord as (Hres & Hwait & Huj & Hjobs & Hdlexit & Hexit & Hdone & Hdl & Huz &
                    Hzero & Hfed & Hwc).
  unfold finished in Hrun. unfold upstream, feeder_left in Hup.
  assert (∀ a, is_Some (dispatch s a) → ∃ a s' ev, step s a = Some (s', ev)) as Hmove.
  { intros a [[s' ev] Ha]. exists a, s', ev. by rewrite step_running. }
  destruct (feeder s) as [[|p rest]|] eqn:Hfeeder.
  - (* the feeder closes the queue *)
    apply (Hmove AFeed). simpl. unfold step_feed. rewrite Hfeeder. eauto.
  - (* the feeder sends or skips *)
    apply (Hmove AFeed). simpl. unfold step_feed. rewrite Hfeeder.
    destruct (eligible p) eqn:Hp; [|eauto].
    destruct (send_enabled p (downloadJobs s)) as [c Hc].
    { simpl in Hup. lia. }
    { destruct (closed (downloadJobs s)) eqn:Hcl; [|done]. by specialize (Hjobs eq_refl). }
    rewrite Hc. simpl. eauto.
  - specialize (Hfed eq_refl).
    destruct (forallb dl_exited (dlWorkers s)) eqn:Hall.
    2:{ (* a download worker moves *)
      apply forallb_false_lookup in Hall as (i & w & Hi & Hw).
      destruct w as [|p|r|]; [| | |done].
      - apply (Hmove (ADlRecv i)). simpl. unfold step_dl_recv. rewrite Hi.
        destruct (recv (downloadJobs s)) as [[p c]|]; [eauto|]. rewrite Hfed. eauto.
      - apply (Hmove (ADlFetch i None)). simpl. unfold step_dl_fetch. rewrite Hi. simpl.
        destruct (downloadZip p None (fs s)) as [f [zp e]]. eauto.
      - pose proof (sum_list_with_lookup_le dl_load _ _ _ Hi) as Hload. simpl in Hload.
        destruct (send_enabled r (downloadResults s)) as [c Hc]; [lia| |].
        { destruct (closed (downloadResults s)) eqn:Hcl; [|done]. by specialize (Hres eq_refl). }
        apply (Hmove (ADlSend i)). simpl. unfold step_dl_send. rewrite Hi, Hc. simpl. eauto. }
    destruct (closed (downloadResults s)) eqn:Hclosed.
    2:{ (* the results channel is closed *)
      apply (Hmove ACloseResults). simpl. unfold step_close_results.
      rewrite Hall, Hclosed. simpl. eauto. }
    destruct (main s) as [|j| |] eqn:Hmain; [| | |done].
    + (* the driver receives, or leaves its loop *)
      apply (Hmove AMainRecv). simpl. unfold step_main_recv. rewrite Hmain.
      destruct (recv (downloadResults s)) as [[r c]|]; [destruct (err r); eauto|].
      rewrite Hclosed. eauto.
    + (* the driver sends, or an unzip worker makes room *)
      assert (closed (unzipJobs s) = false) as Hopen.
      { destruct (closed (unzipJobs s)) eqn:Hcl; [|done].
        destruct (Huj eq_refl); congruence. }
      destruct (decide (length (buf (unzipJobs s)) < cap (unzipJobs s))%nat) as [Hroom|Hfull].
      * destruct (send_enabled j (unzipJobs s) Hroom Hopen) as [c Hc].
        apply (Hmove AMainSend). simpl. unfold step_main_send. rewrite Hmain, Hc. simpl. eauto.
      * assert (workers ≠ 0%nat) as Hw.
        { intros ->. by destruct (Hzero eq_refl) as (_ & _ & Hl). }
        destruct (uzWorkers s) as [|w ws] eqn:Hws; [simpl in Huz; lia|].
        destruct w as [|j'|].
        -- apply (Hmove (AUzRecv 0)). simpl. unfold step_uz_recv. rewrite Hws. simpl.
           unfold recv. destruct (buf (unzipJobs s)) as [|x l] eqn:Hbuf; [simpl in Hfull; lia|].
           eauto.
        -- apply (Hmove (AUzWork 0 true)). simpl. unfold step_uz_work. rewrite Hws. simpl.
           destruct (unzip true _ _ (fs s)) as [f e]. eauto.
        -- destruct (Hexit 0%nat) as [Hcl _]; [done|]. congruence.
    + (* an unzip worker moves, or the driver finishes *)
      specialize (Hwc eq_refl).
      destruct (forallb uz_exited (uzWorkers s)) eqn:Huzall.
      * apply (Hmove AMainFinish). simpl. unfold step_main_finish.
        rewrite Hmain, Huzall. eauto.
      * apply forallb_false_lookup in Huzall as (i & w & Hi & Hw).
        destruct w as [|j'|]; [| |done].
        -- apply (Hmove (AUzRecv i)). simpl. unfold step_uz_recv. rewrite Hi.
           destruct (recv (unzipJobs s)) as [[x c]|]; [eauto|]. rewrite Hwc. eauto.
        -- apply (Hmove (AUzWork i true)). simpl. unfold step_uz_work. rewrite Hi.
           destruct (unzip true _ _ (fs s)) as [f e]. eauto.
Qed.

Lemma sum_list_with_replicate_const {A} (f : A → nat) (n : nat) (x : A) :
  sum_list_with f (replicate n x) = (n * f x)%nat.
Proof. induction n as [|n IH]; simpl; [done|]. rewrite IH. lia. Qed.

Lemma finished_dec (s : state) : finished s ∨ ¬ finished s.
Proof. unfold finished. destruct (main s); (by left) || (by right). Qed.

(** Every state of a run can be continued until the pipeline returns. *)
Lemma pipeline_completes_from {W : World} (toDownload : list Program) (workers : nat)
    (fs0 : filesystem) (n : nat) (s : state) (evs : list event) :
  (work_left s ≤ n)%nat → pipeline_inv toDownload workers fs0 s evs →
  ∃ sched s' evs', run s sched = Some (s', evs') ∧ finished s'.
Proof.
  revert s evs. induction n as [|n IH]; intros s evs Hwork Hinv.
  - exists [], s, []. split; [done|].
    unfold work_left in Hwork. unfold finished.
    destruct (main s); simpl in Hwork; (done || lia).
  - destruct (finished_dec s) as [Hfin|Hnot]; [by exists [], s, []|].
    destruct (pipeline_progress _ _ _ _ _ Hinv Hnot) as (a & s1 & ev & Hstep).
    pose proof (work_left_step _ _ _ _ Hstep) as Hless.
    destruct (IH s1 (evs ++ ev)) as (sched & s' & evs' & Hrun & Hfin).
    { lia. }
    { by eapply pipeline_inv_step. }
    exists (a :: sched), s', (ev ++ evs'). split; [|done].
    simpl. rewrite Hstep. simpl. rewrite Hrun. done.
Qed.

(** ** The Search Pipeline *)

(** *** Counting and reduction *)

Lemma count_loop_from (domain : list byte) (tokens : list (list byte)) (n : Z) :
  fold_left (λ count line, if Contains (ToLower line) domain then count + 1 else count)
            tokens n =
  n + Z.of_nat (length (List.filter (λ line, Contains (ToLower line) domain) tokens)).
Proof.
  revert n. induction tokens as [|t tokens IH]; intros n; simpl; [lia|].
  rewrite IH. destruct (Contains (ToLower t) domain); simpl; lia.
Qed.

Lemma count_loop_filter (domain : list byte) (tokens : list (list byte)) :
  count_loop domain tokens =
  Z.of_nat (length (List.filter (λ line, Contains (ToLower line) domain) tokens)).
Proof. unfold count_loop. by rewrite count_loop_from. Qed.

Lemma countMatches_nonneg (f : filesystem) (path : string) (domain : list byte) :
  0 ≤ countMatches f path domain.
Proof.
  unfold countMatches. destruct (f !! path); [|done].
  rewrite count_loop_filter. lia.
Qed.

Lemma countMatches_pos_open (f : filesystem) (path : string) (domain : list byte) :
  0 < countMatches f path domain → is_Some (f !! path).
Proof. unfold countMatches. destruct (f !! path); [eauto|lia]. Qed.

Lemma query_worker_hit (f : filesystem) (domain : list byte) (path : string) (h : queryResult) :
  h ∈ query_worker f domain path →
  h = mkQueryResult path (countMatches f path domain) ∧ 0 < matchCount h.
Proof.
  unfold query_worker. destruct (0 <? _) eqn:Hpos; [|by intros ?%elem_of_nil].
  intros ->%list_elem_of_singleton. simpl. split; [done|lia].
Qed.

Lemma arrivals_hit (f : filesystem) (domain : list byte) (workers : Z)
    (order : list string) (h : queryResult) :
  h ∈ arrivals f domain workers order →
  file h ∈ order ∧ matchCount h = countMatches f (file h) domain ∧ 0 < matchCount h.
Proof.
  unfold arrivals. destruct (workers =? 0); [by intros ?%elem_of_nil|].
  rewrite list_elem_of_In, in_flat_map.
  intros (path & Hin%list_elem_of_In & Hh%list_elem_of_In).
  apply query_worker_hit in Hh as [-> Hpos]. simpl in *. done.
Qed.

(** The reduction started from [b0]: either nothing beats [b0], or the
    result is the first of the hits with the greatest count. *)
Lemma fold_best (l : list queryResult) (b0 : queryResult) :
  (fold_left best_step l b0 = b0 ∧ ∀ h, h ∈ l → matchCount h ≤ matchCount b0) ∨
  (∃ l1 l2, l = l1 ++ fold_left best_step l b0 :: l2 ∧
     matchCount b0 < matchCount (fold_left best_step l b0) ∧
     (∀ h, h ∈ l1 → matchCount h < matchCount (fold_left best_step l b0)) ∧
     (∀ h, h ∈ l2 → matchCount h ≤ matchCount (fold_left best_step l b0))).
Proof.
  revert b0. induction l as [|x l IH]; intros b0; simpl.
  - left. split; [done|]. by intros h ?%elem_of_nil.
  - unfold best_step at 2 4 6 8 10.
    destruct (matchCount b0 <? matchCount x) eqn:Hlt.
    + apply Z.ltb_lt in Hlt. right.
      destruct (IH x) as [[Heq Hle]|(l1 & l2 & Hl & Hgt & H1 & H2)].
      * exists [], l. rewrite Heq. simpl. repeat split; try done.
        by intros h ?%elem_of_nil.
      * exists (x :: l1), l2.
        split; [simpl; by f_equal|]. split; [lia|]. split; [|done].
        intros h [->|Hin]%elem_of_cons; [lia|by apply H1].
    + apply Z.ltb_ge in Hlt.
      destruct (IH b0) as [[Heq Hle]|(l1 & l2 & Hl & Hgt & H1 & H2)].
      * left. split; [done|].
        intros h [->|Hin]%elem_of_cons; [lia|by apply Hle].
      * right. exists (x :: l1), l2.
        split; [simpl; by f_equal|]. split; [done|]. split; [|done].
        intros h [->|Hin]%elem_of_cons; [lia|by apply H1].
Qed.

Lemma find_best_first_max (l : list queryResult) :
  l ≠ [] → (∀ h, h ∈ l → 0 < matchCount h) →
  ∃ l1 l2, l = l1 ++ find_best l :: l2 ∧
    (∀ h, h ∈ l1 → matchCount h < matchCount (find_best l)) ∧
    (∀ h, h ∈ l2 → matchCount h ≤ matchCount (find_best l)).
Proof.
  intros Hne Hpos. unfold find_best.
  destruct (fold_best l (mkQueryResult "" 0)) as [[_ Hle]|(l1 & l2 & Hl & _ & H1 & H2)].
  - destruct l as [|x l]; [done|].
    specialize (Hle x (list_elem_of_here _ _)). specialize (Hpos x (list_elem_of_here _ _)).
    simpl in Hle. lia.
  - by exists l1, l2.
Qed.

Lemma find_best_nil_file (l : list queryResult) :
  (∀ h, h ∈ l → file h ≠ "") → l ≠ [] → (∀ h, h ∈ l → 0 < matchCount h) →
  file (find_best l) ≠ "".
Proof.
  intros Hfile Hne Hpos.
  destruct (find_best_first_max l Hne Hpos) as (l1 & l2 & Hl & _).
  apply Hfile. rewrite Hl at 2. apply elem_of_app. right. apply list_elem_of_here.
Qed.

(** *** The goroutines of the search *)

Lemma flat_map_lookup_perm {A B} (f : A → list B) (ws : list A) (i : nat) (w : A) :
  ws !! i = Some w → flat_map f ws ≡ₚ f w ++ flat_map f (delete i ws).
Proof.
  revert i. induction ws as [|v ws IH]; intros [|i] Hi; simplify_eq/=; [done|].
  rewrite (IH i Hi). solve_Permutation.
Qed.

Lemma flat_map_insert_perm {A B} (f : A → list B) (ws : list A) (i : nat) (w w' : A) :
  ws !! i = Some w → flat_map f (<[i := w']> ws) ≡ₚ f w' ++ flat_map f (delete i ws).
Proof.
  revert i. induction ws as [|v ws IH]; intros [|i] Hi; simplify_eq/=; [done|].
  rewrite (IH i Hi). solve_Permutation.
Qed.

Lemma qstep_dispatch (f : filesystem) (domain : list byte) (s : qstate) (a : qaction)
    (x : qstate * list string) :
  qstep f domain s a = Some x → q_main s = QReduce ∧ qdispatch f domain s a = Some x.
Proof. unfold qstep. by destruct (q_main s). Qed.

Ltac q_finish :=
  intros;
  repeat match goal with
  | H : _ ∧ _ |- _ => destruct H
  | H : _ && _ = true |- _ => apply andb_prop in H as [? ?]
  | H : <[_ := _]> _ !! _ = Some _ |- _ =>
      apply list_lookup_insert_Some in H as [(-> & ? & ?)|[? ?]]
  | H : ?P → _, H' : ?P |- _ => specialize (H H')
  | H : ∀ i, q_workers ?s !! i = Some QExit → _, H' : q_workers ?s !! _ = Some QExit |- _ =>
      specialize (H _ H')
  | H : _ ∨ _ |- _ => destruct H
  end;
  simplify_eq; try done; try congruence; eauto.

Lemma query_inv_step (f : filesystem) (domain : list byte) (files : list string)
    (workers : nat) (s s' : qstate) (fin ev : list string) (a : qaction) :
  query_inv f domain files workers s fin → qstep f domain s a = Some (s', ev) →
  query_inv f domain files workers s' (fin ++ ev).
Proof.
  intros (Hbest & Hperm & Hsend & Hres & Hdone & Hexit & Hjobs & Hlen & Hzero)
         [Hmain Hstep]%qstep_dispatch.
  assert (∀ i w, q_workers s !! i = Some w → w ≠ QExit →
            closed (results s) = false ∧ workers ≠ 0%nat) as Fw.
  { intros i w Hi Hw. split.
    - destruct (closed (results s)) eqn:Hc; [|done].
      pose proof (forallb_lookup _ _ _ _ (Hres eq_refl) Hi). by destruct w.
    - apply lookup_lt_Some in Hi. lia. }
  unfold query_inv.
  invert_qdispatch Hstep; use_chan; simpl; rewrite ?length_insert, ?app_nil_r.
  all: repeat match goal with |- _ ∧ _ => split end; try done.
  all: try match goal with
           | |- _ ≡ₚ _ =>
               rewrite <- Hperm;
               repeat match goal with
                      | H : buf _ = _ :: _ |- _ => rewrite H; clear H
                      end;
               try match goal with
                   | Hi : q_workers ?s !! ?i = Some ?w |- _ =>
                       try rewrite (flat_map_insert_perm q_held _ i w _ Hi);
                       try rewrite (flat_map_lookup_perm q_held _ i w Hi)
                   end;
               simpl; solve_Permutation
           end.
  all: try match goal with
           | |- Forall _ (<[_ := _]> _) =>
               apply Forall_insert; [done|]; simpl; try done;
               unfold query_worker; simpl;
               match goal with H : (0 <? _) = true |- _ => by rewrite H end
           end.
  all: try match goal with
           | Hi : q_workers _ !! _ = Some _ |- _ =>
               pose proof (Fw _ _ Hi ltac:(done)) as [? ?]
           end.
  all: try (clear Fw; q_finish; fail).
  - (* a file without match is completed *)
    rewrite flat_map_app. simpl. unfold query_worker at 2.
    match goal with H : (0 <? _) = false |- _ => rewrite H end.
    by rewrite !app_nil_r.
  - (* a hit is sent *)
    match goal with
    | Hi : q_workers s !! _ = Some (QSend _) |- _ =>
        pose proof (Forall_lookup_1 _ _ _ _ Hsend Hi) as Hr
    end.
    simpl in Hr. rewrite fold_left_app, Hbest, flat_map_app. simpl.
    rewrite Hr. unfold find_best. by rewrite fold_left_app.
  - (* the driver reduces a hit *)
    match goal with
    | H : buf (results s) = _ :: _ |- _ => rewrite H in Hbest
    end.
    exact Hbest.
Qed.

Lemma query_inv_init (f : filesystem) (domain : list byte) (files : list string)
    (workers : nat) :
  query_inv f domain files workers (q_init files workers) [].
Proof.
  unfold query_inv. simpl. rewrite length_replicate.
  split; [done|]. split.
  - rewrite flat_map_replicate_nil by done. done.
  - split; [by apply Forall_replicate|]. split; [done|]. split; [done|].
    split; [by intros i [? _]%lookup_replicate|]. done.
Qed.

Lemma query_inv_run (f : filesystem) (domain : list byte) (files : list string)
    (workers : nat) (sched : list qaction) (s s' : qstate) (fin fin' : list string) :
  query_inv f domain files workers s fin →
  qrun f domain s sched = Some (s', fin') →
  query_inv f domain files workers s' (fin ++ fin').
Proof.
  revert s fin s' fin'.
  induction sched as [|a sched IH]; intros s fin s' fin' Hinv Hrun; simpl in Hrun.
  - inversion Hrun; subst. by rewrite app_nil_r.
  - destruct (qstep f domain s a) as [[s1 d1]|] eqn:Hs; simpl in Hrun; [|done].
    destruct (qrun f domain s1 sched) as [[s2 d2]|] eqn:Hr; simpl in Hrun; [|done].
    inversion Hrun; subst. rewrite app_assoc. eapply IH; [|exact Hr].
    by eapply query_inv_step.
Qed.

(** When the driver is past its loop, the best hit is the reduction of the
    hits of all discovered files in the order in which their scans were
    completed. *)
Lemma query_done (f : filesystem) (domain : list byte) (files : list string)
    (workers : nat) (s : qstate) (fin : list string) :
  query_inv f domain files workers s fin → q_main s = QDone →
  best s = find_best (arrivals f domain (Z.of_nat workers) fin) ∧
  (workers ≠ 0%nat → fin ≡ₚ files).
Proof.
  intros (Hbest & Hperm & Hsend & Hres & Hdone & Hexit & Hjobs & Hlen & Hzero) Hmain.
  destruct (Hdone Hmain) as [Hclosed Hbuf].
  rewrite Hbuf in Hbest. simpl in Hbest.
  unfold arrivals. destruct workers as [|n].
  - destruct (Hzero eq_refl) as [-> _]. simpl in *. split; [done|]. done.
  - split.
    + rewrite Hbest. by destruct (Z.eqb_spec (Z.of_nat (S n)) 0); [lia|].
    + intros _. specialize (Hres Hclosed).
      destruct (q_workers s) as [|w ws] eqn:Hws; [done|].
      pose proof Hres as Hall. simpl in Hres. apply andb_prop in Hres as [Hw _].
      destruct w; try done.
      destruct (Hexit 0%nat eq_refl) as [Hjc Hjb].
      assert (flat_map q_held (QExit :: ws) = []) as Hheld.
      { clear -Hall. induction (QExit :: ws) as [|v vs IH]; [done|].
        simpl in Hall. apply andb_prop in Hall as [Hv Hvs].
        destruct v; try done. simpl. by apply IH. }
      rewrite Hheld, (Hjobs Hjc), Hjb in Hperm. simpl in Hperm.
      by rewrite !app_nil_r in Hperm.
Qed.

(** Every complete run of the goroutines of [parallelQuery] gives what
    [parallelQuery] gives for some completion order of the discovered
    files. *)
Theorem parallelQuery_sched_refines (entries : list dirent) (f : filesystem)
    (domain : list byte) (workers : Z) (sched : list qaction) (out : query_outcome) :
  parallelQuery_sched entries f domain workers sched = Some out →
  ∃ order, completion_order entries order ∧
           out = parallelQuery entries f domain workers order.
Proof.
  unfold parallelQuery_sched, parallelQuery, completion_order. intros Hrun.
  destruct (bool_decide (length (walk_files entries) = 0%nat)).
  { exists (walk_files entries). split; [done|]. by inversion Hrun. }
  destruct (Z.ltb_spec workers 0) as [?|Hw].
  { exists (walk_files entries). split; [done|]. by inversion Hrun. }
  destruct (qrun f (ToLower domain) _ sched) as [[s fin]|] eqn:Hq; [|done].
  destruct (q_main s) eqn:Hmain; [done|]. inversion Hrun; subst out.
  pose proof (query_inv_run f (ToLower domain) (walk_files entries) (Z.to_nat workers)
                sched _ s [] fin (query_inv_init _ _ _ _) Hq) as Hinv.
  simpl in Hinv.
  destruct (query_done _ _ _ _ _ _ Hinv Hmain) as [Hbest Hperm].
  rewrite Z2Nat.id in Hbest by done.
  destruct (decide (Z.to_nat workers = 0%nat)) as [Hzero|Hpos].
  - exists (walk_files entries). split; [done|].
    rewrite Hbest. unfold arrivals.
    by destruct (Z.eqb_spec workers 0); [|lia].
  - exists fin. split; [by apply Hperm|]. by rewrite Hbest.
Qed.

(** *** The claims about the search *)

Lemma walk_files_path (entries : list dirent) (path : string) :
  path ∈ walk_files entries → HasSuffix path outName = true ∧ path ≠ "".
Proof.
  unfold walk_files. rewrite list_elem_of_In, in_map_iff.
  intros (e & <- & [_ He]%filter_In).
  apply andb_prop in He as [_ Hsuf]. split; [done|].
  intros Heq. rewrite Heq in Hsuf. discriminate Hsuf.
Qed.

Lemma query_worker_count (f : filesystem) (domain : list byte) (path : string) (n : Z) :
  countMatches f path domain = n → 0 < n →
  query_worker f domain path = [mkQueryResult path n].
Proof.
  intros Hn Hpos. unfold query_worker. rewrite Hn.
  by destruct (Z.ltb_spec 0 n); [|lia].
Qed.

(** The reduction over the three hits of the scenario, in any order. *)
Lemma find_best_2_5_5 (arr : list queryResult) (pa pb pc : string) :
  arr ≡ₚ [mkQueryResult pa 2; mkQueryResult pb 5; mkQueryResult pc 5] →
  find_best arr = mkQueryResult pb 5 ∨ find_best arr = mkQueryResult pc 5.
Proof.
  intros Hperm.
  assert (∀ h, h ∈ arr → h = mkQueryResult pa 2 ∨ h = mkQueryResult pb 5 ∨ h = mkQueryResult pc 5)
    as Hmem.
  { intros h Hin. rewrite Hperm in Hin.
    rewrite !elem_of_cons, elem_of_nil in Hin. tauto. }
  assert (arr ≠ []) as Hne.
  { intros ->. by apply Permutation_nil_l in Hperm. }
  assert (∀ h, h ∈ arr → 0 < matchCount h) as Hpos.
  { intros h [->|[->| ->]]%Hmem; simpl; lia. }
  destruct (find_best_first_max arr Hne Hpos) as (l1 & l2 & Hl & H1 & H2).
  assert (find_best arr ∈ arr) as Hbest.
  { rewrite Hl at 2. apply elem_of_app. right. apply list_elem_of_here. }
  assert (mkQueryResult pb 5 ∈ arr) as Hb.
  { rewrite Hperm. apply list_elem_of_further, list_elem_of_here. }
  assert (5 ≤ matchCount (find_best arr)) as Hmax.
  { rewrite Hl in Hb.
    apply elem_of_app in Hb as [Hb|[Hb|Hb]%elem_of_cons].
    - apply H1 in Hb. simpl in Hb. lia.
    - by rewrite <- Hb.
    - apply H2 in Hb. simpl in Hb. lia. }
  destruct (Hmem _ Hbest) as [Heq|[Heq|Heq]]; [|by left|by right].
  rewrite Heq in Hmax. simpl in Hmax. lia.
Qed.

Lemma parallelQuery_scenario (entries : list dirent) (f : filesystem)
    (domain : list byte) (workers : Z) (order : list string) (pa pb pc : string) :
  completion_order entries order →
  walk_files entries ≡ₚ [pa; pb; pc] →
  countMatches f pa (ToLower domain) = 2 →
  countMatches f pb (ToLower domain) = 5 →
  countMatches f pc (ToLower domain) = 5 →
  0 < workers →
  (file (find_best (arrivals f (ToLower domain) workers order)) = pb ∨
   file (find_best (arrivals f (ToLower domain) workers order)) = pc) ∧
  file (find_best (arrivals f (ToLower domain) workers order)) ≠ pa ∧
  matchCount (find_best (arrivals f (ToLower domain) workers order)) = 5 ∧
  ∃ data,
    f !! file (find_best (arrivals f (ToLower domain) workers order)) = Some data ∧
    parallelQuery entries f domain workers order = QueryReturn data.
Proof.
  intros Horder Hfiles Ha Hb Hc Hw. unfold completion_order in Horder.
  set (best := find_best (arrivals f (ToLower domain) workers order)).
  assert (arrivals f (ToLower domain) workers order ≡ₚ
          [mkQueryResult pa 2; mkQueryResult pb 5; mkQueryResult pc 5]) as Harr.
  { unfold arrivals. destruct (Z.eqb_spec workers 0) as [?|_]; [lia|].
    rewrite Horder, Hfiles. simpl.
    rewrite (query_worker_count f _ pa 2), (query_worker_count f _ pb 5),
      (query_worker_count f _ pc 5) by (done || lia).
    done. }
  assert (file best = pb ∨ file best = pc) as Hbest.
  { destruct (find_best_2_5_5 _ pa pb pc Harr) as [Heq|Heq];
      subst best; rewrite Heq; simpl; auto. }
  assert (matchCount best = 5) as Hfive.
  { destruct (find_best_2_5_5 _ pa pb pc Harr) as [Heq|Heq];
      subst best; rewrite Heq; simpl; auto. }
  assert (countMatches f (file best) (ToLower domain) = 5) as Hcnt.
  { destruct Hbest as [-> | ->]; done. }
  split; [done|]. split; [intros Heq; rewrite Heq in Hcnt; lia|]. split; [done|].
  destruct (countMatches_pos_open f (file best) (ToLower domain)) as [data Hdata]; [lia|].
  exists data. split; [done|].
  assert (file best ∈ walk_files entries) as Hin.
  { rewrite Hfiles. rewrite !elem_of_cons. tauto. }
  unfold parallelQuery.
  rewrite bool_decide_false.
  2:{ rewrite Hfiles. simpl. lia. }
  destruct (Z.ltb_spec workers 0) as [?|_]; [lia|].
  fold best. apply walk_files_path in Hin as [_ Hnonempty].
  unfold emit.
  destruct (String.eqb_spec (file best) "") as [?|_]; [done|].
  by rewrite Hdata.
Qed.

(** C2: the hits that reach the reduction all have a positive count that is
    the count of their file, so a file without match is never among them;
    the reduction keeps the first of the hits with the greatest count
    (every earlier hit has a strictly smaller count, no later one a greater
    one); and with three files of counts 2, 5 and 5 the output is the
    content of one of the two files with 5 matches and the file with 2 is
    never selected: in every completion order, and so under every schedule
    of the goroutines. *)
Theorem parallelQuery_best_match (entries : list dirent) (f : filesystem)
    (domain : list byte) (workers : Z) :
  (∀ order,
     completion_order entries order →
     (∀ h, h ∈ arrivals f (ToLower domain) workers order →
        0 < matchCount h ∧ file h ∈ walk_files entries ∧
        matchCount h = countMatches f (file h) (ToLower domain)) ∧
     (arrivals f (ToLower domain) workers order ≠ [] →
      ∃ l1 l2,
        arrivals f (ToLower domain) workers order =
          l1 ++ find_best (arrivals f (ToLower domain) workers order) :: l2 ∧
        (∀ h, h ∈ l1 →
           matchCount h < matchCount (find_best (arrivals f (ToLower domain) workers order))) ∧
        (∀ h, h ∈ l2 →
           matchCount h ≤ matchCount (find_best (arrivals f (ToLower domain) workers order))))) ∧
  (∀ pa pb pc,
     walk_files entries ≡ₚ [pa; pb; pc] →
     countMatches f pa (ToLower domain) = 2 →
     countMatches f pb (ToLower domain) = 5 →
     countMatches f pc (ToLower domain) = 5 →
     0 < workers →
     (∀ order,
        completion_order entries order →
        let best := find_best (arrivals f (ToLower domain) workers order) in
        (file best = pb ∨ file best = pc) ∧ file best ≠ pa ∧ matchCount best = 5 ∧
        ∃ data, f !! file best = Some data ∧
                parallelQuery entries f domain workers order = QueryReturn data) ∧
     (∀ sched out,
        parallelQuery_sched entries f domain workers sched = Some out →
        ∃ data, out = QueryReturn data ∧ (f !! pb = Some data ∨ f !! pc = Some data))).
Proof.
  split.
  - intros order Horder. unfold completion_order in Horder.
    assert (∀ h, h ∈ arrivals f (ToLower domain) workers order →
       0 < matchCount h ∧ file h ∈ walk_files entries ∧
       matchCount h = countMatches f (file h) (ToLower domain)) as Hhits.
    { intros h (Hin & Hcount & Hpos)%arrivals_hit. rewrite Horder in Hin. done. }
    split; [exact Hhits|].
    intros Hne. apply find_best_first_max; [done|]. intros h Hin. by apply Hhits.
  - intros pa pb pc Hfiles Ha Hb Hc Hw. split.
    + intros order Horder. by apply parallelQuery_scenario.
    + intros sched out Hrun.
      destruct (parallelQuery_sched_refines _ _ _ _ _ _ Hrun) as (order & Horder & ->).
      destruct (parallelQuery_scenario entries f domain workers order pa pb pc
                  Horder Hfiles Ha Hb Hc Hw) as (Hbest & _ & _ & data & Hdata & Hout).
      exists data. split; [done|].
      destruct Hbest as [Heq|Heq]; rewrite Heq in Hdata; auto.
Qed.

Lemma parallelQuery_best_match_witness :
  parallelQuery sample_entries sample_corpus (bytes_of "Acme.com") 4
    ["chaos/r/subdomains.txt"; "chaos/p/subdomains.txt"; "chaos/q/subdomains.txt"]
  = QueryReturn five_hits_y ∧
  parallelQuery_sched sample_entries sample_corpus (bytes_of "Acme.com") 2
    sample_query_schedule = Some (QueryReturn five_hits_x).
Proof.
  destruct (parallelQuery_best_match sample_entries sample_corpus (bytes_of "Acme.com") 4)
    as [_ Hfour].
  destruct (parallelQuery_best_match sample_entries sample_corpus (bytes_of "Acme.com") 2)
    as [_ Htwo].
  destruct (Hfour "chaos/p/subdomains.txt" "chaos/q/subdomains.txt" "chaos/r/subdomains.txt")
    as [Horder _];
    [vm_compute walk_files; reflexivity | vm_compute; reflexivity | vm_compute; reflexivity
    | vm_compute; reflexivity | lia |].
  destruct (Htwo "chaos/p/subdomains.txt" "chaos/q/subdomains.txt" "chaos/r/subdomains.txt")
    as [_ Hsched];
    [vm_compute walk_files; reflexivity | vm_compute; reflexivity | vm_compute; reflexivity
    | vm_compute; reflexivity | lia |].
  split.
  - destruct (Horder ["chaos/r/subdomains.txt"; "chaos/p/subdomains.txt";
                      "chaos/q/subdomains.txt"])
      as (_ & _ & _ & data & Hdata & Hout).
    { unfold completion_order. vm_compute walk_files.
      etrans; [apply Permutation_swap|]. apply perm_skip, Permutation_swap. }
    rewrite Hout. vm_compute in Hdata. inversion Hdata. vm_compute; reflexivity.
  - destruct (parallelQuery_sched sample_entries sample_corpus (bytes_of "Acme.com") 2
                sample_query_schedule) as [out|] eqn:Hrun;
      [|vm_compute in Hrun; discriminate Hrun].
    destruct (Hsched sample_query_schedule out Hrun) as (data & -> & _).
    vm_compute in Hrun. inversion Hrun. vm_compute; reflexivity.
Defined.

Lemma parallelQuery_no_match (entries : list dirent) (f : filesystem)
    (domain : list byte) (workers : Z) (order : list string) :
  completion_order entries order →
  (∀ path, path ∈ walk_files entries → countMatches f path (ToLower domain) = 0) →
  stdout_of (parallelQuery entries f domain workers order) = [] ∧
  (0 ≤ workers → parallelQuery entries f domain workers order = QueryReturn []).
Proof.
  intros Horder Hzero. unfold completion_order in Horder.
  assert (arrivals f (ToLower domain) workers order = []) as Harr.
  { destruct (arrivals f (ToLower domain) workers order) as [|h arr] eqn:Heq; [done|].
    assert (h ∈ arrivals f (ToLower domain) workers order) as Hin
      by (rewrite Heq; apply list_elem_of_here).
    apply arrivals_hit in Hin as (Hin & Hcount & Hpos).
    rewrite Horder in Hin. rewrite (Hzero _ Hin) in Hcount. lia. }
  unfold parallelQuery. rewrite Harr.
  destruct (bool_decide _); [done|].
  destruct (Z.ltb_spec workers 0); simpl; [split; [done|lia]|done].
Qed.

(** C9: when the walk discovers no file, the search writes nothing and
    returns normally; and when files are discovered but none has a matching
    line, nothing is written either (with a worker count that is not
    negative the search returns normally with empty output): in every
    completion order, and so under every schedule of the goroutines. *)
Theorem parallelQuery_nothing_found (entries : list dirent) (f : filesystem)
    (domain : list byte) (workers : Z) :
  (walk_files entries = [] →
   (∀ order, parallelQuery entries f domain workers order = QueryReturn []) ∧
   (∀ sched, parallelQuery_sched entries f domain workers sched = Some (QueryReturn []))) ∧
  ((∀ path, path ∈ walk_files entries → countMatches f path (ToLower domain) = 0) →
   (∀ order,
      completion_order entries order →
      stdout_of (parallelQuery entries f domain workers order) = [] ∧
      (0 ≤ workers → parallelQuery entries f domain workers order = QueryReturn [])) ∧
   (∀ sched out,
      parallelQuery_sched entries f domain workers sched = Some out →
      stdout_of out = [] ∧ (0 ≤ workers → out = QueryReturn []))).
Proof.
  split.
  - intros Hnone. split.
    + intros order. unfold parallelQuery. by rewrite Hnone.
    + intros sched. unfold parallelQuery_sched. by rewrite Hnone.
  - intros Hzero. split.
    + intros order Horder. by apply parallelQuery_no_match.
    + intros sched out Hrun.
      destruct (parallelQuery_sched_refines _ _ _ _ _ _ Hrun) as (order & Horder & ->).
      by apply parallelQuery_no_match.
Qed.

Lemma parallelQuery_nothing_found_witness :
  parallelQuery_sched [mkDirent "chaos" true false] ∅ (bytes_of "acme.com") 8 [QAClose]
    = Some (QueryReturn []) ∧
  parallelQuery sample_entries sample_corpus (bytes_of "nowhere.net") 8
    (walk_files sample_entries) = QueryReturn [].
Proof.
  split.
  - destruct (parallelQuery_nothing_found [mkDirent "chaos" true false] ∅
                (bytes_of "acme.com") 8) as [Hempty _].
    apply Hempty. vm_compute; reflexivity.
  - destruct (parallelQuery_nothing_found sample_entries sample_corpus
                (bytes_of "nowhere.net") 8) as [_ Hnomatch].
    apply Hnomatch; [|unfold completion_order; reflexivity|lia].
    vm_compute walk_files. intros path Hin.
    rewrite !elem_of_cons, elem_of_nil in Hin.
    destruct Hin as [->|[->|[->|[]]]]; vm_compute; reflexivity.
Defined.

(** C10: a path that cannot be opened has count 0; its worker sends no hit,
    exactly as for a readable file in which no line matches, so the two are
    the same to the search. *)
Theorem countMatches_unreadable (f : filesystem) (path : string) (domain : list byte) :
  f !! path = None →
  countMatches f path domain = 0 ∧
  query_worker f domain path = [] ∧
  (∀ data, count_loop domain (scan_tokens maxTokenSize data) = 0 →
     countMatches (<[path := data]> f) path domain = countMatches f path domain ∧
     query_worker (<[path := data]> f) domain path = query_worker f domain path).
Proof.
  intros Hnone.
  assert (countMatches f path domain = 0) as Hzero
    by (unfold countMatches; by rewrite Hnone).
  split; [done|]. split; [unfold query_worker; by rewrite Hzero|].
  intros data Hdata.
  assert (countMatches (<[path := data]> f) path domain = 0) as Hzero'
    by (unfold countMatches; by rewrite lookup_insert_eq).
  split; [by rewrite Hzero, Hzero'|].
  unfold query_worker. by rewrite Hzero, Hzero'.
Qed.

Lemma countMatches_unreadable_witness :
  countMatches sample_corpus "chaos/s/subdomains.txt" (bytes_of "acme.com") = 0.
Proof.
  destruct (countMatches_unreadable sample_corpus "chaos/s/subdomains.txt"
              (bytes_of "acme.com")) as (Hzero & _); [vm_compute; reflexivity|].
  exact Hzero.
Defined.

(** *** The line scanner *)

Lemma raw_lines_nil_inv (data : list byte) : raw_lines data = [] → data = [].
Proof.
  destruct data as [|b data]; [done|]. simpl.
  destruct (Byte.eqb b newline); [done|]. by destruct (raw_lines data).
Qed.

Lemma complete_lines_cons_inv (b : byte) (pre : list byte) :
  complete_lines (b :: pre) → complete_lines pre ∧ (pre = [] → b = newline).
Proof.
  intros [?|[p Hp]]; [done|].
  destruct p as [|b' p]; simpl in Hp.
  - inversion Hp; subst. split; [by left|done].
  - inversion Hp; subst. split; [right; by exists p|].
    intros Hnil. by destruct p.
Qed.

Lemma raw_lines_app_complete (pre data : list byte) :
  complete_lines pre → raw_lines (pre ++ data) = raw_lines pre ++ raw_lines data.
Proof.
  induction pre as [|b pre IH]; intros Hpre; [done|].
  apply complete_lines_cons_inv in Hpre as [Hpre Hlast].
  simpl. rewrite (IH Hpre).
  destruct (Byte.eqb b newline) eqn:Hb; [done|].
  destruct (raw_lines pre) as [|l ls] eqn:Hlines; [|done].
  apply raw_lines_nil_inv in Hlines. apply Hlast in Hlines.
  apply Byte.eqb_false in Hb. done.
Qed.

Lemma raw_lines_first_line (long rest : list byte) :
  long ≠ [] → newline ∉ long →
  ∃ l ls, raw_lines (long ++ rest) = (long ++ l) :: ls.
Proof.
  induction long as [|b long IH]; intros Hne Hnl; [done|].
  apply not_elem_of_cons in Hnl as [Hb Hnl].
  simpl. destruct (Byte.eqb b newline) eqn:Heq.
  { apply Byte.byte_dec_bl in Heq. by subst. }
  destruct long as [|b' long].
  - simpl. destruct (raw_lines rest) as [|l ls]; [by exists [], []|by exists l, ls].
  - destruct (IH ltac:(done) Hnl) as (l & ls & ->). by exists l, ls.
Qed.

Lemma take_while_app_stop {A} (f : A → bool) (l r : list A) (x : A) :
  f x = false → take_while f (l ++ x :: r) = take_while f l.
Proof.
  intros Hx. induction l as [|y l IH]; simpl; [by rewrite Hx|].
  destruct (f y); [by rewrite IH|done].
Qed.

(** The scan of a file ends before its first line that does not fit. *)
Lemma scan_tokens_overflow (max : Z) (pre long rest : list byte) :
  0 < max → complete_lines pre → newline ∉ long → max ≤ Z.of_nat (length long) →
  scan_tokens max (pre ++ long ++ rest) = scan_tokens max pre.
Proof.
  intros Hmax Hpre Hnl Hlen. unfold scan_tokens.
  rewrite (raw_lines_app_complete pre _ Hpre).
  destruct (raw_lines_first_line long rest) as (l & ls & ->); [|done|].
  { intros ->. simpl in Hlen. lia. }
  rewrite take_while_app_stop; [done|].
  apply Z.ltb_ge. rewrite length_app. lia.
Qed.

(** C6, as stated, fails: a file whose second line is longer than the
    buffer ceiling and whose first line matches has count 1, not 0. *)
Lemma overflow_count_counterexample :
  ¬ (∀ (f : filesystem) (path : string) (domain data : list byte),
       f !! path = Some data →
       has_long_line maxTokenSize data = true →
       countMatches f path domain = 0).
Proof.
  intros Hclaim.
  assert (has_long_line maxTokenSize overflow_file = true) as Hlong
    by (vm_compute; reflexivity).
  assert (countMatches {[ "chaos/acme/subdomains.txt" := overflow_file ]}
            "chaos/acme/subdomains.txt" (bytes_of "acme.com") = 1) as Hone
    by (vm_compute; reflexivity).
  rewrite (Hclaim _ _ _ overflow_file (lookup_singleton_eq _ _) Hlong) in Hone.
  discriminate Hone.
Qed.

(** C6, amended: when a file has a line that does not fit in the scan
    buffer, the scan stops silently at that line: [countMatches] returns
    the number of matching lines before it (the count of the file cut
    there), which is 0 only when none of them matches, and the lines after
    it are not counted; no error is signalled, and the query as a whole
    still returns normally. *)
Theorem countMatches_overflow (f : filesystem) (path : string) (domain : list byte)
    (pre long rest : list byte) :
  f !! path = Some (pre ++ long ++ rest) →
  complete_lines pre → newline ∉ long → maxTokenSize ≤ Z.of_nat (length long) →
  countMatches f path domain = count_loop domain (scan_tokens maxTokenSize pre) ∧
  countMatches f path domain = countMatches (<[path := pre]> f) path domain ∧
  (∀ entries domain' workers order, 0 ≤ workers →
     ∃ out, parallelQuery entries f domain' workers order = QueryReturn out).
Proof.
  intros Hfile Hpre Hnl Hlen.
  assert (countMatches f path domain = count_loop domain (scan_tokens maxTokenSize pre)) as Hcount.
  { unfold countMatches. rewrite Hfile.
    by rewrite scan_tokens_overflow. }
  split; [done|]. split.
  - rewrite Hcount. unfold countMatches. by rewrite lookup_insert_eq.
  - intros entries domain' workers order Hw. unfold parallelQuery.
    destruct (bool_decide _); [eauto|].
    destruct (Z.ltb_spec workers 0); [lia|]. eauto.
Qed.

Lemma countMatches_overflow_witness :
  countMatches {[ "chaos/acme/subdomains.txt" := overflow_file ]}
    "chaos/acme/subdomains.txt" (bytes_of "acme.com") = 1.
Proof.
  destruct (countMatches_overflow {[ "chaos/acme/subdomains.txt" := overflow_file ]}
    "chaos/acme/subdomains.txt" (bytes_of "acme.com")
    (line "www.acme.com") long_line ([newline] ++ line "api.acme.com")) as (Hcount & _).
  - apply lookup_singleton_eq.
  - right. by exists (bytes_of "www.acme.com").
  - intros Hin%elem_of_replicate_inv. discriminate Hin.
  - unfold long_line. rewrite length_replicate, Z2Nat.id; unfold maxTokenSize; lia.
  - rewrite Hcount. vm_compute; reflexivity.
Defined.

(** ** The index and the entry point *)

Lemma fetchIndex_frame {W : World} (create_ok : bool) (f : filesystem) (path : string) :
  path ≠ cacheFile → (fetchIndex create_ok f).1 !! path = f !! path.
Proof.
  intros Hne. unfold fetchIndex.
  destruct (http_Get indexURL) as [|code body body_err]; [done|].
  destruct create_ok; simpl; [|done].
  by rewrite !lookup_insert_ne.
Qed.

Lemma fetchIndex_response {W : World} (f : filesystem) (code : Z) (body : list byte)
    (body_err : bool) :
  http_Get indexURL = Response code body body_err →
  fetchIndex true f =
    (<[cacheFile := body]> f, if body_err then Some ErrBodyCopy else None).
Proof. intros Hget. unfold fetchIndex. rewrite Hget. simpl. by rewrite insert_insert_eq. Qed.

Lemma Main_cached {W : World} {K : Disk} {D : Decoder} (fl : flags) (create_ok : bool)
    (f : filesystem) :
  flag_refresh fl = false → fileExists cacheFile f = true →
  Main fl create_ok f =
    match loadIndex f with
    | inr e => (f, [MsgLoadErr e], Exit1)
    | inl programs =>
        if flag_list fl
        then (f, map (λ p, MsgName (Name p)) programs, Listed)
        else if negb (String.eqb (flag_dl fl) "")
        then (f, [], Download programs (flag_dl fl) (flag_w fl))
        else if negb (String.eqb (flag_q fl) "")
        then (f, [], Query (flag_q fl) (flag_w fl))
        else (f, [], Usage)
    end.
Proof.
  intros Hrefresh Hexists. unfold Main. rewrite Hrefresh, Hexists. simpl.
  by destruct (loadIndex f).
Qed.

(** X1: with index.json on disk, as a file or as anything else [os.Stat]
    finds, and no -refresh, [main] does not fetch the index: the file system
    is left as it is, nothing is printed about a fetch, and the outcome is
    the same whatever the remote side would answer and whether or not the
    cache file could be created.  Where index.json is there but is no file
    that can be read (a directory, say), the run ends in [os.Exit(1)] on the
    error of [loadIndex], still without a fetch. *)
Theorem Main_uses_cache {K : Disk} {D : Decoder} (fl : flags) (f : filesystem) :
  flag_refresh fl = false → fileExists cacheFile f = true →
  ∀ (W1 W2 : World) (c1 c2 : bool),
    Main (W := W1) fl c1 f = Main (W := W2) fl c2 f ∧
    (Main (W := W1) fl c1 f).1.1 = f ∧
    (MsgFetching ∉ (Main (W := W1) fl c1 f).1.2) ∧
    (f !! cacheFile = None →
     Main (W := W1) fl c1 f = (f, [MsgLoadErr ErrReadFile], Exit1)).
Proof.
  intros Hrefresh Hexists W1 W2 c1 c2.
  rewrite !Main_cached by done.
  split; [done|].
  unfold loadIndex. destruct (f !! cacheFile) as [data|]; simpl.
  - destruct (json_Unmarshal data) as [programs|]; simpl.
    + destruct (flag_list fl); simpl.
      * split; [done|]. split; [|done]. rewrite list_elem_of_fmap. by intros (p & Hp & _).
      * destruct (negb (String.eqb (flag_dl fl) "")); simpl;
          [split; [done|split; [apply not_elem_of_nil|done]]|].
        destruct (negb (String.eqb (flag_q fl) "")); simpl;
          (split; [done|split; [apply not_elem_of_nil|done]]).
    + split; [done|]. split; [|done]. rewrite list_elem_of_singleton. discriminate.
  - split; [done|]. split; [|done]. rewrite list_elem_of_singleton. discriminate.
Qed.

Lemma Main_uses_cache_witness :
  (let f : filesystem := {[ cacheFile := bytes_of "[acme,ghost]" ]} in
   Main (W := sample_world) (K := files_only) (D := sample_decoder)
        (mkFlags false "acme" "" false 4) true f =
   Main (W := error_page_world) (K := files_only) (D := sample_decoder)
        (mkFlags false "acme" "" false 4) false f) ∧
  Main (W := sample_world) (K := index_dir_disk) (D := sample_decoder)
       (mkFlags false "acme" "" false 4) true ∅ = (∅, [MsgLoadErr ErrReadFile], Exit1).
Proof.
  split.
  - intros f.
    assert (fileExists (K := files_only) cacheFile f = true) as Hexists
      by (vm_compute; reflexivity).
    exact (proj1 (Main_uses_cache (K := files_only) (D := sample_decoder)
                    (mkFlags false "acme" "" false 4) f
                    eq_refl Hexists sample_world error_page_world true false)).
  - assert (fileExists (K := index_dir_disk) cacheFile ∅ = true) as Hexists
      by (vm_compute; reflexivity).
    exact (proj2 (proj2 (proj2
             (Main_uses_cache (K := index_dir_disk) (D := sample_decoder)
                (mkFlags false "acme" "" false 4) ∅
                eq_refl Hexists sample_world sample_world true true))) eq_refl).
Defined.

(** X2: [fetchIndex] stores the body of whatever response arrives, without
    looking at the status code and also when the copy breaks off.  When the
    body is not a document the decoder accepts, this run ends in
    [os.Exit(1)], and so does every later run without -refresh: it finds
    the cache file, does not fetch again, and fails on the same content. *)
Theorem Main_keeps_bad_cache {W : World} {K : Disk} {D : Decoder} (fl : flags) (f : filesystem)
    (code : Z) (body : list byte) (body_err : bool) :
  http_Get indexURL = Response code body body_err →
  flag_refresh fl = true ∨ fileExists cacheFile f = false →
  json_Unmarshal body = None →
  (Main fl true f).1.1 = <[cacheFile := body]> f ∧
  (Main fl true f).2 = Exit1 ∧
  ∀ (W' : World) (fl' : flags) (create_ok : bool),
    flag_refresh fl' = false →
    Main (W := W') fl' create_ok (<[cacheFile := body]> f) =
      (<[cacheFile := body]> f, [MsgLoadErr ErrUnmarshal], Exit1).
Proof.
  intros Hget Hfetch Hbad.
  assert (loadIndex (<[cacheFile := body]> f) = inr ErrUnmarshal) as Hload.
  { unfold loadIndex. by rewrite lookup_insert_eq, Hbad. }
  assert (flag_refresh fl || negb (fileExists cacheFile f) = true) as Hcond.
  { destruct Hfetch as [-> | ->]; [done|]. by rewrite orb_true_r. }
  split; [|split].
  - unfold Main. rewrite Hcond, (fetchIndex_response _ _ _ _ Hget).
    destruct body_err; simpl; [done|]. by rewrite Hload.
  - unfold Main. rewrite Hcond, (fetchIndex_response _ _ _ _ Hget).
    destruct body_err; simpl; [done|]. by rewrite Hload.
  - intros W' fl' create_ok Hrefresh.
    rewrite Main_cached; [by rewrite Hload|done|].
    unfold fileExists. rewrite bool_decide_true; [done|]. rewrite lookup_insert_eq. eauto.
Qed.

Lemma Main_keeps_bad_cache_witness :
  (Main (W := error_page_world) (K := files_only) (D := sample_decoder)
        (mkFlags false "" "acme.com" false 4) true ∅).2 = Exit1 ∧
  (Main (W := sample_world) (K := files_only) (D := sample_decoder)
        (mkFlags false "" "acme.com" false 4) true
        {[ cacheFile := bytes_of "<html>busy</html>" ]}).2 = Exit1.
Proof.
  destruct (Main_keeps_bad_cache (W := error_page_world) (K := files_only) (D := sample_decoder)
              (mkFlags false "" "acme.com" false 4) ∅ 503 (bytes_of "<html>busy</html>") false)
    as (_ & Hfirst & Hlater);
    [vm_compute; reflexivity | right; vm_compute; reflexivity | vm_compute; reflexivity |].
  split; [exact Hfirst|].
  specialize (Hlater sample_world (mkFlags false "" "acme.com" false 4) true eq_refl).
  rewrite insert_empty in Hlater. by rewrite Hlater.
Defined.

(** X3: the switch of [main] takes the first case that applies: -list
    before -dl before -q, and the usage text only when none is given.
    Every case, the usage text included, is reached only with an index that
    has been read and decoded, and a download or a search is handed the
    decoded programs, the flag's value and the worker count unchanged. *)
Theorem Main_dispatch {W : World} {K : Disk} {D : Decoder} (fl : flags) (create_ok : bool)
    (f f' : filesystem) (msgs : list main_message) (cmd : command) :
  Main fl create_ok f = (f', msgs, cmd) →
  match cmd with
  | Exit1 => (∃ e, MsgFetchErr e ∈ msgs) ∨ (∃ e, loadIndex f' = inr e ∧ MsgLoadErr e ∈ msgs)
  | Listed =>
      flag_list fl = true ∧
      ∃ programs, loadIndex f' = inl programs ∧
                  omap (λ m, match m with MsgName n => Some n | _ => None end) msgs =
                    map Name programs
  | Download programs target workers =>
      flag_list fl = false ∧ target = flag_dl fl ∧ target ≠ "" ∧ workers = flag_w fl ∧
      loadIndex f' = inl programs
  | Query domain workers =>
      flag_list fl = false ∧ flag_dl fl = "" ∧ domain = flag_q fl ∧ domain ≠ "" ∧
      workers = flag_w fl ∧ ∃ programs, loadIndex f' = inl programs
  | Usage =>
      flag_list fl = false ∧ flag_dl fl = "" ∧ flag_q fl = "" ∧
      ∃ programs, loadIndex f' = inl programs
  end.
Proof.
  unfold Main. intros HM.
  assert (∀ names : list Program,
    omap (λ m, match m with MsgName n => Some n | _ => None end)
         (map (λ p, MsgName (Name p)) names) = map Name names) as Hnames.
  { intros names. induction names as [|p names IH]; simpl; [done|]. f_equal. exact IH. }
  destruct (flag_refresh fl || negb (fileExists cacheFile f)).
  - destruct (fetchIndex create_ok f) as [f1 [e|]]; simpl in HM.
    + inversion HM; subst. left. exists e. rewrite !elem_of_cons. auto.
    + destruct (loadIndex f1) as [programs|e] eqn:Hload.
      * destruct (flag_list fl) eqn:Hlist.
        { inversion HM; subst. split; [done|]. exists programs. split; [done|].
          simpl. apply Hnames. }
        destruct (String.eqb_spec (flag_dl fl) "") as [Hdl|Hdl]; simpl in HM.
        2:{ inversion HM; subst. done. }
        destruct (String.eqb_spec (flag_q fl) "") as [Hq|Hq]; simpl in HM.
        2:{ inversion HM; subst. eauto 10. }
        inversion HM; subst. eauto 10.
      * inversion HM; subst. right. exists e. split; [done|].
        simpl. rewrite !elem_of_cons. auto.
  - simpl in HM. destruct (loadIndex f) as [programs|e] eqn:Hload.
    + destruct (flag_list fl) eqn:Hlist.
      { inversion HM; subst. split; [done|]. exists programs. split; [done|]. apply Hnames. }
      destruct (String.eqb_spec (flag_dl fl) "") as [Hdl|Hdl]; simpl in HM.
      2:{ inversion HM; subst. done. }
      destruct (String.eqb_spec (flag_q fl) "") as [Hq|Hq]; simpl in HM.
      2:{ inversion HM; subst. eauto 10. }
      inversion HM; subst. eauto 10.
    + inversion HM; subst. right. exists e. split; [done|].
      rewrite list_elem_of_singleton. done.
Qed.

Lemma Main_dispatch_witness :
  Main (W := sample_world) (K := files_only) (D := sample_decoder)
       (mkFlags false "acme" "acme.com" true 4) true
       {[ cacheFile := bytes_of "[acme,ghost]" ]} =
    ({[ cacheFile := bytes_of "[acme,ghost]" ]}, [MsgName "acme"; MsgName "ghost"], Listed) ∧
  flag_list (mkFlags false "acme" "acme.com" true 4) = true.
Proof.
  assert (Main (W := sample_world) (K := files_only) (D := sample_decoder)
            (mkFlags false "acme" "acme.com" true 4) true
            {[ cacheFile := bytes_of "[acme,ghost]" ]} =
          ({[ cacheFile := bytes_of "[acme,ghost]" ]}, [MsgName "acme"; MsgName "ghost"], Listed))
    as Hrun by (vm_compute; reflexivity).
  split; [exact Hrun|].
  exact (proj1 (Main_dispatch _ _ _ _ _ _ Hrun)).
Defined.

(** ** Target selection *)

Lemma find_first {A} (P : A → bool) (l : list A) (x : A) :
  List.find P l = Some x →
  ∃ l1 l2, l = l1 ++ x :: l2 ∧ P x = true ∧ ∀ y, y ∈ l1 → P y = false.
Proof.
  induction l as [|a l IH]; simpl; [done|].
  destruct (P a) eqn:Ha.
  - intros [= ->]. exists [], l. split; [done|]. split; [done|].
    intros y Hy. by apply elem_of_nil in Hy.
  - intros (l1 & l2 & -> & Hx & Hl1)%IH. exists (a :: l1), l2.
    split; [done|]. split; [done|].
    intros y [->|Hy]%elem_of_cons; auto.
Qed.

Lemma find_none {A} (P : A → bool) (l : list A) :
  List.find P l = None ↔ ∀ y, y ∈ l → P y = false.
Proof.
  induction l as [|a l IH]; simpl.
  - split; [|done]. intros _ y Hy. by apply elem_of_nil in Hy.
  - destruct (P a) eqn:Ha.
    + split; [done|]. intros Hall. specialize (Hall a (list_elem_of_here _ _)). congruence.
    + rewrite IH. split.
      * intros Hall y [->|Hy]%elem_of_cons; auto.
      * intros Hall y Hy. apply Hall. by apply list_elem_of_further.
Qed.

(** X4: a target other than the word all selects at most one program: the
    first of the index whose name equals the target when case is ignored;
    later programs of that name are not selected.  The function takes the
    exit path exactly when no name of the index equals the target. *)
Theorem select_targets_first_match (programs : list Program) (target : string) :
  target ≠ "all" →
  (select_targets programs target = None ↔
     ∀ p, p ∈ programs → EqualFold (Name p) target = false) ∧
  (∀ toDownload,
     select_targets programs target = Some toDownload →
     ∃ p l1 l2,
       toDownload = [p] ∧ programs = l1 ++ p :: l2 ∧
       EqualFold (Name p) target = true ∧
       ∀ q, q ∈ l1 → EqualFold (Name q) target = false).
Proof.
  intros Hall. unfold select_targets.
  destruct (String.eqb_spec target "all") as [?|_]; [done|].
  destruct (List.find _ programs) as [p|] eqn:Hfind.
  - split.
    + split; [done|]. intros Hnone.
      apply find_first in Hfind as (l1 & l2 & -> & Hp & _).
      rewrite Hnone in Hp; [done|]. rewrite elem_of_app, elem_of_cons. auto.
    + intros toDownload [= <-].
      apply find_first in Hfind as (l1 & l2 & -> & Hp & Hl1). eauto 10.
  - split; [|done]. split; [|done]. intros _.
    by apply (find_none (λ p, EqualFold (Name p) target)).
Qed.

Lemma select_targets_first_match_witness :
  select_targets [ghost; mkProgram "Acme" "http://x/cut.zip" 1; acme] "ACME" =
    Some [mkProgram "Acme" "http://x/cut.zip" 1].
Proof.
  destruct (select_targets_first_match
              [ghost; mkProgram "Acme" "http://x/cut.zip" 1; acme] "ACME")
    as [_ Hsome]; [discriminate|].
  destruct (select_targets [ghost; mkProgram "Acme" "http://x/cut.zip" 1; acme] "ACME")
    as [toDownload|] eqn:Hsel; [|vm_compute in Hsel; discriminate Hsel].
  destruct (Hsome toDownload eq_refl) as (p & l1 & l2 & -> & _).
  vm_compute in Hsel. inversion Hsel. reflexivity.
Defined.

(** X5: the target is matched without regard to case, the word all alone
    is matched exactly.  For names and targets in ASCII: two targets that
    are equal when case is ignored and are not the word all select the same
    programs; and the word all selects the whole index, also when the index
    is empty (no exit). *)
Theorem select_targets_fold (programs : list Program) (t1 t2 : string) :
  ascii_only (bytes_of t1) = true → ascii_only (bytes_of t2) = true →
  Forall (λ p, ascii_only (bytes_of (Name p)) = true) programs →
  EqualFold t1 t2 = true → t1 ≠ "all" → t2 ≠ "all" →
  select_targets programs t1 = select_targets programs t2 ∧
  select_targets programs "all" = Some programs.
Proof.
  intros _ _ _ Hfold H1 H2. split; [|done].
  unfold select_targets.
  destruct (String.eqb_spec t1 "all") as [?|_]; [done|].
  destruct (String.eqb_spec t2 "all") as [?|_]; [done|].
  assert (∀ p, EqualFold (Name p) t1 = EqualFold (Name p) t2) as Hsame.
  { intros p. unfold EqualFold in *. apply bool_decide_eq_true in Hfold.
    by rewrite Hfold. }
  replace (List.find (λ p, EqualFold (Name p) t1) programs)
    with (List.find (λ p, EqualFold (Name p) t2) programs); [done|].
  induction programs as [|p programs IH]; simpl; [done|].
  by rewrite Hsame, IH.
Qed.

Lemma select_targets_fold_witness :
  select_targets sample_targets "Acme" = select_targets sample_targets "ACME" ∧
  select_targets sample_targets "ALL" = None.
Proof.
  split; [|vm_compute; reflexivity].
  apply (select_targets_fold sample_targets "Acme" "ACME");
    [vm_compute; reflexivity | vm_compute; reflexivity
    | unfold sample_targets; repeat constructor
    | vm_compute; reflexivity | discriminate | discriminate].
Defined.

(** ** The Archive Fetcher *)

Lemma downloadZip_error {W : World} (p : Program) (tmp : option nat)
    (f f' : filesystem) (zp : string) (e : error) :
  tmp_fresh tmp f = true →
  downloadZip p tmp f = (f', (zp, Some e)) → f' = f ∧ zp = "".
Proof.
  unfold downloadZip, tmp_fresh. intros Hfresh Hdl.
  destruct (http_Get (URL p)) as [|code body body_err]; [by inversion Hdl; subst|].
  destruct (Z.eqb_spec code 200) as [->|Hcode]; simpl in Hdl; [|by inversion Hdl; subst].
  destruct tmp as [n|]; [|by inversion Hdl; subst].
  apply bool_decide_eq_true in Hfresh.
  destruct body_err; inversion Hdl; subst.
  split; [|done]. rewrite insert_insert_eq. by apply delete_insert_id.
Qed.

Lemma downloadZip_ok {W : World} (p : Program) (tmp : option nat)
    (f f' : filesystem) (zp : string) :
  downloadZip p tmp f = (f', (zp, None)) →
  ∃ n body, tmp = Some n ∧ zp = tmp_path n ∧
            http_Get (URL p) = Response 200 body false ∧
            f' = <[tmp_path n := body]> f.
Proof.
  unfold downloadZip. intros Hdl.
  destruct (http_Get (URL p)) as [|code body body_err]; [by inversion Hdl|].
  destruct (Z.eqb_spec code 200) as [->|Hcode]; simpl in Hdl; [|by inversion Hdl].
  destruct tmp as [n|]; [|by inversion Hdl].
  destruct body_err; inversion Hdl; subst.
  exists n, body. by rewrite insert_insert_eq.
Qed.

(** X6: [downloadZip] is all or nothing.  When the name of the temporary
    file is new, a call that returns an error leaves the file system as it
    was and returns the empty path (also when the copy of the body fails:
    the file is removed again); a call that returns no error had a response
    with status 200, and the file system differs only by the temporary file,
    which holds the body. *)
Theorem downloadZip_all_or_nothing {W : World} (p : Program) (tmp : option nat)
    (f f' : filesystem) (zp : string) (e : option error) :
  tmp_fresh tmp f = true →
  downloadZip p tmp f = (f', (zp, e)) →
  match e with
  | Some _ => f' = f ∧ zp = ""
  | None => ∃ n body, tmp = Some n ∧ zp = tmp_path n ∧
                      http_Get (URL p) = Response 200 body false ∧
                      f' = <[tmp_path n := body]> f
  end.
Proof.
  intros Hfresh Hdl. destruct e as [e|].
  - by eapply downloadZip_error.
  - by eapply downloadZip_ok.
Qed.

Lemma downloadZip_all_or_nothing_witness :
  downloadZip (W := sample_world) (mkProgram "cut" "http://x/cut.zip" 1) (Some 0%nat) ∅ =
    (∅, ("", Some ErrBodyCopy)) ∧
  ∃ n body,
    Some 0%nat = Some n ∧ tmp_path 0 = tmp_path n ∧
    http_Get (World := sample_world) (URL acme) = Response 200 body false ∧
    ({[ tmp_path 0 := bytes_of "PK-acme" ]} : filesystem) = <[tmp_path n := body]> ∅.
Proof.
  assert (tmp_fresh (Some 0%nat) (∅ : filesystem) = true) as Hfresh
    by (vm_compute; reflexivity).
  assert (downloadZip (W := sample_world) (mkProgram "cut" "http://x/cut.zip" 1)
            (Some 0%nat) ∅ = (∅, ("", Some ErrBodyCopy))) as Hcut
    by (vm_compute; reflexivity).
  assert (downloadZip (W := sample_world) acme (Some 0%nat) ∅ =
            ({[ tmp_path 0 := bytes_of "PK-acme" ]}, (tmp_path 0, None))) as Hacme
    by (vm_compute; reflexivity).
  split; [exact Hcut|].
  exact (downloadZip_all_or_nothing (W := sample_world) _ _ _ _ _ _ Hfresh Hacme).
Defined.

(** ** The Archive Extractor, continued *)

Lemma copy_members_app (c : bool) (l1 l2 : list zfile) (w : list byte) :
  Forall (λ x, is_text_member x = true → ∃ d, zopen x = Some (d, false) ∧ c = false) l1 →
  copy_members c (l1 ++ l2) w = copy_members c l2 (w ++ spec_consolidated l1).
Proof.
  revert w. induction l1 as [|x l1 IH]; intros w Hall; simpl.
  - by rewrite app_nil_r.
  - apply Forall_cons in Hall as [Hx Hall].
    rewrite skip_test_spec. unfold spec_consolidated. simpl.
    destruct (is_text_member x) eqn:Htext; simpl.
    + destruct (Hx eq_refl) as (d & Hopen & ->). rewrite Hopen.
      rewrite IH by done. unfold spec_consolidated, member_stream at 2.
      rewrite Hopen. by rewrite app_assoc.
    + by rewrite IH.
Qed.

Lemma unzip_lookup_ne {W : World} (create_ok : bool) (src dest path : string)
    (f : filesystem) :
  path ≠ Join dest outName → (unzip create_ok src dest f).1 !! path = f !! path.
Proof.
  intros Hne. unfold unzip.
  destruct (f !! src ≫= zip_OpenReader) as [files|]; [|done].
  destruct create_ok; simpl; [|done].
  destruct (copy_members _ files []) as [w e]. simpl.
  by rewrite !lookup_insert_ne.
Qed.

(** X7: [unzip] writes the consolidated file and nothing else: every other
    file, the archive included, holds after the call what it held before,
    whatever the call returns; and when the archive cannot be opened or the
    output file cannot be created, nothing changes at all.  The consolidated
    file is the one at the cleaned path [Join dest outName], and the other
    files are taken by their cleaned paths. *)
Theorem unzip_frame {W : World} (create_ok : bool) (src dest : string) (f : filesystem) :
  (∀ path, Clean path = path → path ≠ Join dest outName →
     (unzip create_ok src dest f).1 !! path = f !! path) ∧
  (f !! src ≫= zip_OpenReader = None ∨ create_ok = false →
     (unzip create_ok src dest f).1 = f ∧ (unzip create_ok src dest f).2 ≠ None).
Proof.
  split.
  - intros path _ Hne. by apply unzip_lookup_ne.
  - unfold unzip. intros Hearly.
    destruct (f !! src ≫= zip_OpenReader) as [files|]; [|done].
    destruct Hearly as [?| ->]; done.
Qed.

(** X8: an extraction that fails half way leaves a cut file behind.  When
    the first member that cannot be opened or read comes after members that
    were copied, [unzip] returns the error and the consolidated file holds
    what was written up to there: the members before it, and the bytes the
    failing member delivered.  The content of an earlier run is gone. *)
Theorem unzip_partial_output {W : World} (src dest : string) (f : filesystem)
    (l1 l2 : list zfile) (m : zfile) :
  f !! src ≫= zip_OpenReader = Some (l1 ++ m :: l2) →
  src ≠ Join dest outName →
  Forall (λ x, is_text_member x = true → ∃ d, zopen x = Some (d, false)) l1 →
  is_text_member m = true →
  (zopen m = None →
   unzip true src dest f =
     (<[Join dest outName := spec_consolidated l1]> f, Some ErrFileOpen)) ∧
  (∀ d, zopen m = Some (d, true) →
   unzip true src dest f =
     (<[Join dest outName := spec_consolidated l1 ++ d]> f, Some ErrFileCopy)).
Proof.
  intros Hopen Hsrc Hl1 Hm.
  assert (Forall (λ x, is_text_member x = true →
                       ∃ d, zopen x = Some (d, false) ∧
                            bool_decide (src = Join dest outName) = false) l1) as Hl1'.
  { eapply Forall_impl; [exact Hl1|]. intros x Hx Htext.
    destruct (Hx Htext) as (d & Hd). exists d. split; [done|].
    by apply bool_decide_eq_false. }
  pose proof (skip_test_spec m) as Hskip. rewrite Hm in Hskip. simpl in Hskip.
  split.
  - intros Hnone. unfold unzip. rewrite Hopen. simpl.
    rewrite (copy_members_app _ _ _ _ Hl1'). simpl.
    rewrite Hskip, Hnone. rewrite bool_decide_false by done. simpl.
    by rewrite insert_insert_eq.
  - intros d Hd. unfold unzip. rewrite Hopen. simpl.
    rewrite (copy_members_app _ _ _ _ Hl1'). simpl.
    rewrite Hskip, Hd. rewrite bool_decide_false by done. simpl.
    by rewrite insert_insert_eq.
Qed.

Lemma unzip_partial_output_witness :
  let cut : World :=
    {| http_Get := sample_http;
       zip_OpenReader := λ _, Some [ mkZfile "a.txt" false (Some (line "sub1.acme.com", false));
                                     mkZfile "b.txt" false (Some (bytes_of "sub2.ac", true));
                                     mkZfile "c.txt" false (Some (line "sub3.acme.com", false)) ] |} in
  let f : filesystem :=
    <[tmp_path 0 := bytes_of "PK"]> {[ "chaos/acme/subdomains.txt" := line "old.acme.com" ]} in
  unzip (W := cut) true (tmp_path 0) "chaos/acme" f =
    (<["chaos/acme/subdomains.txt" := line "sub1.acme.com" ++ bytes_of "sub2.ac"]> f,
     Some ErrFileCopy).
Proof.
  intros cut f.
  destruct (unzip_partial_output (W := cut) (tmp_path 0) "chaos/acme" f
              [mkZfile "a.txt" false (Some (line "sub1.acme.com", false))]
              [mkZfile "c.txt" false (Some (line "sub3.acme.com", false))]
              (mkZfile "b.txt" false (Some (bytes_of "sub2.ac", true)))) as [_ Hcopy].
  - vm_compute; reflexivity.
  - vm_compute. discriminate.
  - constructor; [|constructor]. intros _. eexists. reflexivity.
  - vm_compute; reflexivity.
  - exact (Hcopy (bytes_of "sub2.ac") eq_refl).
Defined.

(** ** The search, continued *)

(** *** Case *)

Lemma lower_byte_idem (b : byte) : lower_byte (lower_byte b) = lower_byte b.
Proof. destruct b; vm_compute; reflexivity. Qed.

Lemma lower_byte_newline (b : byte) : Byte.eqb (lower_byte b) newline = Byte.eqb b newline.
Proof. destruct b; vm_compute; reflexivity. Qed.

Lemma lower_byte_carriage_return (b : byte) :
  Byte.eqb (lower_byte b) carriage_return = Byte.eqb b carriage_return.
Proof. destruct b; vm_compute; reflexivity. Qed.

Lemma ToLower_idem (l : list byte) : ToLower (ToLower l) = ToLower l.
Proof.
  unfold ToLower. rewrite map_map. apply map_ext. intros b. apply lower_byte_idem.
Qed.

Lemma ToLower_app (l1 l2 : list byte) : ToLower (l1 ++ l2) = ToLower l1 ++ ToLower l2.
Proof. apply map_app. Qed.

Lemma length_ToLower (l : list byte) : length (ToLower l) = length l.
Proof. apply length_map. Qed.

Lemma raw_lines_ToLower (data : list byte) :
  raw_lines (ToLower data) = map ToLower (raw_lines data).
Proof.
  induction data as [|b data IH]; [done|].
  change (ToLower (b :: data)) with (lower_byte b :: ToLower data).
  simpl. rewrite lower_byte_newline, IH.
  destruct (Byte.eqb b newline); [done|]. by destruct (raw_lines data).
Qed.

Lemma dropCR_snoc (l : list byte) (b : byte) :
  dropCR (l ++ [b]) = if Byte.eqb b carriage_return then l else l ++ [b].
Proof.
  unfold dropCR. rewrite reverse_snoc.
  destruct (Byte.eqb b carriage_return); [|done]. apply reverse_involutive.
Qed.

Lemma dropCR_ToLower (l : list byte) : dropCR (ToLower l) = ToLower (dropCR l).
Proof.
  destruct l as [|b l _] using rev_ind; [done|].
  rewrite ToLower_app. change (ToLower [b]) with [lower_byte b].
  rewrite !dropCR_snoc, lower_byte_carriage_return.
  destruct (Byte.eqb b carriage_return); [done|]. by rewrite ToLower_app.
Qed.

Lemma take_while_map {A B} (f : B → bool) (g : A → B) (l : list A) :
  take_while f (map g l) = map g (take_while (λ x, f (g x)) l).
Proof.
  induction l as [|x l IH]; simpl; [done|]. destruct (f (g x)); simpl; [by rewrite IH|done].
Qed.

Lemma scan_tokens_ToLower (max : Z) (data : list byte) :
  scan_tokens max (ToLower data) = map ToLower (scan_tokens max data).
Proof.
  unfold scan_tokens. rewrite raw_lines_ToLower, take_while_map.
  induction (raw_lines data) as [|l ls IH]; simpl; [done|].
  rewrite length_ToLower.
  destruct (_ <? _); simpl; [|done]. by rewrite dropCR_ToLower, IH.
Qed.

Lemma count_loop_ToLower (domain : list byte) (tokens : list (list byte)) :
  count_loop domain (map ToLower tokens) = count_loop domain tokens.
Proof.
  rewrite !count_loop_filter. f_equal.
  induction tokens as [|l ls IH]; simpl; [done|].
  rewrite ToLower_idem. destruct (Contains (ToLower l) domain); simpl; by rewrite IH.
Qed.

(** X9: the search ignores case on both sides, for text in ASCII.
    [countMatches] gives the same count for a file and for the file with
    its letters in lower case, and [parallelQuery] gives the same result
    for two domains that are equal when their letters are put in lower
    case. *)
Theorem search_ignores_case (f : filesystem) (path : string) (data domain : list byte) :
  ascii_only data = true →
  countMatches (<[path := ToLower data]> f) path domain =
    countMatches (<[path := data]> f) path domain ∧
  ∀ entries domain' workers sched,
    ascii_only domain = true → ascii_only domain' = true →
    ToLower domain' = ToLower domain →
    parallelQuery_sched entries f domain' workers sched =
      parallelQuery_sched entries f domain workers sched.
Proof.
  intros _. split.
  - unfold countMatches. rewrite !lookup_insert_eq.
    by rewrite scan_tokens_ToLower, count_loop_ToLower.
  - intros entries domain' workers sched _ _ Hlow. unfold parallelQuery_sched.
    by rewrite Hlow.
Qed.

Lemma search_ignores_case_witness :
  countMatches (<["chaos/acme/subdomains.txt" := ToLower (line "Sub1.ACME.com")]> ∅)
               "chaos/acme/subdomains.txt" (bytes_of "acme.com") =
  countMatches (<["chaos/acme/subdomains.txt" := line "Sub1.ACME.com"]> ∅)
               "chaos/acme/subdomains.txt" (bytes_of "acme.com").
Proof.
  assert (ascii_only (line "Sub1.ACME.com") = true) as Hascii by (vm_compute; reflexivity).
  exact (proj1 (search_ignores_case ∅ "chaos/acme/subdomains.txt" (line "Sub1.ACME.com")
                  (bytes_of "acme.com") Hascii)).
Defined.

Lemma has_prefix_elem (s p : list byte) (b : byte) :
  has_prefix s p = true → b ∈ p → b ∈ s.
Proof.
  revert s. induction p as [|c p IH]; intros s Hpre Hb; [by apply elem_of_nil in Hb|].
  destruct s as [|d s]; [done|]. simpl in Hpre.
  apply andb_prop in Hpre as [Hcd Hpre]. apply Byte.byte_dec_bl in Hcd. subst d.
  apply elem_of_cons in Hb as [->|Hb]; [apply list_elem_of_here|].
  apply list_elem_of_further. by apply IH.
Qed.

Lemma Contains_elem (s sub : list byte) (b : byte) :
  Contains s sub = true → b ∈ sub → b ∈ s.
Proof.
  induction s as [|d s IH]; simpl; intros Hc Hb.
  - rewrite orb_false_r in Hc. by eapply has_prefix_elem.
  - apply orb_prop in Hc as [Hc|Hc]; [by eapply has_prefix_elem|].
    apply list_elem_of_further. by apply IH.
Qed.

Lemma filter_none_length {A} (P : A → bool) (l : list A) :
  (∀ x, x ∈ l → P x = false) → length (List.filter P l) = 0%nat.
Proof.
  induction l as [|x l IH]; intros Hall; simpl; [done|].
  rewrite (Hall x (list_elem_of_here _ _)). apply IH.
  intros y Hy. apply Hall. by apply list_elem_of_further.
Qed.

(** X10: [countMatches] itself does not fold the domain: it compares the
    lower-cased line with the domain as given, so a domain that holds an
    upper-case letter matches no line of any file.  ([parallelQuery] puts
    the domain in lower case before the workers start.) *)
Theorem countMatches_upper_domain (f : filesystem) (path : string) (domain : list byte)
    (b : byte) :
  b ∈ domain → lower_byte b ≠ b → countMatches f path domain = 0.
Proof.
  intros Hb Hupper. unfold countMatches. destruct (f !! path) as [data|]; [|done].
  rewrite count_loop_filter, filter_none_length; [done|].
  intros l _. destruct (Contains (ToLower l) domain) eqn:Hc; [|done].
  pose proof (Contains_elem _ _ b Hc Hb) as Hin.
  unfold ToLower in Hin. apply list_elem_of_In, in_map_iff in Hin as (c & Hc' & _).
  exfalso. apply Hupper. by rewrite <- Hc', lower_byte_idem.
Qed.

Lemma countMatches_upper_domain_witness :
  countMatches sample_corpus "chaos/q/subdomains.txt" (bytes_of "Acme.com") = 0 ∧
  countMatches sample_corpus "chaos/q/subdomains.txt" (ToLower (bytes_of "Acme.com")) = 5.
Proof.
  split; [|vm_compute; reflexivity].
  apply (countMatches_upper_domain _ _ _ "A"%byte).
  - vm_compute. apply list_elem_of_here.
  - vm_compute. discriminate.
Defined.

(** *** Lines and concatenation *)

Lemma take_while_app_all {A} (f : A → bool) (l r : list A) :
  forallb f l = true → take_while f (l ++ r) = l ++ take_while f r.
Proof.
  induction l as [|x l IH]; simpl; [done|].
  intros [-> Hl]%andb_prop. by rewrite IH.
Qed.

Lemma count_loop_app (domain : list byte) (t1 t2 : list (list byte)) :
  count_loop domain (t1 ++ t2) = count_loop domain t1 + count_loop domain t2.
Proof.
  rewrite !count_loop_filter, List.filter_app, length_app. lia.
Qed.

Lemma scan_tokens_app (a b : list byte) :
  complete_lines a → short_lines a = true →
  scan_tokens maxTokenSize (a ++ b) =
    scan_tokens maxTokenSize a ++ scan_tokens maxTokenSize b.
Proof.
  intros Hcomplete Hshort. unfold scan_tokens, short_lines in *.
  rewrite (raw_lines_app_complete a b Hcomplete).
  rewrite take_while_app_all by done.
  rewrite <- (app_nil_r (raw_lines a)) at 2.
  rewrite (take_while_app_all _ _ [] Hshort). simpl.
  by rewrite app_nil_r, map_app.
Qed.

Lemma complete_lines_app (a b : list byte) :
  complete_lines a → complete_lines b → complete_lines (a ++ b).
Proof.
  intros Ha [->|[p ->]]; [by rewrite app_nil_r|].
  right. exists (a ++ p). by rewrite app_assoc.
Qed.

Lemma short_lines_app (a b : list byte) :
  complete_lines a → short_lines a = true → short_lines b = true →
  short_lines (a ++ b) = true.
Proof.
  intros Hcomplete Ha Hb. unfold short_lines in *.
  rewrite (raw_lines_app_complete a b Hcomplete), forallb_app. by rewrite Ha, Hb.
Qed.

Lemma count_concat (domain : list byte) (streams : list (list byte)) :
  Forall (λ d, complete_lines d ∧ short_lines d = true) streams →
  complete_lines (concat streams) ∧ short_lines (concat streams) = true ∧
  count_loop domain (scan_tokens maxTokenSize (concat streams)) =
    foldr Z.add 0 (map (λ d, count_loop domain (scan_tokens maxTokenSize d)) streams).
Proof.
  induction 1 as [|d streams [Hc Hs] _ (IHc & IHs & IH)]; simpl.
  - split; [by left|]. done.
  - split; [by apply complete_lines_app|].
    split; [by apply short_lines_app|].
    by rewrite scan_tokens_app, count_loop_app, IH.
Qed.

Lemma unzip_ok_inv {W : World} (create_ok : bool) (src dest : string) (f f' : filesystem) :
  unzip create_ok src dest f = (f', None) →
  ∃ files,
    f !! src ≫= zip_OpenReader = Some files ∧ create_ok = true ∧
    f' = <[Join dest outName := spec_consolidated files]> f.
Proof.
  intros Hrun. unfold unzip in Hrun.
  destruct (f !! src ≫= zip_OpenReader) as [files|] eqn:Hopen; [|done].
  exists files. split; [done|].
  destruct create_ok; simpl in Hrun; [|done]. split; [done|].
  destruct (copy_members _ files []) as [w e] eqn:Hloop.
  inversion Hrun; subst f' e.
  apply copy_members_ok in Hloop as [-> _]. by rewrite insert_insert_eq.
Qed.

(** X11: extraction and counting compose.  After a successful [unzip] of
    an archive whose text members all end with a newline and have no line
    too long for the scan buffer, [countMatches] on the consolidated file
    is the sum of the counts of the members: no line is lost or joined
    where two members meet. *)
Theorem unzip_then_countMatches {W : World} (create_ok : bool) (src dest : string)
    (f f' : filesystem) (files : list zfile) (domain : list byte) :
  unzip create_ok src dest f = (f', None) →
  f !! src ≫= zip_OpenReader = Some files →
  Forall (λ m, complete_lines (member_stream m) ∧ short_lines (member_stream m) = true)
         (List.filter is_text_member files) →
  countMatches f' (Join dest outName) domain =
    foldr Z.add 0
      (map (λ m, count_loop domain (scan_tokens maxTokenSize (member_stream m)))
           (List.filter is_text_member files)).
Proof.
  intros Hrun Hopen Hall.
  apply unzip_ok_inv in Hrun as (files' & Hopen' & _ & ->).
  rewrite Hopen in Hopen'. inversion Hopen'; subst files'.
  unfold countMatches. rewrite lookup_insert_eq. unfold spec_consolidated.
  destruct (count_concat domain (map member_stream (List.filter is_text_member files)))
    as (_ & _ & ->).
  - by apply Forall_map.
  - by rewrite map_map.
Qed.

Lemma unzip_then_countMatches_witness :
  let f : filesystem := {[ tmp_path 0 := bytes_of "PK-acme" ]} in
  countMatches (unzip (W := sample_world) true (tmp_path 0) "chaos/acme" f).1
    "chaos/acme/subdomains.txt" (bytes_of "sub2") = 1.
Proof.
  intros f.
  destruct (unzip (W := sample_world) true (tmp_path 0) "chaos/acme" f) as [f' e] eqn:Hrun.
  assert (e = None) as ->.
  { apply (f_equal snd) in Hrun. vm_compute in Hrun. by inversion Hrun. }
  simpl.
  change "chaos/acme/subdomains.txt" with (Join "chaos/acme" outName).
  rewrite (unzip_then_countMatches (W := sample_world) true (tmp_path 0) "chaos/acme" f f'
             acme_members (bytes_of "sub2") Hrun).
  - vm_compute; reflexivity.
  - vm_compute; reflexivity.
  - assert (List.filter is_text_member acme_members =
            [ mkZfile "a.txt" false (Some (line "sub1.acme.com", false));
              mkZfile "b.txt" false (Some (line "sub2.acme.com", false)) ]) as ->
      by (vm_compute; reflexivity).
    constructor; [|constructor; [|constructor]].
    + split; [right; by exists (bytes_of "sub1.acme.com")|vm_compute; reflexivity].
    + split; [right; by exists (bytes_of "sub2.acme.com")|vm_compute; reflexivity].
Defined.

(** X12: a complete run of the search with at least one worker prints the
    whole content of one discovered file with the greatest number of
    matching lines, whatever the schedule; it prints nothing exactly when
    no discovered file has a matching line.  So when one file has more
    matching lines than every other, the output is its content under every
    schedule. *)
Theorem parallelQuery_prints_best (entries : list dirent) (f : filesystem)
    (domain : list byte) (workers : Z) (sched : list qaction) (out : query_outcome) :
  0 < workers →
  parallelQuery_sched entries f domain workers sched = Some out →
  (((∀ path, path ∈ walk_files entries → countMatches f path (ToLower domain) = 0) ∧
    out = QueryReturn []) ∨
   (∃ top data,
      top ∈ walk_files entries ∧ f !! top = Some data ∧ out = QueryReturn data ∧
      0 < countMatches f top (ToLower domain) ∧
      ∀ path, path ∈ walk_files entries →
        countMatches f path (ToLower domain) ≤ countMatches f top (ToLower domain))) ∧
  (∀ top data,
     top ∈ walk_files entries → f !! top = Some data →
     0 < countMatches f top (ToLower domain) →
     (∀ path, path ∈ walk_files entries → path ≠ top →
        countMatches f path (ToLower domain) < countMatches f top (ToLower domain)) →
     out = QueryReturn data).
Proof.
  intros Hw Hrun.
  assert (((∀ path, path ∈ walk_files entries → countMatches f path (ToLower domain) = 0) ∧
           out = QueryReturn []) ∨
          (∃ top data,
             top ∈ walk_files entries ∧ f !! top = Some data ∧ out = QueryReturn data ∧
             0 < countMatches f top (ToLower domain) ∧
             ∀ path, path ∈ walk_files entries →
               countMatches f path (ToLower domain) ≤ countMatches f top (ToLower domain)))
    as Hbest.
  2:{ split; [exact Hbest|].
      intros top data Htop Hdata Hpos Hstrict.
      destruct Hbest as [[Hnone _]|(top' & data' & Htop' & Hdata' & -> & _ & Hmax)].
      - rewrite (Hnone top Htop) in Hpos. lia.
      - destruct (decide (top' = top)) as [->|Hne]; [congruence|].
        specialize (Hstrict top' Htop' Hne). specialize (Hmax top Htop). lia. }
  destruct (parallelQuery_sched_refines _ _ _ _ _ _ Hrun) as (order & Horder & ->).
  unfold completion_order in Horder. unfold parallelQuery.
  case_bool_decide as Hlen.
  { left. split; [|done]. intros path Hin.
    apply length_zero_iff_nil in Hlen. rewrite Hlen in Hin. by apply elem_of_nil in Hin. }
  destruct (Z.ltb_spec workers 0) as [?|_]; [lia|].
  assert (∀ path, path ∈ walk_files entries →
            0 < countMatches f path (ToLower domain) →
            mkQueryResult path (countMatches f path (ToLower domain)) ∈
              arrivals f (ToLower domain) workers order) as Hhit.
  { intros path Hin Hpos. unfold arrivals.
    destruct (Z.eqb_spec workers 0) as [?|_]; [lia|].
    apply list_elem_of_In, in_flat_map. exists path. split.
    - apply list_elem_of_In. by rewrite Horder.
    - rewrite (query_worker_count _ _ _ _ eq_refl Hpos). by left. }
  destruct (arrivals f (ToLower domain) workers order) as [|h0 arr0] eqn:Harr.
  - left. split; [|done]. intros path Hin.
    pose proof (countMatches_nonneg f path (ToLower domain)) as Hge.
    destruct (decide (countMatches f path (ToLower domain) = 0)) as [|Hnz]; [done|].
    exfalso. eapply elem_of_nil, (Hhit path Hin). lia.
  - right. rewrite <- Harr in *.
    assert (∀ h, h ∈ arrivals f (ToLower domain) workers order →
              file h ∈ walk_files entries ∧
              matchCount h = countMatches f (file h) (ToLower domain) ∧
              0 < matchCount h) as Hhits.
    { intros h (Hin & Hc & Hp)%arrivals_hit. by rewrite Horder in Hin. }
    destruct (find_best_first_max (arrivals f (ToLower domain) workers order))
      as (l1 & l2 & Hsplit & Hl1 & Hl2).
    { rewrite Harr. done. }
    { intros h Hh. by apply Hhits. }
    set (top := find_best (arrivals f (ToLower domain) workers order)) in *.
    assert (top ∈ arrivals f (ToLower domain) workers order) as Htop.
    { rewrite Hsplit, elem_of_app, elem_of_cons. auto. }
    destruct (Hhits top Htop) as (Hin & Hcount & Hpos).
    destruct (countMatches_pos_open f (file top) (ToLower domain)) as [data Hdata]; [lia|].
    exists (file top), data. split; [done|]. split; [done|].
    split.
    { unfold emit. apply walk_files_path in Hin as [_ Hne].
      destruct (String.eqb_spec (file top) "") as [?|_]; [done|]. by rewrite Hdata. }
    split; [lia|].
    intros path Hpath.
    pose proof (countMatches_nonneg f path (ToLower domain)) as Hge.
    destruct (decide (countMatches f path (ToLower domain) = 0)) as [->|Hnz]; [lia|].
    assert (0 < countMatches f path (ToLower domain)) as Hp by lia.
    pose proof (Hhit path Hpath Hp) as Hmem.
    rewrite Hsplit, elem_of_app, elem_of_cons in Hmem.
    rewrite <- Hcount.
    destruct Hmem as [Hmem|[Hmem|Hmem]].
    + apply Hl1 in Hmem. simpl in Hmem. lia.
    + rewrite <- Hmem. simpl. lia.
    + apply Hl2 in Hmem. simpl in Hmem. lia.
Qed.

Lemma parallelQuery_prints_best_witness :
  parallelQuery_sched sample_entries sample_corpus (bytes_of "Acme.com") 2
    sample_query_schedule = Some (QueryReturn five_hits_x) ∧
  countMatches sample_corpus "chaos/q/subdomains.txt" (bytes_of "acme.com") = 5.
Proof.
  assert (parallelQuery_sched sample_entries sample_corpus (bytes_of "Acme.com") 2
            sample_query_schedule = Some (QueryReturn five_hits_x)) as Hrun
    by (vm_compute; reflexivity).
  split; [exact Hrun|].
  destruct (parallelQuery_prints_best _ _ _ 2 _ _ ltac:(lia) Hrun)
    as [[[Hnone _]|(top & data & Hin & Hdata & Hout & Hpos & Hmax)] _].
  - specialize (Hnone "chaos/q/subdomains.txt").
    vm_compute in Hnone. discriminate Hnone. repeat constructor.
  - vm_compute; reflexivity.
Defined.

(** X13: with a worker count of 0 the search finds nothing: the driver
    gets past its loop (here after two moves), and every complete run
    prints nothing, also when discovered files have matching lines. *)
Theorem parallelQuery_no_workers (entries : list dirent) (f : filesystem)
    (domain : list byte) :
  parallelQuery_sched entries f domain 0 [QAClose; QAReduce] = Some (QueryReturn []) ∧
  ∀ sched out,
    parallelQuery_sched entries f domain 0 sched = Some out → out = QueryReturn [].
Proof.
  split.
  - unfold parallelQuery_sched. by case_bool_decide.
  - intros sched out Hrun.
    destruct (parallelQuery_sched_refines _ _ _ _ _ _ Hrun) as (order & _ & ->).
    unfold parallelQuery. by case_bool_decide.
Qed.

(** ** Progress and termination of the search *)



Lemma q_bound_inv_step (f : filesystem) (domain : list byte) (files : list string)
    (workers : nat) (s s' : qstate) (ev : list string) (a : qaction) :
  q_bound_inv files workers s → qstep f domain s a = Some (s', ev) →
  q_bound_inv files workers s'.
Proof.
  intros (Hcj & Hcr & Hroom & Hfed) [Hmain Hstep]%qstep_dispatch.
  unfold q_bound_inv.
  invert_qdispatch Hstep; use_chan; simpl in *;
    repeat match goal with
           | H : buf _ = _ :: _ |- _ => rewrite H in *; clear H
           | H : q_feeder _ = _ |- _ => rewrite H in *
           | H : cap _ = cap _ |- _ => rewrite H in *; clear H
           | H : closed _ = closed _ |- _ => rewrite H in *; clear H
           end;
    simpl in *; rewrite ?length_app in *; simpl in *;
    repeat split; try done; try lia; auto.
Qed.

Lemma q_bound_inv_init (files : list string) (workers : nat) :
  q_bound_inv files workers (q_init files workers).
Proof. unfold q_bound_inv. simpl. repeat split; try done; lia. Qed.

Lemma q_invs_run (f : filesystem) (domain : list byte) (files : list string)
    (workers : nat) (sched : list qaction) (s : qstate) (fin : list string) :
  qrun f domain (q_init files workers) sched = Some (s, fin) →
  query_inv f domain files workers s fin ∧ q_bound_inv files workers s.
Proof.
  intros Hrun. split.
  - exact (query_inv_run f domain files workers sched _ s [] fin
             (query_inv_init _ _ _ _) Hrun).
  - assert (∀ sched s0 s1 fin1,
              q_bound_inv files workers s0 → qrun f domain s0 sched = Some (s1, fin1) →
              q_bound_inv files workers s1) as Hgen.
    { clear. intros sched. induction sched as [|a sched IH]; intros s0 s1 fin1 Hinv Hrun;
        simpl in Hrun.
      - by inversion Hrun; subst.
      - destruct (qstep f domain s0 a) as [[s2 d2]|] eqn:Hs; simpl in Hrun; [|done].
        destruct (qrun f domain s2 sched) as [[s3 d3]|] eqn:Hr; simpl in Hrun; [|done].
        inversion Hrun; subst. eapply IH; [|exact Hr]. by eapply q_bound_inv_step. }
    exact (Hgen _ _ _ _ (q_bound_inv_init files workers) Hrun).
Qed.




(** ** Progress of the download pipeline *)

(** X15: the download pipeline cannot deadlock.  In every state a run
    reaches, the driver has returned or some goroutine can move, and the
    run can be continued until the driver returns: no goroutine waits for
    ever on a channel that nobody serves. *)
Theorem pipeline_never_stuck {W : World} (toDownload : list Program) (workers : nat)
    (fs0 : filesystem) (sched : list action) (s : state) (evs : list event) :
  run (init_state toDownload workers fs0) sched = Some (s, evs) →
  (finished s ∨ ∃ a s' ev, step s a = Some (s', ev)) ∧
  ∃ sched' s' evs', run s sched' = Some (s', evs') ∧ finished s'.
Proof.
  intros Hrun. pose proof (pipeline_inv_run _ _ _ _ _ _ Hrun) as Hinv. split.
  - destruct (finished_dec s) as [?|Hnot]; [by left|]. right.
    by eapply pipeline_progress.
  - exact (pipeline_completes_from _ _ _ _ _ _ (le_n _) Hinv).
Qed.

Lemma pipeline_never_stuck_witness :
  ∃ sched' s' evs',
    run (W := sample_world)
        (default (init_state sample_targets 2 ∅, [])
           (run (W := sample_world) (init_state sample_targets 2 ∅)
                [AFeed; ADlRecv 0; ADlFetch 0 (Some 0%nat)])).1
        sched' = Some (s', evs') ∧
    finished s'.
Proof.
  destruct (run (W := sample_world) (init_state sample_targets 2 ∅)
              [AFeed; ADlRecv 0; ADlFetch 0 (Some 0%nat)]) as [[s evs]|] eqn:Hrun;
    [|vm_compute in Hrun; discriminate Hrun].
  exact (proj2 (pipeline_never_stuck (W := sample_world) _ _ _ _ _ _ Hrun)).
Defined.

(** *** Calls that do not return *)

(** A download worker that is at its fetch stays there until the fetch is
    made, whatever the other goroutines do. *)
Lemma dl_fetch_waits {W : World} (s s' : state) (ev : list event) (a : action)
    (i : nat) (p : Program) :
  dlWorkers s !! i = Some (DlFetch p) → step s a = Some (s', ev) →
  (∀ tmp, a ≠ ADlFetch i tmp) → dlWorkers s' !! i = Some (DlFetch p).
Proof.
  intros Hi Hstep Hne. apply step_dispatch in Hstep as [_ Hd].
  invert_dispatch Hd; simpl; try done;
    match goal with
    | |- <[?i0 := _]> _ !! _ = _ =>
        destruct (decide (i0 = i)) as [->|?];
        [first [congruence | by exfalso; eapply Hne]|by rewrite list_lookup_insert_ne]
    end.
Qed.

Lemma fetch_before_return {W : World} (toDownload : list Program) (workers : nat)
    (fs0 : filesystem) (sched : list action) (s s' : state) (evs evs' : list event)
    (i : nat) (p : Program) :
  pipeline_inv toDownload workers fs0 s evs →
  dlWorkers s !! i = Some (DlFetch p) →
  run s sched = Some (s', evs') → finished s' → ∃ tmp, ADlFetch i tmp ∈ sched.
Proof.
  revert s evs evs'. induction sched as [|a sched IH]; intros s evs evs' Hinv Hi Hrun Hfin.
  - simpl in Hrun. inversion Hrun; subst.
    destruct Hinv as (_ & (Hres & Hwait & _) & _).
    destruct (Hwait (or_intror Hfin)) as [Hclosed _].
    by pose proof (forallb_lookup _ _ _ _ (Hres Hclosed) Hi).
  - simpl in Hrun.
    destruct (step s a) as [[s1 ev]|] eqn:Hstep; simpl in Hrun; [|done].
    destruct (run s1 sched) as [[s2 evs2]|] eqn:Hrest; simpl in Hrun; [|done].
    inversion Hrun; subst.
    assert ((∃ tmp, a = ADlFetch i tmp) ∨ ∀ tmp, a ≠ ADlFetch i tmp) as [[tmp ->]|Hne].
    { destruct a as [|?|i0 tmp|?| | | | |?|? ?]; try (right; discriminate).
      destruct (decide (i0 = i)) as [->|?]; [left; eauto|right; congruence]. }
    + exists tmp. apply list_elem_of_here.
    + destruct (IH s1 (evs ++ ev) evs2) as [tmp Htmp]; try done.
      * by eapply pipeline_inv_step.
      * by eapply dl_fetch_waits.
      * exists tmp. by apply list_elem_of_further.
Qed.

(** X25: the pipeline sets no time limit and waits for every fetch.  Every
    run has at most 8 * len(toDownload) + 2 * W + 4 moves, and a run in
    which no goroutine can move any more has returned: the pipeline returns
    once every call it makes has returned.  A call of [http.Get] that does
    not return is a fetch the run never makes, and the pipeline does not
    return without it: while a download worker is at its fetch the driver
    has not returned, and every continuation in which it returns makes that
    fetch first. *)
Theorem pipeline_waits_for_every_fetch {W : World} (toDownload : list Program)
    (workers : nat) (fs0 : filesystem) (sched : list action) (s : state)
    (evs : list event) :
  run (init_state toDownload workers fs0) sched = Some (s, evs) →
  (length sched ≤ 8 * length toDownload + 2 * workers + 4)%nat ∧
  ((∀ a, step s a = None) → finished s) ∧
  (∀ i p, dlWorkers s !! i = Some (DlFetch p) →
     ¬ finished s ∧
     ∀ sched' s' evs',
       run s sched' = Some (s', evs') → finished s' → ∃ tmp, ADlFetch i tmp ∈ sched').
Proof.
  intros Hrun. pose proof (pipeline_inv_run _ _ _ _ _ _ Hrun) as Hinv.
  split; [|split].
  - apply run_length in Hrun.
    unfold work_left in Hrun at 2. simpl in Hrun.
    rewrite !sum_list_with_replicate_const in Hrun. simpl in Hrun. lia.
  - intros Hnone. destruct (finished_dec s) as [?|Hnot]; [done|].
    destruct (pipeline_progress _ _ _ _ _ Hinv Hnot) as (a & s' & ev & Hstep).
    by rewrite Hnone in Hstep.
  - intros i p Hi. split.
    + intros Hfin.
      destruct (fetch_before_return _ _ _ [] s s evs [] i p Hinv Hi eq_refl Hfin)
        as [tmp Htmp].
      by apply elem_of_nil in Htmp.
    + intros sched' s' evs' Hrun' Hfin. by eapply fetch_before_return.
Qed.

Lemma pipeline_waits_for_every_fetch_witness :
  ∃ s evs,
    run (W := sample_world) (init_state sample_targets 2 ∅) [AFeed; ADlRecv 0] = Some (s, evs) ∧
    ¬ finished s.
Proof.
  assert (from_option (λ x, dlWorkers x.1 !! 0%nat) None
            (run (W := sample_world) (init_state sample_targets 2 ∅) [AFeed; ADlRecv 0]) =
          Some (DlFetch acme)) as Hi by (vm_compute; reflexivity).
  destruct (run (W := sample_world) (init_state sample_targets 2 ∅) [AFeed; ADlRecv 0])
    as [[s evs]|] eqn:Hrun; [|discriminate Hi].
  exists s, evs. split; [done|].
  destruct (pipeline_waits_for_every_fetch (W := sample_world) _ _ _ _ _ _ Hrun)
    as (_ & _ & Hwait).
  exact (proj1 (Hwait 0%nat acme Hi)).
Defined.

(** *** No worker *)

Lemma no_worker_step {W : World} (fs0 : filesystem) (s s' : state) (evs ev : list event)
    (a : action) :
  (dlWorkers s = [] ∧ uzWorkers s = [] ∧ fs s = fs0 ∧ outcomes evs = [] ∧
   buf (downloadResults s) = [] ∧ successCount s = 0 ∧ failCount s = 0) →
  step s a = Some (s', ev) →
  dlWorkers s' = [] ∧ uzWorkers s' = [] ∧ fs s' = fs0 ∧ outcomes (evs ++ ev) = [] ∧
  buf (downloadResults s') = [] ∧ successCount s' = 0 ∧ failCount s' = 0.
Proof.
  intros (Hdl & Huz & Hfs & Hout & Hbuf & Hok & Hfail) [_ Hstep]%step_dispatch.
  rewrite outcomes_app, Hout.
  destruct a; simpl in Hstep;
    unfold step_feed, step_dl_recv, step_dl_fetch, step_dl_send, step_close_results,
      step_main_recv, step_main_send, step_main_finish, step_uz_recv, step_uz_work in Hstep;
    rewrite ?Hdl, ?Huz in Hstep; simpl in Hstep; try discriminate Hstep;
    repeat (case_match; try discriminate Hstep);
    simplify_option_eq; use_chan; simpl; try done.
  all: match goal with
       | H : buf (downloadResults _) = _ :: _ |- _ => rewrite Hbuf in H; discriminate H
       end.
Qed.

(** X16: with a worker count of 0 nothing is downloaded.  The pipeline
    still returns (here after three moves, before the feeder has run), and
    in every run no outcome is built, the file system stays as it was, and
    the final line, once printed, reports 0 success and 0 failed, whatever
    was selected. *)
Theorem parallelDownload_no_workers {W : World} (toDownload : list Program)
    (fs0 : filesystem) :
  (∃ s evs, run (init_state toDownload 0 fs0) idle_schedule = Some (s, evs) ∧ finished s) ∧
  ∀ sched s evs,
    run (init_state toDownload 0 fs0) sched = Some (s, evs) →
    fs s = fs0 ∧ outcomes evs = [] ∧
    (finished s → last (printed evs) = Some (MsgComplete 0 0)).
Proof.
  split.
  - eexists _, _. split; [reflexivity|done].
  - intros sched s evs Hrun.
    pose proof (run_invariant
      (λ s evs, dlWorkers s = [] ∧ uzWorkers s = [] ∧ fs s = fs0 ∧ outcomes evs = [] ∧
                buf (downloadResults s) = [] ∧ successCount s = 0 ∧ failCount s = 0)
      (λ s evs a s' ev Hs Hstep, no_worker_step fs0 s s' evs ev a Hs Hstep)
      sched (init_state toDownload 0 fs0) [] s evs) as Hinv.
    destruct Hinv as (_ & _ & Hfs & Hout & _ & Hok & Hfail); [done|exact Hrun|].
    split; [done|]. split; [done|]. intros Hfin.
    destruct (pipeline_inv_run _ _ _ _ _ _ Hrun) as (_ & _ & _ & _ & _ & Hdone).
    rewrite (Hdone Hfin), Hok, Hfail. done.
Qed.

(** ** The flow of jobs through the download pipeline *)

Lemma flat_map_perm {A B} (f : A → list B) (l l' : list A) :
  l ≡ₚ l' → flat_map f l ≡ₚ flat_map f l'.
Proof.
  induction 1 as [|x l l' _ IH|x y l|l1 l2 l3 _ IH1 _ IH2]; simpl.
  - done.
  - by rewrite IH.
  - solve_Permutation.
  - by rewrite IH1.
Qed.

Lemma map_perm {A B} (f : A → B) (l l' : list A) : l ≡ₚ l' → map f l ≡ₚ map f l'.
Proof. apply Permutation_map. Qed.

(** The lists of a state after a worker has changed its place. *)
Ltac flow_perm :=
  unfold queued, unreceived, unzipping; simpl;
  repeat match goal with
         | H : buf _ = _ :: _ |- _ => rewrite H; clear H
         end;
  repeat match goal with
         | Hi : dlWorkers ?s !! ?i = Some ?w
           |- context [flat_map ?f (<[?i := ?w']> (dlWorkers ?s))] =>
             rewrite (flat_map_insert_perm f _ i w w' Hi)
         | Hi : uzWorkers ?s !! ?i = Some ?w
           |- context [flat_map ?f (<[?i := ?w']> (uzWorkers ?s))] =>
             rewrite (flat_map_insert_perm f _ i w w' Hi)
         end;
  repeat match goal with
         | Hi : dlWorkers ?s !! ?i = Some ?w |- context [flat_map ?f (dlWorkers ?s)] =>
             rewrite (flat_map_lookup_perm f _ i w Hi)
         | Hi : uzWorkers ?s !! ?i = Some ?w |- context [flat_map ?f (uzWorkers ?s)] =>
             rewrite (flat_map_lookup_perm f _ i w Hi)
         end;
  repeat match goal with
         | H : main _ = _ |- _ => rewrite H
         end;
  simpl; try done; solve_Permutation.

Lemma step_flow {W : World} (s s' : state) (ev : list event) (a : action) :
  step s a = Some (s', ev) → flow s s' ev.
Proof.
  intros [_ Hstep]%step_dispatch.
  invert_dispatch Hstep; use_chan.
  all: try (apply FlowSilent; [flow_perm|flow_perm|flow_perm|done|by eauto]; fail).
  all: try (apply FlowEnqueue; [flow_perm|flow_perm|flow_perm|done]; fail).
  all: try (match goal with
            | H : downloadZip ?p ?tmp _ = (?f, (?zp, ?e)) |- _ =>
                apply (FlowFetch _ _ (mkDownloadResult p zp e) tmp);
                [done|exact H|flow_perm|flow_perm|flow_perm]
            end; fail).
  all: try (match goal with
            | H : err ?r = Some ?e |- _ =>
                apply (FlowReport _ _ r e); [done|flow_perm|flow_perm|flow_perm|done]
            end; fail).
  all: try (match goal with
            | H : err ?r = None |- _ =>
                apply (FlowPass _ _ r); [done|flow_perm|flow_perm|flow_perm|done]
            end; fail).
  all: try (match goal with
            | H : unzip ?c (job_zipPath ?j) ?d ?f = (?f', ?e),
              Hi : uzWorkers _ !! ?i = Some (UzWork ?j) |- _ =>
                pose proof (FlowExtract
                              s (with_uzWorker i UzRange (with_fs (delete (job_zipPath j) f') s))
                              j c) as Hflow;
                simpl in Hflow; rewrite H in Hflow; simpl in Hflow; apply Hflow; clear Hflow;
                [flow_perm|flow_perm|flow_perm|done]
            end; fail).
Qed.

Lemma extracted_app (e1 e2 : list event) : extracted (e1 ++ e2) = extracted e1 ++ extracted e2.
Proof. apply omap_app. Qed.

Lemma download_errors_app (e1 e2 : list event) :
  download_errors (e1 ++ e2) = download_errors e1 ++ download_errors e2.
Proof. apply omap_app. Qed.

Lemma extracted_unzip_report (name : string) (e : option error) :
  extracted [EvPrint (unzip_report name e)] = [name].
Proof. by destruct e. Qed.

Lemma download_errors_unzip_report (name : string) (e : option error) :
  download_errors [EvPrint (unzip_report name e)] = [].
Proof. by destruct e. Qed.

Lemma flow_inv_step {W : World} (workers : nat) (s s' : state) (evs ev : list event)
    (a : action) :
  order_inv workers s → flow_inv s evs → step s a = Some (s', ev) →
  flow_inv s' (evs ++ ev).
Proof.
  intros Hord (HA & HB & HC & HD) Hstep.
  unfold flow_inv. rewrite enqueued_app, outcomes_app, extracted_app, download_errors_app.
  unfold in_flight in *.
  split; [|split; [|split]].
  - destruct (step_flow _ _ _ _ Hstep) as [p Hq _ _ _|r tmp _ _ Hq _ _|r e _ Hq _ _ _
      |r _ Hq _ _ _|j c Hq _ _ _|ev' Hq _ _ _ [->|(x & y & ->)]];
      simpl; rewrite ?app_nil_r, ?Hq, ?HA; try done.
    + solve_Permutation.
    + rewrite Hq, map_app. simpl. solve_Permutation.
  - destruct (step_flow _ _ _ _ Hstep) as [p _ Hu Hz _|r tmp _ _ _ Hu Hz|r e He _ Hu Hz _
      |r He _ Hu Hz _|j c _ Hu Hz _|ev' _ Hu Hz _ [->|(x & y & ->)]];
      rewrite ?extracted_unzip_report; simpl; rewrite ?app_nil_r;
      try (rewrite (flat_map_perm _ _ _ Hu), Hz; exact HB).
    + rewrite flat_map_app, !map_app, HB, (flat_map_perm _ _ _ Hu), Hz. simpl.
      rewrite !map_app. solve_Permutation.
    + assert (result_job r = []) as Hr by (unfold result_job; by rewrite He).
      rewrite HB, (flat_map_perm _ _ _ Hu), Hz. simpl. by rewrite Hr.
    + assert (result_job r = [mkUnzipJob (program r) (zipPath r)]) as Hr
        by (unfold result_job; by rewrite He).
      rewrite HB, (flat_map_perm _ _ _ Hu), Hz. simpl. rewrite Hr, !map_app. simpl.
      solve_Permutation.
    + rewrite HB, Hu, Hz. rewrite !map_app. simpl. solve_Permutation.
  - destruct (step_flow _ _ _ _ Hstep) as [p _ Hu _ _|r tmp _ _ _ Hu _|r e He _ Hu _ _
      |r He _ Hu _ _|j c _ Hu _ _|ev' _ Hu _ _ [->|(x & y & ->)]];
      rewrite ?download_errors_unzip_report; simpl; rewrite ?app_nil_r;
      try (rewrite (flat_map_perm _ _ _ Hu); exact HC).
    + rewrite flat_map_app, HC, (flat_map_perm _ _ _ Hu). simpl.
      rewrite app_nil_r. solve_Permutation.
    + assert (result_failure r = [(Name (program r), e)]) as Hr
        by (unfold result_failure; by rewrite He).
      rewrite HC, (flat_map_perm _ _ _ Hu). simpl. rewrite Hr. simpl. solve_Permutation.
    + assert (result_failure r = []) as Hr by (unfold result_failure; by rewrite He).
      rewrite HC, (flat_map_perm _ _ _ Hu). simpl. by rewrite Hr.
  - destruct Hord as (_ & _ & _ & _ & Hexit & _).
    apply step_dispatch in Hstep as [_ Hstep].
    clear HA HB HC.
    invert_dispatch Hstep; use_chan; simpl; intros k Hk;
      repeat match goal with
             | H : <[_ := _]> _ !! _ = Some _ |- _ =>
                 apply list_lookup_insert_Some in H as [(-> & ? & ?)|[? ?]]
             end;
      simplify_eq; eauto.
    all: try (match goal with
              | H : dlWorkers _ !! _ = Some DlExit |- _ =>
                  pose proof (Hexit _ H); congruence
              end; fail).
    all: match goal with
         | H : dlWorkers _ !! _ = Some DlExit |- _ => apply HD in H
         end; congruence.
Qed.

Lemma flow_inv_init (toDownload : list Program) (workers : nat) (fs0 : filesystem) :
  flow_inv (init_state toDownload workers fs0) [].
Proof.
  unfold flow_inv, in_flight, queued, unreceived, unzipping. simpl.
  rewrite !flat_map_replicate_nil by done. simpl.
  repeat split; try done; try by intros i [? _]%lookup_replicate.
Qed.

Lemma flow_inv_run {W : World} (toDownload : list Program) (workers : nat)
    (fs0 : filesystem) (sched : list action) (s : state) (evs : list event) :
  run (init_state toDownload workers fs0) sched = Some (s, evs) →
  pipeline_inv toDownload workers fs0 s evs ∧ flow_inv s evs.
Proof.
  intros Hrun.
  apply (run_invariant (λ s evs, pipeline_inv toDownload workers fs0 s evs ∧ flow_inv s evs)
           (λ s evs a s' ev Hs Hstep,
              conj (pipeline_inv_step _ _ _ _ _ _ _ _ (proj1 Hs) Hstep)
                   (flow_inv_step workers _ _ _ _ _
                      (proj1 (proj2 (proj1 Hs))) (proj2 Hs) Hstep))
           sched (init_state toDownload workers fs0) [] s evs); [|done].
  split; [apply pipeline_inv_init|apply flow_inv_init].
Qed.

Lemma all_exited_dl_flow (ws : list dl_worker) :
  forallb dl_exited ws = true →
  flat_map dl_fetching ws = [] ∧ flat_map dl_sending ws = [].
Proof.
  induction ws as [|w ws IH]; [done|]. simpl.
  intros [Hw Hws]%andb_prop. destruct w; try done. simpl. by apply IH.
Qed.

Lemma all_exited_uz_flow (ws : list uz_worker) :
  forallb uz_exited ws = true → flat_map uz_job ws = [].
Proof.
  induction ws as [|w ws IH]; [done|]. simpl.
  intros [Hw Hws]%andb_prop. destruct w; try done. simpl. by apply IH.
Qed.

(** When the driver has returned nothing is under way; with at least one
    worker the queue is empty and the feeder has returned. *)
Lemma finished_flow (workers : nat) (s : state) (evs : list event) :
  order_inv workers s → flow_inv s evs → finished s →
  unreceived s = [] ∧ unzipping s = [] ∧ in_flight s = [] ∧
  ((0 < workers)%nat → queued s = [] ∧ feeder s = None).
Proof.
  intros (Hres & Hwait & Huj & Hjobs & Hdlexit & Hexit & Hdone & Hdl & Huz & Hzero & _)
         (_ & _ & _ & HD) Hfin.
  unfold finished in Hfin.
  destruct (Hwait (or_intror Hfin)) as [Hclosed Hbuf].
  destruct (all_exited_dl_flow _ (Hres Hclosed)) as [Hfetching Hsending].
  pose proof (all_exited_uz_flow _ (Hdone Hfin)) as Hjob.
  assert (buf (unzipJobs s) = []) as Hjobsbuf.
  { destruct workers as [|n]; [by apply Hzero|].
    destruct (uzWorkers s) as [|w ws] eqn:Hws; [done|].
    specialize (Hdone Hfin). simpl in Hdone. apply andb_prop in Hdone as [Hw _].
    destruct w; try done. by apply (Hexit 0%nat). }
  assert (unreceived s = []) as Hunr by (unfold unreceived; by rewrite Hsending, Hbuf).
  assert (unzipping s = []) as Hunz
    by (unfold unzipping; by rewrite Hfin, Hjobsbuf, Hjob).
  split; [done|]. split; [done|]. split.
  { unfold in_flight. by rewrite Hunr, Hunz. }
  intros Hw. destruct (dlWorkers s !! 0%nat) as [w|] eqn:H0.
  2:{ apply lookup_ge_None in H0. lia. }
  pose proof (forallb_lookup _ _ _ _ (Hres Hclosed) H0) as Hw0.
  destruct w; try done.
  split.
  - unfold queued. by rewrite (HD _ H0), Hfetching.
  - apply Hjobs. by apply (Hdlexit 0%nat).
Qed.

Lemma ok_failed_length (l : list downloadResult) :
  (sum_list_with ok_n l + sum_list_with failed_n l = length l)%nat.
Proof.
  induction l as [|r l IH]; simpl; [done|].
  unfold ok_n, failed_n in *. destruct (fetch_ok r); lia.
Qed.

(** X17: with at least one worker, every eligible program of the selection
    is fetched exactly once: when the pipeline has returned, the programs of
    the outcomes are the eligible programs of the selection, each as often
    as it is selected, and the two numbers of the final line add up to their
    number. *)
Theorem every_job_fetched_once {W : World} (toDownload : list Program) (workers : nat)
    (fs0 : filesystem) (sched : list action) (s : state) (evs : list event) :
  run (init_state toDownload workers fs0) sched = Some (s, evs) →
  finished s → (0 < workers)%nat →
  map program (outcomes evs) ≡ₚ List.filter eligible toDownload ∧
  successCount s + failCount s = Z.of_nat (length (List.filter eligible toDownload)).
Proof.
  intros Hrun Hfin Hw.
  destruct (flow_inv_run _ _ _ _ _ _ Hrun) as [Hinv Hflow].
  destruct Hinv as ((Hok & Hfail) & Hord & _ & Hfeed & _).
  destruct (finished_flow _ _ _ Hord Hflow Hfin) as (_ & _ & _ & Hq).
  destruct (Hq Hw) as [Hqueued Hfeeder].
  destruct Hflow as (HA & _).
  unfold feed_inv in Hfeed. rewrite Hfeeder in Hfeed.
  rewrite Hqueued, Hfeed in HA. simpl in HA.
  split; [done|].
  destruct (finished_drained workers s ok_n Hord Hfin) as [Hpok _].
  destruct (finished_drained workers s failed_n Hord Hfin) as [Hpfail _].
  rewrite Hpok in Hok. rewrite Hpfail in Hfail.
  pose proof (ok_failed_length (outcomes evs)) as Hlen.
  rewrite HA, <- (length_map program) in *.
  apply Permutation_length in HA. rewrite !length_map in *. lia.
Qed.

Lemma every_job_fetched_once_witness :
  ∃ s evs,
    run (W := sample_world) (init_state sample_targets 2 ∅) sample_schedule = Some (s, evs) ∧
    map program (outcomes evs) ≡ₚ [acme; ghost; broken] ∧
    successCount s + failCount s = 3.
Proof.
  destruct sample_run_ends as (s & evs & Hrun & Hfin & _).
  exists s, evs. split; [exact Hrun|].
  exact (every_job_fetched_once (W := sample_world) _ _ _ _ _ _ Hrun Hfin ltac:(lia)).
Defined.

(** X18: every outcome is followed up exactly once.  When the pipeline has
    returned, the unzip workers have reported (with the success line or
    with the unzip error line) on exactly the programs whose download
    succeeded, once per download, and the driver has printed exactly the
    download errors of the outcomes that failed. *)
Theorem every_outcome_reported_once {W : World} (toDownload : list Program)
    (workers : nat) (fs0 : filesystem) (sched : list action) (s : state)
    (evs : list event) :
  run (init_state toDownload workers fs0) sched = Some (s, evs) →
  finished s →
  extracted evs ≡ₚ map (λ r, Name (program r)) (List.filter fetch_ok (outcomes evs)) ∧
  download_errors evs ≡ₚ flat_map result_failure (outcomes evs) ∧
  Z.of_nat (length (extracted evs)) = successCount s ∧
  Z.of_nat (length (download_errors evs)) = failCount s.
Proof.
  intros Hrun Hfin.
  destruct (flow_inv_run _ _ _ _ _ _ Hrun) as [Hinv Hflow].
  destruct Hinv as ((Hok & Hfail) & Hord & _).
  destruct (finished_flow _ _ _ Hord Hflow Hfin) as (Hunr & _ & Hfl & _).
  destruct Hflow as (_ & HB & HC & _).
  rewrite Hfl in HB. rewrite Hunr in HC. simpl in HB, HC.
  destruct (finished_drained workers s ok_n Hord Hfin) as [Hpok _].
  destruct (finished_drained workers s failed_n Hord Hfin) as [Hpfail _].
  rewrite Hpok in Hok. rewrite Hpfail in Hfail.
  assert (∀ l, map (λ j, Name (job_program j)) (flat_map result_job l) =
               map (λ r, Name (program r)) (List.filter fetch_ok l)) as Hjobs.
  { induction l as [|r l IH]; simpl; [done|].
    unfold result_job at 1, fetch_ok at 1. destruct (err r); simpl; by rewrite ?IH. }
  assert (∀ l, length (flat_map result_failure l) = sum_list_with failed_n l) as Hfailed.
  { induction l as [|r l IH]; simpl; [done|].
    rewrite length_app, IH. unfold result_failure, failed_n, fetch_ok. by destruct (err r). }
  assert (∀ l, length (List.filter fetch_ok l) = sum_list_with ok_n l) as Hoks.
  { induction l as [|r l IH]; simpl; [done|].
    unfold ok_n at 1. destruct (fetch_ok r); simpl; by rewrite IH. }
  rewrite Hjobs in HB.
  split; [by rewrite HB|]. split; [by rewrite HC|]. split.
  - rewrite <- HB, length_map, Hoks. lia.
  - rewrite <- HC, Hfailed. lia.
Qed.

Lemma every_outcome_reported_once_witness :
  ∃ s evs,
    run (W := sample_world) (init_state sample_targets 2 ∅) sample_schedule = Some (s, evs) ∧
    extracted evs ≡ₚ ["acme"; "broken"] ∧
    download_errors evs ≡ₚ [("ghost", ErrStatus 404)].
Proof.
  destruct sample_run_ends as (s & evs & Hrun & Hfin & _).
  exists s, evs. split; [exact Hrun|].
  destruct (every_outcome_reported_once (W := sample_world) _ _ _ _ _ _ Hrun Hfin)
    as (Hex & Herr & _).
  assert (outcomes evs ≡ₚ [ mkDownloadResult acme (tmp_path 0) None;
                            mkDownloadResult ghost "" (Some (ErrStatus 404));
                            mkDownloadResult broken (tmp_path 1) None ]) as Hout.
  { vm_compute in Hrun. inversion Hrun. vm_compute. solve_Permutation. }
  split.
  - rewrite Hex. clear -Hout. revert Hout. generalize (outcomes evs). intros l Hl.
    change ["acme"; "broken"] with
      (map (λ r, Name (program r))
         (List.filter fetch_ok [ mkDownloadResult acme (tmp_path 0) None;
                                 mkDownloadResult ghost "" (Some (ErrStatus 404));
                                 mkDownloadResult broken (tmp_path 1) None ])).
    apply Permutation_map. clear -Hl. induction Hl; simpl; try done.
    + destruct (fetch_ok x); by rewrite ?IHHl.
    + destruct (fetch_ok x), (fetch_ok y); solve_Permutation.
    + by rewrite IHHl1.
  - rewrite Herr, (flat_map_perm _ _ _ Hout). done.
Defined.

(** ** Archives on disk and consolidated files *)

Lemma printed_app (e1 e2 : list event) : printed (e1 ++ e2) = printed e1 ++ printed e2.
Proof. apply omap_app. Qed.

Lemma fetched_body_Some {W : World} (p : Program) (body : list byte) :
  fetched_body p = Some body ↔ http_Get (URL p) = Response 200 body false.
Proof.
  unfold fetched_body. split.
  - destruct (http_Get (URL p)) as [|code b [|]]; try done.
    destruct (Z.eqb_spec code 200) as [->|]; [|done]. by intros [= ->].
  - by intros ->.
Qed.

Lemma result_job_error (r : downloadResult) (e : error) : err r = Some e → result_job r = [].
Proof. unfold result_job. by intros ->. Qed.

Lemma result_job_ok (r : downloadResult) :
  err r = None → result_job r = [mkUnzipJob (program r) (zipPath r)].
Proof. unfold result_job. by intros ->. Qed.

Lemma step_archive {W : World} (s s' : state) (ev : list event) (a : action) :
  step s a = Some (s', ev) → archive_step s s' ev.
Proof.
  intros Hstep.
  destruct (step_flow _ _ _ _ Hstep) as [p Hq Hu Hz Hfs|r tmp Hfresh Hdl Hq Hu Hz
    |r e He Hq Hu Hz Hfs|r He Hq Hu Hz Hfs|j c Hq Hu Hz Hfs
    |ev' Hq Hu Hz Hfs [->|(x & y & ->)]].
  - apply ArchiveSame; [|done| |done].
    + unfold in_flight. by rewrite (flat_map_perm _ _ _ Hu), Hz.
    + intros n. apply not_elem_of_nil.
  - destruct (err r) as [e|] eqn:He.
    + destruct (downloadZip_error _ _ _ _ _ _ Hfresh Hdl) as [Hfs _].
      apply ArchiveSame; [|done| |done].
      * unfold in_flight. rewrite (flat_map_perm _ _ _ Hu), Hz. simpl.
        by rewrite (result_job_error _ _ He).
      * intros n. apply not_elem_of_nil.
    + destruct (downloadZip_ok _ _ _ _ _ Hdl) as (n & body & -> & Hzp & Hget & Hfs).
      apply (ArchiveFetched _ _ _ (program r) n body); [| | |done| |done].
      * rewrite Hq. apply list_elem_of_here.
      * simpl in Hfresh. by apply bool_decide_eq_true in Hfresh.
      * by apply fetched_body_Some.
      * unfold in_flight. rewrite (flat_map_perm _ _ _ Hu), Hz. simpl.
        by rewrite (result_job_ok _ He), Hzp.
  - apply ArchiveSame; [|done| |done].
    + unfold in_flight. rewrite (flat_map_perm _ _ _ Hu), Hz. simpl.
      by rewrite (result_job_error _ _ He).
    + intros n. simpl. rewrite list_elem_of_singleton. discriminate.
  - apply ArchiveSame; [|done| |done].
    + unfold in_flight. rewrite (flat_map_perm _ _ _ Hu), Hz. simpl.
      rewrite (result_job_ok _ He). solve_Permutation.
    + intros n. apply not_elem_of_nil.
  - apply (ArchiveExtracted _ _ _ j c); [|done|done].
    unfold in_flight. rewrite Hu, Hz. solve_Permutation.
  - apply ArchiveSame; [|done| |done].
    + unfold in_flight. by rewrite (flat_map_perm _ _ _ Hu), Hz.
    + intros n. apply not_elem_of_nil.
  - apply ArchiveSame; [|done| |done].
    + unfold in_flight. by rewrite (flat_map_perm _ _ _ Hu), Hz.
    + intros n. simpl. rewrite list_elem_of_singleton. discriminate.
Qed.

Lemma store_ok_perm {W : World} (toDownload : list Program) (fs0 : filesystem)
    (jobs jobs' : list unzipJob) (f : filesystem) :
  jobs ≡ₚ jobs' → store_ok toDownload fs0 jobs f → store_ok toDownload fs0 jobs' f.
Proof.
  intros Hp (Hnd & Hjobs & Hframe).
  pose proof (Permutation_map job_zipPath Hp) as Hp'.
  split; [by rewrite <- Hp'|]. split.
  - intros j Hj. apply Hjobs. by rewrite Hp.
  - intros path Hout Hlive. apply Hframe; [done|]. by rewrite Hp'.
Qed.

Lemma eligible_selected (toDownload : list Program) (p : Program) :
  p ∈ List.filter eligible toDownload ↔ p ∈ toDownload ∧ eligible p = true.
Proof. by rewrite !list_elem_of_In, filter_In. Qed.

(** What is queued was enqueued, and what was enqueued is an eligible
    program of the selection. *)
Lemma queued_selected (toDownload : list Program) (s : state) (evs : list event)
    (p : Program) :
  flow_inv s evs → feed_inv toDownload s evs →
  p ∈ enqueued evs → p ∈ toDownload ∧ eligible p = true.
Proof.
  intros _ Hfeed Hp. apply eligible_selected.
  unfold feed_inv in Hfeed. destruct (feeder s) as [rest|].
  - rewrite <- Hfeed, elem_of_app. by left.
  - by rewrite <- Hfeed.
Qed.

Lemma out_path_not_tmp_path (p : Program) (n : nat) : out_path p ≠ tmp_path n.
Proof. apply out_path_not_tmp. Qed.

Lemma store_inv_step {W : World} (toDownload : list Program) (fs0 : filesystem)
    (s s' : state) (evs ev : list event) (a : action) :
  flow_inv s evs → feed_inv toDownload s evs → store_inv toDownload fs0 s →
  step s a = Some (s', ev) → store_inv toDownload fs0 s'.
Proof.
  intros Hflow Hfeed Hstore Hstep. unfold store_inv in *.
  destruct (step_archive _ _ _ _ Hstep) as [Hfl Hfs _ _|p n body Hp Hfresh Hbody Hfs Hfl _
    |j c Hfl Hfs _].
  - rewrite Hfs. eapply store_ok_perm; [symmetry; exact Hfl|done].
  - eapply store_ok_perm; [symmetry; exact Hfl|]. rewrite Hfs.
    destruct Hstore as (Hnd & Hjobs & Hframe).
    assert (tmp_path n ∉ map job_zipPath (in_flight s)) as Hnot.
    { intros (j & Hj & Hin)%list_elem_of_fmap.
      destruct (Hjobs j Hin) as (_ & _ & _ & _ & b & _ & Hb).
      rewrite <- Hj in Hb. congruence. }
    assert (p ∈ toDownload ∧ eligible p = true) as [Htd Hel].
    { apply (queued_selected toDownload s evs p Hflow Hfeed).
      destruct Hflow as (HA & _). rewrite HA, elem_of_app. by left. }
    split; [|split].
    + simpl. apply NoDup_cons. done.
    + intros j [->|Hj]%elem_of_cons.
      * simpl. split; [eauto|]. split.
        { rewrite <- (Hframe (tmp_path n)); [done| |done].
          intros (q & _ & _ & Hq). symmetry in Hq. by apply out_path_not_tmp_path in Hq. }
        split; [done|]. split; [done|].
        exists body. split; [done|]. apply lookup_insert_eq.
      * destruct (Hjobs j Hj) as (Hn & H0 & Hin & Hej & b & Hb & Hf).
        split; [done|]. split; [done|]. split; [done|]. split; [done|].
        exists b. split; [done|]. rewrite lookup_insert_ne; [done|].
        intros Heq. rewrite <- Heq in Hf. congruence.
    + intros path Hout Hlive. simpl in Hlive. apply not_elem_of_cons in Hlive as [Hne Hlive].
      rewrite lookup_insert_ne by done. by apply Hframe.
  - pose proof (store_ok_perm _ _ _ _ _ Hfl Hstore) as (Hnd & Hjobs & Hframe).
    simpl in Hnd. apply NoDup_cons in Hnd as [Hj Hnd].
    destruct (Hjobs j (list_elem_of_here _ _))
      as ((nj & Hnj) & H0j & Hinj & Helj & bj & Hbj & Hfj).
    rewrite Hfs. split; [done|]. split.
    + intros j' Hj'.
      destruct (Hjobs j' (list_elem_of_further _ _ _ Hj'))
        as ((n' & Hn') & H0 & Hin & Hel & b & Hb & Hf).
      split; [eauto|]. split; [done|]. split; [done|]. split; [done|].
      exists b. split; [done|].
      rewrite lookup_delete_ne.
      2:{ intros Heq. apply Hj. rewrite Heq. apply list_elem_of_fmap. eauto. }
      rewrite unzip_lookup_ne; [done|].
      rewrite Hn'. intros Heq. symmetry in Heq. by apply out_path_not_tmp in Heq.
    + intros path Hout Hlive. destruct (decide (path = job_zipPath j)) as [->|Hne].
      * by rewrite lookup_delete_eq.
      * rewrite lookup_delete_ne by done. rewrite unzip_lookup_ne.
        -- apply Hframe; [done|]. simpl. by apply not_elem_of_cons.
        -- intros ->. apply Hout. by exists (job_program j).
Qed.

Lemma store_inv_init {W : World} (toDownload : list Program) (workers : nat)
    (fs0 : filesystem) :
  store_inv toDownload fs0 (init_state toDownload workers fs0).
Proof.
  unfold store_inv, store_ok, in_flight, unreceived, unzipping. simpl.
  rewrite !flat_map_replicate_nil by done. simpl.
  split; [constructor|]. split; [|done].
  intros j Hj. by apply elem_of_nil in Hj.
Qed.

(** *** Distinct consolidated files *)

Lemma NoDup_map_elem {A B} (f : A → B) (l : list A) (x y : A) :
  NoDup (map f l) → x ∈ l → y ∈ l → f x = f y → x = y.
Proof.
  induction l as [|a l IH]; simpl; intros Hnd Hx Hy Hxy; [by apply elem_of_nil in Hx|].
  apply NoDup_cons in Hnd as [Ha Hnd].
  apply elem_of_cons in Hx as [->|Hx]; apply elem_of_cons in Hy as [->|Hy]; auto.
  - exfalso. apply Ha. rewrite Hxy. apply list_elem_of_fmap. eauto.
  - exfalso. apply Ha. rewrite <- Hxy. apply list_elem_of_fmap. eauto.
Qed.

Lemma NoDup_names (l : list Program) :
  NoDup (map out_path l) → NoDup (map Name l).
Proof.
  intros Hnd. apply (NoDup_fmap_1 (λ n, Join (Join chaosDir n) outName)).
  change (NoDup (map (λ n, Join (Join chaosDir n) outName) (map Name l))).
  by rewrite map_map.
Qed.

Lemma result_job_sublist (l : list downloadResult) :
  map (λ j, Name (job_program j)) (flat_map result_job l) `sublist_of`
  map Name (map program l).
Proof.
  induction l as [|r l IH]; simpl; [done|].
  unfold result_job at 1. destruct (err r); simpl.
  - by apply sublist_cons.
  - by apply sublist_skip.
Qed.

(** With distinct consolidated files in the selection, a program that an
    unzip worker has reported on has no other archive under way. *)
Lemma names_NoDup (toDownload : list Program) (s : state) (evs : list event) :
  NoDup (map out_path (List.filter eligible toDownload)) →
  flow_inv s evs → feed_inv toDownload s evs →
  NoDup (map (λ j, Name (job_program j)) (in_flight s) ++ extracted evs).
Proof.
  intros Hnd (HA & HB & _) Hfeed. rewrite <- HB.
  eapply sublist_NoDup; [|apply result_job_sublist].
  apply NoDup_names in Hnd.
  assert (NoDup (map Name (enqueued evs))) as Henq.
  { unfold feed_inv in Hfeed. destruct (feeder s) as [rest|].
    - rewrite <- Hfeed, map_app in Hnd. by apply NoDup_app in Hnd as [? _].
    - by rewrite <- Hfeed in Hnd. }
  rewrite HA, map_app in Henq. by apply NoDup_app in Henq as (_ & _ & ?).
Qed.

Lemma printed_ok_extracted (evs : list event) (n : string) :
  MsgOk n ∈ printed evs → n ∈ extracted evs.
Proof.
  unfold printed, extracted. rewrite !list_elem_of_omap.
  intros (e & He & Hm). exists e. split; [done|].
  destruct e as [| |m]; try done. by inversion Hm; subst.
Qed.

Lemma output_inv_step {W : World} (toDownload : list Program) (fs0 : filesystem)
    (s s' : state) (evs ev : list event) (a : action) :
  NoDup (map out_path (List.filter eligible toDownload)) →
  flow_inv s evs → feed_inv toDownload s evs → store_inv toDownload fs0 s →
  output_inv toDownload s evs → step s a = Some (s', ev) →
  output_inv toDownload s' (evs ++ ev).
Proof.
  intros Hnd Hflow Hfeed Hstore Hout Hstep p Hp Hel Hok.
  rewrite printed_app, elem_of_app in Hok.
  destruct (step_archive _ _ _ _ Hstep) as [_ Hfs Hno _|q n body _ _ _ Hfs _ Hpr
    |j c Hfl Hfs Hpr].
  - destruct Hok as [Hok|Hok]; [|by apply Hno in Hok].
    rewrite Hfs. by apply Hout.
  - rewrite Hpr in Hok. destruct Hok as [Hok|Hok]; [|by apply elem_of_nil in Hok].
    destruct (Hout p Hp Hel Hok) as (b & files & Hb & Hfiles & Hfile).
    exists b, files. split; [done|]. split; [done|].
    rewrite Hfs, lookup_insert_ne; [done|].
    intros Heq. symmetry in Heq. by apply out_path_not_tmp_path in Heq.
  - pose proof (names_NoDup _ _ _ Hnd Hflow Hfeed) as Hnames.
    unfold store_inv in Hstore.
    pose proof (store_ok_perm _ _ _ _ _ Hfl Hstore) as (_ & Hjobs & _).
    destruct (Hjobs j (list_elem_of_here _ _))
      as ((nj & Hnj) & _ & Hinj & Helj & bj & Hbj & Hfj).
    assert (out_path p ≠ job_zipPath j) as Hzp.
    { rewrite Hnj. apply out_path_not_tmp_path. }
    rewrite Hpr in Hok. rewrite Hfs, lookup_delete_ne by done.
    destruct Hok as [Hok|Hok].
    + (* the line was printed before: another program is extracted now *)
      destruct (Hout p Hp Hel Hok) as (b & files & Hb & Hfiles & Hfile).
      exists b, files. split; [done|]. split; [done|].
      rewrite unzip_lookup_ne; [done|].
      intros Heq.
      assert (p = job_program j) as ->.
      { apply (NoDup_map_elem out_path _ _ _ Hnd); [by apply eligible_selected..|done]. }
      apply NoDup_app in Hnames as (_ & Hdisj & _).
      apply (Hdisj (Name (job_program j))).
      * rewrite Hfl. simpl. apply list_elem_of_here.
      * by apply printed_ok_extracted.
    + (* the line is printed now *)
      apply list_elem_of_singleton in Hok.
      destruct (unzip c (job_zipPath j) (Join chaosDir (Name (job_program j))) (fs s))
        as [f' [e|]] eqn:Hunzip; simpl in Hok; [done|].
      inversion Hok as [Hname].
      assert (p = job_program j) as ->.
      { apply (NoDup_map_elem out_path _ _ _ Hnd); [by apply eligible_selected..|].
        unfold out_path. by rewrite Hname. }
      apply unzip_ok_inv in Hunzip as (files & Hopen & _ & ->).
      rewrite Hfj in Hopen. simpl in Hopen.
      exists bj, files. split; [done|]. split; [done|].
      simpl. apply lookup_insert_eq.
Qed.

Lemma extracted_printed (evs : list event) :
  extracted evs =
  omap (λ m, match m with MsgOk n | MsgUnzipErr n _ => Some n | _ => None end) (printed evs).
Proof.
  induction evs as [|e evs IH]; [done|].
  destruct e as [p|r|m]; simpl; try done.
  destruct m; simpl; by rewrite ?IH.
Qed.

Lemma untouched_inv_step {W : World} (toDownload : list Program) (fs0 : filesystem)
    (s s' : state) (evs ev : list event) (a : action) :
  NoDup (map out_path (List.filter eligible toDownload)) →
  store_inv toDownload fs0 s → untouched_inv toDownload fs0 s evs →
  step s a = Some (s', ev) → untouched_inv toDownload fs0 s' (evs ++ ev).
Proof.
  intros Hnd Hstore Hun Hstep p Hp Hel Hnot.
  rewrite extracted_app, not_elem_of_app in Hnot. destruct Hnot as [Hnot Hnew].
  destruct (step_archive _ _ _ _ Hstep) as [_ Hfs _ _|q n body _ _ _ Hfs _ _
    |j c Hfl Hfs Hpr].
  - rewrite Hfs. by apply Hun.
  - rewrite Hfs, lookup_insert_ne; [by apply Hun|].
    intros Heq. symmetry in Heq. by apply out_path_not_tmp_path in Heq.
  - unfold store_inv in Hstore.
    pose proof (store_ok_perm _ _ _ _ _ Hfl Hstore) as (_ & Hjobs & _).
    destruct (Hjobs j (list_elem_of_here _ _)) as ((nj & Hnj) & _ & Hinj & Helj & _).
    rewrite extracted_printed, Hpr in Hnew.
    assert (Name p ≠ Name (job_program j)) as Hname.
    { intros Heq. apply Hnew. rewrite Heq.
      destruct (unzip c _ _ (fs s)).2; simpl; apply list_elem_of_here. }
    rewrite Hfs, lookup_delete_ne, unzip_lookup_ne; [by apply Hun| |].
    + intros Heq. apply Hname. f_equal.
      apply (NoDup_map_elem out_path _ _ _ Hnd); [by apply eligible_selected..|done].
    + rewrite Hnj. intros Heq. symmetry in Heq. by apply out_path_not_tmp_path in Heq.
Qed.

Lemma archives_inv_run {W : World} (toDownload : list Program) (workers : nat)
    (fs0 : filesystem) (sched : list action) (s : state) (evs : list event) :
  run (init_state toDownload workers fs0) sched = Some (s, evs) →
  (pipeline_inv toDownload workers fs0 s evs ∧ flow_inv s evs) ∧
  store_inv toDownload fs0 s ∧
  (NoDup (map out_path (List.filter eligible toDownload)) →
   output_inv toDownload s evs ∧ untouched_inv toDownload fs0 s evs).
Proof.
  intros Hrun.
  apply (run_invariant
           (λ s evs, (pipeline_inv toDownload workers fs0 s evs ∧ flow_inv s evs) ∧
                     store_inv toDownload fs0 s ∧
                     (NoDup (map out_path (List.filter eligible toDownload)) →
                      output_inv toDownload s evs ∧ untouched_inv toDownload fs0 s evs)))
    with (sched := sched) (s := init_state toDownload workers fs0) (evs := []);
    [|split; [split; [apply pipeline_inv_init|apply flow_inv_init]|
              split; [apply store_inv_init|]]|exact Hrun].
  - clear. intros s evs a s' ev ((Hinv & Hflow) & Hstore & Hout) Hstep.
    pose proof Hinv as (_ & Hord & _ & Hfeed & _).
    split; [split|split].
    + by eapply pipeline_inv_step.
    + by eapply flow_inv_step.
    + by eapply store_inv_step.
    + intros Hnd. destruct (Hout Hnd) as [Ho Hu]. split.
      * eapply output_inv_step; eauto.
      * eapply untouched_inv_step; eauto.
  - intros _. split.
    + intros p _ _ Hok. by apply elem_of_nil in Hok.
    + by intros p _ _ _.
Qed.

(** X19: of the files on disk, the download pipeline touches only the
    consolidated files of the eligible programs of the selection (the
    directories it makes for them are no files).  During a run every other
    file that is not a temporary archive holds what it held before, and
    when the pipeline has returned every other file does, the temporary
    files included: files that were there before the run are neither
    overwritten nor removed.  Files are taken by their cleaned paths, as
    the consolidated files are. *)
Theorem pipeline_frame {W : World} (toDownload : list Program) (workers : nat)
    (fs0 : filesystem) (sched : list action) (s : state) (evs : list event) :
  run (init_state toDownload workers fs0) sched = Some (s, evs) →
  (∀ path, Clean path = path → ¬ selected_out toDownload path →
     (∀ n, path ≠ tmp_path n) → fs s !! path = fs0 !! path) ∧
  (finished s →
   ∀ path, Clean path = path → ¬ selected_out toDownload path →
     fs s !! path = fs0 !! path).
Proof.
  intros Hrun.
  destruct (archives_inv_run _ _ _ _ _ _ Hrun)
    as (((_ & Hord & _) & Hflow) & (_ & Hjobs & Hframe) & _).
  split.
  - intros path _ Hout Htmp. apply Hframe; [done|].
    intros (j & Hj & Hin)%list_elem_of_fmap.
    destruct (Hjobs j Hin) as ((n & Hn) & _). apply (Htmp n). congruence.
  - intros Hfin path _ Hout. apply Hframe; [done|].
    destruct (finished_flow _ _ _ Hord Hflow Hfin) as (_ & _ & -> & _).
    apply not_elem_of_nil.
Qed.

Lemma pipeline_frame_witness :
  ∃ s evs,
    run (W := sample_world)
        (init_state sample_targets 2 {[ tmp_path 7 := bytes_of "mine" ]}) sample_schedule =
      Some (s, evs) ∧
    fs s !! tmp_path 7 = Some (bytes_of "mine").
Proof.
  assert (from_option (λ x, main x.1) DrvRange
            (run (W := sample_world)
                 (init_state sample_targets 2 {[ tmp_path 7 := bytes_of "mine" ]})
                 sample_schedule) = DrvDone) as Hfin
    by (vm_compute; reflexivity).
  assert (Clean (tmp_path 7) = tmp_path 7) as Hclean by (vm_compute; reflexivity).
  destruct (run (W := sample_world)
              (init_state sample_targets 2 {[ tmp_path 7 := bytes_of "mine" ]})
              sample_schedule) as [[s evs]|] eqn:Hrun; [|discriminate Hfin].
  exists s, evs. split; [done|].
  destruct (pipeline_frame (W := sample_world) _ _ _ _ _ _ Hrun) as [_ Hdone].
  rewrite Hdone.
  - apply lookup_singleton_eq.
  - exact Hfin.
  - exact Hclean.
  - intros (p & _ & _ & Hp). symmetry in Hp. by apply out_path_not_tmp_path in Hp.
Defined.

(** X20: a success line can be trusted.  When the eligible programs of the
    selection have distinct consolidated files, then from the moment the
    line "[+] name" of a program is printed, and so when the pipeline has
    returned, its consolidated file holds the text members, in stored
    order, of the archive that the address of the program answered with
    status 200: a later extraction of another program does not disturb it. *)
Theorem success_line_means_extracted {W : World} (toDownload : list Program)
    (workers : nat) (fs0 : filesystem) (sched : list action) (s : state)
    (evs : list event) (p : Program) :
  NoDup (map out_path (List.filter eligible toDownload)) →
  run (init_state toDownload workers fs0) sched = Some (s, evs) →
  p ∈ toDownload → eligible p = true → MsgOk (Name p) ∈ printed evs →
  ∃ body files,
    http_Get (URL p) = Response 200 body false ∧
    zip_OpenReader body = Some files ∧
    fs s !! out_path p = Some (spec_consolidated files).
Proof.
  intros Hnd Hrun Hp Hel Hok.
  destruct (archives_inv_run _ _ _ _ _ _ Hrun) as (_ & _ & Hout).
  destruct (Hout Hnd) as [Houtput _].
  destruct (Houtput p Hp Hel Hok) as (body & files & Hbody & Hfiles & Hfile).
  exists body, files. split; [by apply fetched_body_Some|]. done.
Qed.

Lemma success_line_means_extracted_witness :
  ∃ s evs,
    run (W := sample_world) (init_state sample_targets 2 ∅) sample_schedule = Some (s, evs) ∧
    fs s !! "chaos/acme/subdomains.txt" =
      Some (line "sub1.acme.com" ++ line "sub2.acme.com").
Proof.
  assert (MsgOk "acme" ∈
            from_option (λ x, printed x.2) []
              (run (W := sample_world) (init_state sample_targets 2 ∅) sample_schedule))
    as Hok by (vm_compute; repeat constructor).
  destruct sample_run_ends as (s & evs & Hrun & _).
  rewrite Hrun in Hok. simpl in Hok.
  exists s, evs. split; [exact Hrun|].
  destruct (success_line_means_extracted (W := sample_world)
              sample_targets 2 ∅ sample_schedule s evs acme)
    as (body & files & Hget & Hfiles & Hfile).
  - vm_compute. repeat constructor; rewrite ?elem_of_cons, ?elem_of_nil; intuition discriminate.
  - exact Hrun.
  - apply list_elem_of_here.
  - reflexivity.
  - exact Hok.
  - vm_compute in Hget. inversion Hget; subst body.
    vm_compute in Hfiles. inversion Hfiles; subst files.
    exact Hfile.
Defined.



(** ** The feeders *)

(** X22: the two feeder goroutines never block.  The job queue of the
    download pipeline and the file queue of the search are made with room
    for everything their feeder will send, so in every state a run reaches
    in which the feeder has not returned (and the process has not ended),
    the feeder can make its next move. *)
Theorem feeders_never_block {W : World} :
  (∀ toDownload workers fs0 sched s evs rest,
     run (init_state toDownload workers fs0) sched = Some (s, evs) →
     feeder s = Some rest → ¬ finished s → is_Some (step s AFeed)) ∧
  (∀ f domain files workers sched s fin rest,
     qrun f domain (q_init files workers) sched = Some (s, fin) →
     q_feeder s = Some rest → q_main s = QReduce → is_Some (qstep f domain s QAFeed)).
Proof.
  split.
  - intros toDownload workers fs0 sched s evs rest Hrun Hfeeder Hnot.
    destruct (pipeline_inv_run _ _ _ _ _ _ Hrun)
      as (_ & Hord & _ & _ & (Hcj & _ & _ & _ & Hup) & _).
    destruct Hord as (_ & _ & _ & Hjobs & _).
    rewrite step_running by done. simpl. unfold step_feed. rewrite Hfeeder.
    destruct rest as [|p rest]; [eauto|].
    destruct (eligible p); [|eauto].
    destruct (send_enabled p (downloadJobs s)) as [c Hc].
    + unfold upstream, feeder_left in Hup. rewrite Hfeeder in Hup. simpl in Hup. lia.
    + destruct (closed (downloadJobs s)) eqn:Hcl; [|done].
      rewrite (Hjobs eq_refl) in Hfeeder. done.
    + rewrite Hc. simpl. eauto.
  - intros f domain files workers sched s fin rest Hrun Hfeeder Hmain.
    destruct (q_invs_run _ _ _ _ _ _ _ Hrun)
      as [(_ & _ & _ & _ & _ & _ & Hjobs & _) (Hcj & _ & Hroom & _)].
    unfold qstep. rewrite Hmain. simpl. rewrite Hfeeder.
    destruct rest as [|p rest]; [eauto|].
    destruct (send_enabled p (fileJobs s)) as [c Hc].
    + rewrite Hfeeder in Hroom. simpl in Hroom. lia.
    + destruct (closed (fileJobs s)) eqn:Hcl; [|done].
      rewrite (Hjobs eq_refl) in Hfeeder. done.
    + rewrite Hc. simpl. eauto.
Qed.

(** ** From the extraction to the search *)

Lemma HasSuffix_refl (s : string) : HasSuffix s s = true.
Proof.
  destruct s as [|c s]; [done|].
  change (HasSuffix (String c s) (String c s))
    with (if String.eqb (String c s) (String c s) then true else HasSuffix s (String c s)).
  by rewrite String.eqb_refl.
Qed.

Lemma HasSuffix_app (a b suf : string) :
  HasSuffix b suf = true → HasSuffix (a +:+ b) suf = true.
Proof.
  intros Hb. induction a as [|c a IH]; [done|].
  change (HasSuffix (String c a +:+ b) suf)
    with (if String.eqb (String c (a +:+ b)) suf then true else HasSuffix (a +:+ b) suf).
  by destruct (String.eqb _ suf).
Qed.

Lemma HasSuffix_out_path (dest : string) : HasSuffix (Join dest outName) outName = true.
Proof.
  destruct (Join_outName dest) as [pre ->]. apply HasSuffix_app, HasSuffix_refl.
Qed.

(** X23: what the extraction writes, the search reads.  The consolidated
    file of a successful [unzip] passes the test of the walk of
    [parallelQuery] (a regular file whose path ends in subdomains.txt),
    whatever the directory, and [countMatches] on it counts the matching
    lines of the concatenated text members of the archive. *)
Theorem unzip_output_is_searched {W : World} (create_ok : bool) (src dest : string)
    (f f' : filesystem) (entries : list dirent) (domain : list byte) :
  unzip create_ok src dest f = (f', None) →
  mkDirent (Join dest outName) false false ∈ entries →
  Join dest outName ∈ walk_files entries ∧
  ∃ files,
    f !! src ≫= zip_OpenReader = Some files ∧
    countMatches f' (Join dest outName) domain =
      count_loop domain (scan_tokens maxTokenSize (spec_consolidated files)).
Proof.
  intros Hrun Hentry. split.
  - unfold walk_files. apply list_elem_of_In, in_map_iff.
    exists (mkDirent (Join dest outName) false false). split; [done|].
    apply filter_In. split; [by apply list_elem_of_In|].
    simpl. apply HasSuffix_out_path.
  - apply unzip_ok_inv in Hrun as (files & Hopen & _ & ->).
    exists files. split; [done|].
    unfold countMatches. by rewrite lookup_insert_eq.
Qed.

Lemma unzip_output_is_searched_witness :
  let f : filesystem := {[ tmp_path 0 := bytes_of "PK-acme" ]} in
  "chaos/acme/subdomains.txt" ∈
    walk_files [mkDirent "chaos" true false; mkDirent "chaos/acme" true false;
                mkDirent "chaos/acme/subdomains.txt" false false].
Proof.
  intros f.
  destruct (unzip (W := sample_world) true (tmp_path 0) "chaos/acme" f) as [f' e] eqn:Hrun.
  assert (e = None) as ->.
  { apply (f_equal snd) in Hrun. vm_compute in Hrun. by inversion Hrun. }
  destruct (unzip_output_is_searched (W := sample_world) true (tmp_path 0) "chaos/acme" f f'
              [mkDirent "chaos" true false; mkDirent "chaos/acme" true false;
               mkDirent "chaos/acme/subdomains.txt" false false] [] Hrun) as [Hwalk _].
  - change (Join "chaos/acme" outName) with "chaos/acme/subdomains.txt".
    rewrite !elem_of_cons. auto.
  - exact Hwalk.
Defined.

(** ** Sends and closed channels *)

(** X24: no goroutine ever sends on a closed channel (which would panic).
    In every state a run of the download pipeline or of the search reaches,
    a goroutine that is at a send finds its channel open: the feeders close
    their queue after their last send, the results channels are closed
    after the last worker has returned, and the driver closes the
    extraction queue after its own last send. *)
Theorem no_send_on_closed_channel {W : World} :
  (∀ toDownload workers fs0 sched s evs,
     run (init_state toDownload workers fs0) sched = Some (s, evs) →
     (∀ p rest, feeder s = Some (p :: rest) → closed (downloadJobs s) = false) ∧
     (∀ i r, dlWorkers s !! i = Some (DlSend r) → closed (downloadResults s) = false) ∧
     (∀ j, main s = DrvSend j → closed (unzipJobs s) = false)) ∧
  (∀ f domain files workers sched s fin,
     qrun f domain (q_init files workers) sched = Some (s, fin) →
     (∀ p rest, q_feeder s = Some (p :: rest) → closed (fileJobs s) = false) ∧
     (∀ i r, q_workers s !! i = Some (QSend r) → closed (results s) = false)).
Proof.
  split.
  - intros toDownload workers fs0 sched s evs Hrun.
    by eapply no_send_on_closed.
  - intros f domain files workers sched s fin Hrun.
    destruct (q_invs_run _ _ _ _ _ _ _ Hrun)
      as [(_ & _ & _ & Hres & _ & _ & Hjobs & _) _].
    split.
    + intros p rest Hfeeder. destruct (closed (fileJobs s)) eqn:Hcl; [|done].
      rewrite (Hjobs eq_refl) in Hfeeder. done.
    + intros i r Hi. destruct (closed (results s)) eqn:Hcl; [|done].
      by pose proof (forallb_lookup _ _ _ _ (Hres eq_refl) Hi).
Qed.

(** ** What counts as a match *)

Lemma has_prefix_app (d post : list byte) : has_prefix (d ++ post) d = true.
Proof.
  induction d as [|b d IH]; simpl; [by destruct post|].
  by rewrite (Byte.byte_dec_lb (eq_refl b)), IH.
Qed.

Lemma Contains_prefix (s sub : list byte) : has_prefix s sub = true → Contains s sub = true.
Proof. destruct s; simpl; by intros ->. Qed.

Lemma Contains_app (pre d post : list byte) : Contains (pre ++ d ++ post) d = true.
Proof.
  induction pre as [|c pre IH].
  - change ([] ++ d ++ post) with (d ++ post). apply Contains_prefix, has_prefix_app.
  - simpl. rewrite IH. apply orb_true_r.
Qed.

Lemma raw_lines_line (l rest : list byte) :
  newline ∉ l → raw_lines (l ++ newline :: rest) = l :: raw_lines rest.
Proof.
  induction l as [|b l IH]; intros Hnl; [done|].
  apply not_elem_of_cons in Hnl as [Hb Hnl]. simpl.
  destruct (Byte.eqb b newline) eqn:Heq.
  { apply Byte.byte_dec_bl in Heq. by subst. }
  by rewrite (IH Hnl).
Qed.

Lemma dropCR_no_cr (l : list byte) : carriage_return ∉ l → dropCR l = l.
Proof.
  intros Hcr. destruct l as [|b l _] using rev_ind; [done|].
  rewrite dropCR_snoc. destruct (Byte.eqb b carriage_return) eqn:Heq; [|done].
  apply Byte.byte_dec_bl in Heq. subst b.
  exfalso. apply Hcr. rewrite elem_of_app, list_elem_of_singleton. auto.
Qed.

(** X26: a line counts as a match when the domain occurs anywhere in it,
    not only at its end: a file that starts with a line in ASCII holding
    the (lower-case) domain between any other bytes has one match more than
    the rest of the file, so a search for a domain also counts the hosts of
    longer domains that contain it. *)
Theorem countMatches_substring (f : filesystem) (path : string)
    (domain pre post rest : list byte) :
  ascii_only (pre ++ domain ++ post) = true →
  ToLower domain = domain →
  newline ∉ pre ++ domain ++ post → carriage_return ∉ pre ++ domain ++ post →
  Z.of_nat (length (pre ++ domain ++ post)) < maxTokenSize →
  countMatches (<[path := (pre ++ domain ++ post) ++ newline :: rest]> f) path domain =
    1 + countMatches (<[path := rest]> f) path domain.
Proof.
  intros _ Hlow Hnl Hcr Hlen. unfold countMatches. rewrite !lookup_insert_eq.
  unfold scan_tokens. rewrite (raw_lines_line _ _ Hnl). simpl.
  destruct (Z.ltb_spec (Z.of_nat (length (pre ++ domain ++ post))) maxTokenSize) as [_|?];
    [|lia].
  simpl. rewrite (dropCR_no_cr _ Hcr), !count_loop_filter. simpl.
  rewrite !ToLower_app, Hlow, Contains_app. simpl. lia.
Qed.

Lemma countMatches_substring_witness :
  countMatches {[ "chaos/x/subdomains.txt" :=
                    line "notacme.com.evil.org" ++ line "www.example.org" ]}
    "chaos/x/subdomains.txt" (bytes_of "acme.com") = 1.
Proof.
  pose proof (countMatches_substring ∅ "chaos/x/subdomains.txt" (bytes_of "acme.com")
                (bytes_of "not") (bytes_of ".evil.org") (line "www.example.org")) as Hcount.
  rewrite insert_empty in Hcount.
  change (line "notacme.com.evil.org" ++ line "www.example.org")
    with ((bytes_of "not" ++ bytes_of "acme.com" ++ bytes_of ".evil.org") ++
          newline :: line "www.example.org").
  rewrite Hcount.
  - vm_compute; reflexivity.
  - vm_compute; reflexivity.
  - vm_compute; reflexivity.
  - apply (bool_decide_unpack
             (newline ∉ bytes_of "not" ++ bytes_of "acme.com" ++ bytes_of ".evil.org")).
    vm_compute. exact I.
  - apply (bool_decide_unpack
             (carriage_return ∉ bytes_of "not" ++ bytes_of "acme.com" ++ bytes_of ".evil.org")).
    vm_compute. exact I.
  - vm_compute; reflexivity.
Defined.
